(** * NectarCAM photostatistics analysis: a shallow embedding

    Source: [src/nectarchain/user_scripts/amikhno/analysis_photostat_simple.py].

    Numbers.  A numpy [float64] is modelled as an exact real number or
    one of the three IEEE special values ([float64] below): arithmetic on
    finite values is exact (no rounding, no overflow, no signed zero),
    while division by zero, the square root and the logarithm outside
    their domains produce [PInf], [NInf] and [NaN] as numpy does.

    Arrays.  A one-dimensional [ndarray] is a list; a numpy masked array
    is a list of (data, mask) cells, with the mask propagation rules of
    [numpy.ma].  What an array holds that numpy allocates without
    initialising it is an argument of the function that allocates it.

    Effects.  Python exceptions are [None] in the [option] monad.  The
    main script's objects (masked arrays, the [dict_missing_pix]
    dictionary) live in an explicit store threaded through a
    state-and-error monad. *)

From Stdlib Require Import Reals Lra Lia ZArith.
From stdpp Require Import base decidable option list sorting gmap strings.

#[global] Instance R_eq_dec : EqDecision R := Req_dec_T.
#[global] Instance Rlt_decision (a b : R) : Decision (a < b)%R := Rlt_dec a b.
#[global] Instance Rle_decision (a b : R) : Decision (a <= b)%R := Rle_dec a b.

(** ** IEEE values *)

Inductive float64 : Type :=
  | Fin (r : R)
  | PInf
  | NInf
  | NaN.

Definition isfinite (x : float64) : bool :=
  match x with Fin _ => true | _ => false end.

Definition fneg (x : float64) : float64 :=
  match x with
  | Fin a => Fin (- a)
  | PInf => NInf
  | NInf => PInf
  | NaN => NaN
  end.

Definition fadd (x y : float64) : float64 :=
  match x, y with
  | Fin a, Fin b => Fin (a + b)
  | NaN, _ | _, NaN => NaN
  | PInf, NInf | NInf, PInf => NaN
  | PInf, _ | _, PInf => PInf
  | NInf, _ | _, NInf => NInf
  end.

Definition fsub (x y : float64) : float64 :=
  match x, y with
  | Fin a, Fin b => Fin (a - b)
  | NaN, _ | _, NaN => NaN
  | PInf, PInf | NInf, NInf => NaN
  | PInf, _ | _, NInf => PInf
  | NInf, _ | _, PInf => NInf
  end.

(** An infinity of the sign of [pos]. *)
Definition inf_of (pos : bool) : float64 := if pos then PInf else NInf.

(** [inf * a] for a finite [a]: [nan] at zero, otherwise by the signs. *)
Definition inf_times (pos : bool) (a : R) : float64 :=
  if bool_decide (a = 0)%R then NaN
  else inf_of (if bool_decide (0 < a)%R then pos else negb pos).

Definition fmul (x y : float64) : float64 :=
  match x, y with
  | Fin a, Fin b => Fin (a * b)
  | NaN, _ | _, NaN => NaN
  | PInf, Fin a | Fin a, PInf => inf_times true a
  | NInf, Fin a | Fin a, NInf => inf_times false a
  | PInf, PInf | NInf, NInf => PInf
  | PInf, NInf | NInf, PInf => NaN
  end.

(** Division: [0/0] is [nan], [a/0] is an infinity of the sign of [a]. *)
Definition fdiv (x y : float64) : float64 :=
  match x, y with
  | Fin a, Fin b =>
      if bool_decide (b = 0)%R then
        if bool_decide (a = 0)%R then NaN else inf_of (bool_decide (0 < a)%R)
      else Fin (a / b)
  | NaN, _ | _, NaN => NaN
  | Fin _, (PInf | NInf) => Fin 0
  | PInf, Fin b => inf_of (bool_decide (0 <= b)%R)
  | NInf, Fin b => inf_of (bool_decide (b < 0)%R)
  | (PInf | NInf), (PInf | NInf) => NaN
  end.

Definition fsqrt (x : float64) : float64 :=
  match x with
  | Fin a => if bool_decide (a < 0)%R then NaN else Fin (sqrt a)
  | PInf => PInf
  | NInf | NaN => NaN
  end.

Definition flog (x : float64) : float64 :=
  match x with
  | Fin a =>
      if bool_decide (a < 0)%R then NaN
      else if bool_decide (a = 0)%R then NInf
      else Fin (ln a)
  | PInf => PInf
  | NInf | NaN => NaN
  end.

Definition fabs (x : float64) : float64 :=
  match x with
  | Fin a => Fin (Rabs a)
  | PInf | NInf => PInf
  | NaN => NaN
  end.

(** [x ** 2] *)
Definition fsquare (x : float64) : float64 := fmul x x.

(** Comparisons; every comparison with [nan] is false, except [!=]. *)
Definition flt (x y : float64) : bool :=
  match x, y with
  | Fin a, Fin b => bool_decide (a < b)%R
  | NaN, _ | _, NaN => false
  | NInf, (Fin _ | PInf) => true
  | Fin _, PInf => true
  | _, _ => false
  end.

Definition feq (x y : float64) : bool :=
  match x, y with
  | Fin a, Fin b => bool_decide (a = b)
  | PInf, PInf | NInf, NInf => true
  | _, _ => false
  end.

Definition fle (x y : float64) : bool := flt x y || feq x y.
Definition fgt (x y : float64) : bool := flt y x.
Definition fne (x y : float64) : bool := negb (feq x y).

(** Python [int] to [float64]. *)
Definition of_nat (n : nat) : float64 := Fin (INR n).
Definition of_int (z : Z) : float64 := Fin (IZR z).

Definition fzero : float64 := Fin 0.

(** ** numpy arrays *)

(** A one-dimensional [ndarray] of [float64]. *)
Abbreviation ndarray := (list float64).

(** A two-dimensional [ndarray]: [shape1] is [a.shape[1]], which numpy
    keeps even when the array has no row. *)
Record ndarray2 : Type := NdArray2 { shape1 : nat; rows2 : list (list float64) }.

(** [np.zeros((n, k))] *)
Definition np_zeros2 (n k : nat) : ndarray2 :=
  NdArray2 k (replicate n (replicate k fzero)).

(** [np.concatenate([a, b], axis=0)]; [ValueError] when the trailing
    dimensions differ. *)
Definition np_concatenate2 (a b : ndarray2) : option ndarray2 :=
  if decide (shape1 a = shape1 b)
  then Some (NdArray2 (shape1 a) (rows2 a ++ rows2 b))
  else None.

(** [a[idx]] with an integer index array; [IndexError] out of range. *)
Definition np_take {A : Type} (a : list A) (idx : list nat) : option (list A) :=
  mapM (λ i, a !! i) idx.

Definition np_take2 (a : ndarray2) (idx : list nat) : option ndarray2 :=
  NdArray2 (shape1 a) <$> np_take (rows2 a) idx.

(** [a[:, 0]]; [IndexError] when [a] has no column. *)
Definition np_column0 (a : ndarray2) : option ndarray :=
  mapM (λ row : list float64, row !! 0%nat) (rows2 a).

(** [np.setdiff1d(np.arange(n), ar2)]: the values of [arange(n)] that are
    not in [ar2], in increasing order. *)
Definition np_setdiff1d_arange (n : nat) (ar2 : list nat) : list nat :=
  filter (λ p, p ∉ ar2) (seq 0 n).

(** [np.argsort(keys)]: the indices that sort [keys].  numpy's default
    sort is not stable; sorting (key, index) pairs by key yields the same
    indices whenever the keys are distinct. *)
Definition key_le (p q : nat * nat) : Prop := p.1 ≤ q.1.

#[global] Instance key_le_dec p q : Decision (key_le p q) :=
  decide (p.1 ≤ q.1).

Definition np_argsort (keys : list nat) : list nat :=
  (merge_sort key_le (zip keys (seq 0 (length keys)))).*2.

(** [np.sum] of a plain array *)
Definition np_sum (a : ndarray) : float64 := foldr fadd fzero a.

(** ** numpy.ma masked arrays *)

(** One cell of a [MaskedArray]: the underlying datum and its mask bit
    ([true] = masked, excluded from reductions). *)
Record mcell : Type := MCell { mdata : float64; mmask : bool }.

Abbreviation marray := (list mcell).

(** [numpy.ma.masked], the masked scalar: data [0.], mask [True]. *)
Definition masked : mcell := MCell fzero true.

(** A plain value or array seen by a [numpy.ma] operation. *)
Definition unmasked (x : float64) : mcell := MCell x false.
Definition ma_of (a : ndarray) : marray := unmasked <$> a.

(** The default [fill_value] of a float masked array. *)
Definition ma_fill_value : float64 := Fin 1e20.

(** [ma.masked_array(x, mask=m)] with the default [keep_mask=True]: a
    new object whose mask is [m | x.mask].  A mask of size one is
    broadcast, one of the data's size is reshaped, any other size raises
    [MaskError]. *)
Definition ma_masked_array (x : marray) (m : list bool) : option marray :=
  match m with
  | [b] => Some ((λ c, MCell (mdata c) (b || mmask c)) <$> x)
  | _ =>
      if decide (length m = length x)
      then Some (zip_with (λ c b, MCell (mdata c) (b || mmask c)) x m)
      else None
  end.

(** [a.count()]: the number of cells that are not masked. *)
Definition ma_count (a : marray) : nat :=
  length (filter (λ c, mmask c = false) a).

(** [ma.count_masked(a)] *)
Definition ma_count_masked (a : marray) : nat :=
  length (filter (λ c, mmask c = true) a).

(** [a.filled(0)] *)
Definition ma_filled0 (a : marray) : ndarray :=
  (λ c, if mmask c then fzero else mdata c) <$> a.

(** [np.sum(a)] = [a.sum()]: the sum of the cells that are not masked,
    or [masked] when every cell is. *)
Definition ma_sum (a : marray) : mcell :=
  if forallb mmask a then masked else unmasked (np_sum (ma_filled0 a)).

(** Element-wise [+], [-], [*] ([_MaskedBinaryOperation]): the masks are
    or-ed, and a masked cell keeps the left operand's datum. *)
Definition ma_binop (f : float64 → float64 → float64) (a b : mcell) : mcell :=
  let m := mmask a || mmask b in
  MCell (if m then mdata a else f (mdata a) (mdata b)) m.

(** The same operation between two scalars: [masked] when either is. *)
Definition ma_binop_scalar (f : float64 → float64 → float64) (a b : mcell) : mcell :=
  if mmask a || mmask b then masked else unmasked (f (mdata a) (mdata b)).

(** Element-wise [/] ([_DomainedBinaryOperation] with [_DomainSafeDivide]):
    additionally masked where the divisor is zero or the quotient is not
    finite.  numpy's domain is [|a| * tiny >= |b|], which also catches
    the quotients that overflow a double; on the unbounded finite values
    of this model only [b = 0] remains. *)
Definition ma_true_divide (a b : mcell) : mcell :=
  let r := fdiv (mdata a) (mdata b) in
  let m := negb (isfinite r) || feq (mdata b) fzero || mmask a || mmask b in
  MCell (if m then mdata a else r) m.

(** [/] between two scalars. *)
Definition ma_true_divide_scalar (a b : mcell) : mcell :=
  let c := ma_true_divide a b in
  if mmask c then masked else c.

(** [a ** 2] ([ma.power]): additionally masked where the result is not
    finite; those cells are set to the fill value. *)
Definition ma_power2 (a : mcell) : mcell :=
  let r := if mmask a then mdata a else fsquare (mdata a) in
  let invalid := negb (isfinite r) in
  MCell (if invalid then ma_fill_value else r) (mmask a || invalid).

(** [np.abs] on a masked array: the datum of every cell, masked or not,
    goes through the ufunc; the mask is kept. *)
Definition np_abs_ma (a : mcell) : mcell := MCell (fabs (mdata a)) (mmask a).

(** [np.log] on a masked array ([MaskedArray.__array_wrap__] with the
    domain [x <= 0]): the ufunc works on the data, masked or not; the
    cells of the domain are then set to the ufunc's fill value 1 and
    masked, and the cells that were masked stay masked. *)
Definition np_log_ma (a : mcell) : mcell :=
  let d := fle (mdata a) fzero in
  MCell (if d then Fin 1 else flog (mdata a)) (mmask a || d).

(** [np.sqrt] on a masked array (domain [x < 0], fill value 0). *)
Definition np_sqrt_ma (a : mcell) : mcell :=
  let d := flt (mdata a) fzero in
  MCell (if d then fzero else fsqrt (mdata a)) (mmask a || d).

(** The domain of [true_divide] in [numpy.ma] ([_DomainSafeDivide]):
    [|a| * tiny >= |b|], computed on the data whatever the masks, and
    false as soon as one of the two is [nan].  It holds where the divisor
    is zero and where the dividend is infinite; it also catches the
    quotients that overflow a double, which the unbounded finite values
    of this model do not have. *)
Definition domain_safe_divide (a b : float64) : bool :=
  match a, b with
  | NaN, _ | _, NaN => false
  | Fin _, Fin y => bool_decide (y = 0)%R
  | Fin _, (PInf | NInf) => false
  | (PInf | NInf), _ => true
  end.

(** [np.divide(a, b, where=b != 0)] on masked arrays, one cell.  The
    ufunc works on the data: it writes the quotient where the divisor is
    not zero, and elsewhere leaves the cell of its output array as it
    is; numpy allocates that array without initialising it, and [out] is
    what the cell holds.  [MaskedArray.__array_wrap__] then sets the
    cells of the domain of [true_divide] to the fill value 1 and masks
    them, together with the cells that are masked in an operand: such a
    cell keeps the quotient of the data under its mask.  A [nan] over a
    zero divisor is outside the domain: the cell is neither written nor
    filled, nor masked on that account. *)
Definition np_divide_ma (out : float64) (a b : mcell) : mcell :=
  let raw := if fne (mdata b) fzero then fdiv (mdata a) (mdata b) else out in
  let d := domain_safe_divide (mdata a) (mdata b) in
  MCell (if d then Fin 1 else raw) (mmask a || mmask b || d).

(** The same on arrays; [out i] is the initial content of cell [i] of
    the output array. *)
Definition np_divide_ma_where (out : nat → float64) (a b : marray) : marray :=
  imap (λ i (ab : mcell * mcell), np_divide_ma (out i) ab.1 ab.2) (zip a b).

(** [a > b]: the data are compared cell by cell whatever the masks; the
    result carries the or of the masks. *)
Definition ma_gt (a b : mcell) : bool * bool :=
  (fgt (mdata a) (mdata b), mmask a || mmask b).

(** [np.mean(a)] = [a.mean()]: [dsum * 1. / cnt], or [masked] when no
    cell is left. *)
Definition ma_mean (a : marray) : mcell :=
  let cnt := ma_count a in
  if decide (cnt = 0)%nat then masked
  else unmasked (fdiv (fmul (mdata (ma_sum a)) (Fin 1)) (of_nat cnt)).

(** [a.var()] with [ddof=0]. *)
Definition ma_var (a : marray) : mcell :=
  let cnt := ma_count a in
  let danom := ma_power2 <$> ((λ c, ma_binop fsub c (ma_mean a)) <$> a) in
  ma_true_divide_scalar (ma_sum danom) (unmasked (of_nat cnt)).

(** [np.std(a)] = [a.std()]: the square root of the variance unless it
    is [masked]. *)
Definition ma_std (a : marray) : mcell :=
  let dvar := ma_var a in
  if mmask dvar then masked
  else
    let r := fsqrt (mdata dvar) in
    if isfinite r then unmasked r else masked.

(** [np.divide(num, den, out=np.zeros_like(den), where=cond)]: the
    quotient where [cond] holds, the untouched zero of [out] elsewhere. *)
Definition np_divide_where (num den : ndarray) (cond : list bool) : ndarray :=
  zip_with (λ (xy : float64 * float64) (w : bool),
              if w then fdiv xy.1 xy.2 else fzero)
           (zip num den) cond.

(** [np.min] and [np.max] of a plain array: [nan] wins; [ValueError] on
    an empty array. *)
Definition fmin (x y : float64) : float64 :=
  match x, y with
  | NaN, _ | _, NaN => NaN
  | _, _ => if flt y x then y else x
  end.

Definition fmax (x y : float64) : float64 :=
  match x, y with
  | NaN, _ | _, NaN => NaN
  | _, _ => if flt x y then y else x
  end.

Definition np_min (a : ndarray) : option float64 :=
  match a with
  | [] => None
  | x :: a' => Some (foldl fmin x a')
  end.

Definition np_max (a : ndarray) : option float64 :=
  match a with
  | [] => None
  | x :: a' => Some (foldl fmax x a')
  end.

(** The ceiling of a real number. *)
Definition Rceil (r : R) : Z := (1 - up (- r))%Z.

(** [np.arange(start, stop, step)]: [ceil((stop - start) / step)]
    values [start + k * step]; an error when the length cannot be
    computed. *)
Definition np_arange (start stop step : float64) : option ndarray :=
  match start, stop, step with
  | Fin a, Fin b, Fin s =>
      if bool_decide (s = 0)%R then None
      else Some ((λ k : nat, Fin (a + INR k * s)) <$>
                   seq 0 (Z.to_nat (Rceil ((b - a) / s))))
  | _, _, _ => None
  end.

(** [np.rad2deg] *)
Definition np_rad2deg (x : float64) : float64 := fmul x (Fin (180 / PI)).

(** Membership of a sample in bin [j] of [np.histogram] with explicit
    edges: [edges[j] <= x < edges[j+1]], the last bin being closed on
    the right. *)
Definition in_bin (edges : ndarray) (j : nat) (x : float64) : bool :=
  match edges !! j, edges !! S j with
  | Some lo, Some hi =>
      fle lo x && (if decide (S (S j) = length edges) then fle x hi else flt x hi)
  | _, _ => false
  end.

(** numpy refuses edges that decrease somewhere. *)
Definition np_edges_increase (edges : ndarray) : bool :=
  forallb (λ p : float64 * float64, negb (fgt p.1 p.2)) (zip edges (tail edges)).

(** The weights [w] of the samples [a] that fall in bin [j]. *)
Definition bin_members (edges : ndarray) (j : nat) (a w : ndarray) : ndarray :=
  (filter (λ xw : float64 * float64, in_bin edges j xw.1 = true) (zip a w)).*2.

(** The order in which numpy sorts and searches floats: [nan] is the
    largest value. *)
Definition sort_lt (x y : float64) : bool :=
  match x, y with
  | NaN, _ => false
  | _, NaN => true
  | _, _ => flt x y
  end.

Definition sort_le (x y : float64) : bool := negb (sort_lt y x).

Definition float_le (x y : float64) : Prop := sort_le x y = true.

#[global] Instance float_le_dec x y : Decision (float_le x y) :=
  decide (sort_le x y = true).

(** Samples with their weights, compared by the sample. *)
Definition sample_le (p q : float64 * float64) : Prop := float_le p.1 q.1.

#[global] Instance sample_le_dec p q : Decision (sample_le p q) :=
  decide (sort_le p.1 q.1 = true).

(** [np.sort(a)] *)
Definition np_sort (a : ndarray) : ndarray := merge_sort float_le a.

(** [sa.searchsorted(v, side)] on a sorted array [sa]: the index at
    which [v] is to be inserted, that is the number of elements below
    [v] (side 'left') or not above [v] (side 'right'). *)
Definition np_searchsorted (sa : ndarray) (v : float64) (right : bool) : nat :=
  length (filter (λ x, (if right then sort_le x v else sort_lt x v) = true) sa).

(** numpy's [_search_sorted_inclusive(sa, edges)]: side 'left' for
    every edge but the last, side 'right' for the last one, which
    closes the last bin on the right. *)
Definition search_sorted_inclusive (sa edges : ndarray) : list nat :=
  imap (λ k v, np_searchsorted sa v (bool_decide (S k = length edges))) edges.

(** [w.cumsum()]: the running sums, from the left. *)
Fixpoint np_cumsum_from (acc : float64) (w : ndarray) : ndarray :=
  match w with
  | [] => []
  | x :: w' => fadd acc x :: np_cumsum_from (fadd acc x) w'
  end.

Definition np_cumsum (w : ndarray) : ndarray :=
  match w with
  | [] => []
  | x :: w' => x :: np_cumsum_from x w'
  end.

(** [np.diff(c)] *)
Definition np_diff (c : ndarray) : ndarray :=
  zip_with (λ lo hi, fsub hi lo) c (tail c).

(** [np.histogram(a, bins=edges)[0]] with explicit edges, numpy's
    "cumulative histogram": the samples are sorted, every edge is
    located among them, and the numbers of samples per bin are the
    differences of these positions.  [ValueError] when the edges
    decrease somewhere. *)
Definition np_histogram (a edges : ndarray) : option (list Z) :=
  if np_edges_increase edges then
    let sa := np_sort a in
    let cum_n := Z.of_nat <$> search_sorted_inclusive sa edges in
    Some (zip_with (λ lo hi, (hi - lo)%Z) cum_n (tail cum_n))
  else None.

(** [np.histogram(a, bins=edges, weights=w)[0]]: the samples are sorted
    and the weights carried along ([sa], [sw]), [cw] is the running sum
    of the sorted weights after a leading zero, and the sum of a bin is
    the difference of [cw] at the positions of its two edges.  A weight
    that is [nan] or infinite thus reaches the sum of its own bin and of
    every bin after it.  [ValueError] when [w] has not the shape of [a]
    or the edges decrease somewhere.  (numpy's sort is not stable; the
    samples that compare equal lie on the same side of every edge, so
    that their order changes no value of [cw] that is read.) *)
Definition np_histogram_weights (a edges w : ndarray) : option ndarray :=
  if decide (length w = length a) then
    if np_edges_increase edges then
      let sorted := merge_sort sample_le (zip a w) in
      let sa := sorted.*1 in
      let sw := sorted.*2 in
      let cw := fzero :: np_cumsum sw in
      cum_n ← np_take cw (search_sorted_inclusive sa edges);
      Some (np_diff cum_n)
    else None
  else None.

(** [np.where(count > 0, total / count, np.nan)] *)
Definition np_where_mean (total : ndarray) (count : list Z) : ndarray :=
  zip_with (λ (s : float64) (c : Z),
              if decide (0 < c)%Z then fdiv s (of_int c) else NaN)
           total count.

(** [np.diag] of a square matrix given by its rows. *)
Definition np_diag (m : list (list float64)) : ndarray :=
  imap (λ i row, default NaN (row !! i)) m.

(** The point [x] lies in bin [j] of the [m] bins cut by the edges
    [lo + k * w], [k = 0 .. m]: at or above the lower edge and below the
    upper one, the last bin being closed on the right. *)
Definition in_arange_bin (lo w : R) (m j : nat) (x : R) : Prop :=
  (lo + INR j * w <= x)%R ∧
  (if decide (S j = m) then x <= lo + INR (S j) * w else x < lo + INR (S j) * w)%R.

(** ** The input dataset and the Pixel Data Normalizer *)

(** The fields of [GainContainer] read from [/data/GainContainer_0]
    ([container.as_dict()]).  The gains are two-dimensional (one row per
    pixel), the charges one-dimensional. *)
Record GainContainer : Type := {
  pixels_id : list nat;
  high_gain : ndarray2;
  low_gain : ndarray2;
  charge : ndarray;
  charge_std : ndarray;
  is_valid : list bool
}.

Definition total_pixels : nat := 1855.

(** Lines 125-183 of [pre_process_fits]: the entries of [container_dict]
    after the missing pixels were appended and every column sorted by
    pixel id, together with [missing_pixels].  The gain columns being
    two-dimensional, [hg_shape] and [lg_shape] are their [shape[1]];
    [charge_std_shape] is 1 for the one-dimensional [charge_std].  As in
    the source, [merged_charge_std] is concatenated from the [charge]
    columns, and the zero block built for [charge_std] is not used. *)
Definition merge_missing_pixels (c : GainContainer)
    : option (GainContainer * list nat) :=
  let existing_pixels := pixels_id c in
  let missing_pixels := np_setdiff1d_arange total_pixels existing_pixels in
  let hg_shape := shape1 (high_gain c) in
  let lg_shape := shape1 (low_gain c) in
  let charge_std_shape := 1%nat in
  let missing_high_gain := np_zeros2 (length missing_pixels) hg_shape in
  let missing_low_gain := np_zeros2 (length missing_pixels) lg_shape in
  let missing_charge := replicate (length missing_pixels) fzero in
  let missing_charge_std := np_zeros2 (length missing_pixels) charge_std_shape in
  let merged_pixel_ids := existing_pixels ++ missing_pixels in
  merged_hg ← np_concatenate2 (high_gain c) missing_high_gain;
  merged_lg ← np_concatenate2 (low_gain c) missing_low_gain;
  let merged_charge := charge c ++ missing_charge in
  let merged_charge_std := charge c ++ missing_charge in
  let sorted_indices := np_argsort merged_pixel_ids in
  ids ← np_take merged_pixel_ids sorted_indices;
  hg ← np_take2 merged_hg sorted_indices;
  lg ← np_take2 merged_lg sorted_indices;
  ch ← np_take merged_charge sorted_indices;
  chs ← np_take merged_charge_std sorted_indices;
  Some ({| pixels_id := ids; high_gain := hg; low_gain := lg;
           charge := ch; charge_std := chs; is_valid := is_valid c |},
        missing_pixels).

(** A sparse input as the Normalizer expects it: distinct pixel ids
    drawn from [0, total_pixels), every column with one entry per id, and
    gain arrays whose rows have the declared width, at least one column
    wide. *)
Record sparse_input (c : GainContainer) : Prop := {
  ids_distinct : NoDup (pixels_id c);
  ids_in_range : Forall (λ p, p < total_pixels) (pixels_id c);
  hg_rows : length (rows2 (high_gain c)) = length (pixels_id c);
  lg_rows : length (rows2 (low_gain c)) = length (pixels_id c);
  charge_rows : length (charge c) = length (pixels_id c);
  charge_std_rows : length (charge_std c) = length (pixels_id c);
  hg_width : Forall (λ r, length r = shape1 (high_gain c)) (rows2 (high_gain c));
  lg_width : Forall (λ r, length r = shape1 (low_gain c)) (rows2 (low_gain c));
  hg_has_column : 0 < shape1 (high_gain c)
}.

(** Two one-pixel inputs used below: pixel 0 with gain 2, charge 8 and
    charge spread 2; and pixel 0 with gain -1 and charge 0. *)
Definition one_pixel (g ch chs : R) : GainContainer :=
  {| pixels_id := [0];
     high_gain := NdArray2 1 [[Fin g]];
     low_gain := NdArray2 1 [[Fin 1]];
     charge := [Fin ch];
     charge_std := [Fin chs];
     is_valid := [true] |}.

(** An input whose only pixel has the id 7, with gain [g] and charge
    [ch]. *)
Definition pixel_seven (g ch : R) : GainContainer :=
  {| pixels_id := [7];
     high_gain := NdArray2 1 [[Fin g]];
     low_gain := NdArray2 1 [[Fin 1]];
     charge := [Fin ch];
     charge_std := [Fin 0];
     is_valid := [true] |}.

(** An input whose [charge] column lacks the entry of its only pixel. *)
Definition short_charge_input : GainContainer :=
  {| pixels_id := [0];
     high_gain := NdArray2 1 [[Fin 2]];
     low_gain := NdArray2 1 [[Fin 1]];
     charge := [];
     charge_std := [];
     is_valid := [true] |}.

(** What [pre_process_fits] returns. *)
Record PreProcessed : Type := {
  pp_n_pe : marray;
  pp_std_n_pe : ndarray;
  pp_sigma_masked : marray;
  pp_dict_missing_pix : gmap string Z;
  pp_high_gain : ndarray2;
  pp_low_gain : ndarray2;
  pp_charge : ndarray
}.

(** Lines 184-250 of [pre_process_fits] (the plot is left out). *)
Definition pre_process_fits (c : GainContainer) : option PreProcessed :=
  '(container_dict, missing_pixels) ← merge_missing_pixels c;
  high_gain0 ← np_column0 (high_gain container_dict);
  let mask_check_hg := (λ a, fle a fzero) <$> high_gain0 in
  masked_hg ← ma_masked_array (ma_of high_gain0) mask_check_hg;
  let n_pe :=
    np_divide_where (charge container_dict) high_gain0
                    ((λ g, fgt g fzero) <$> high_gain0) in
  let std_n_pe :=
    fsqrt <$> np_divide_where (zip_with fmul (charge_std container_dict) n_pe)
                              (charge container_dict)
                              ((λ g, fne g fzero) <$> high_gain0) in
  let mask := (λ a, feq a fzero) <$> std_n_pe in
  sigma_masked ← ma_masked_array (ma_of std_n_pe) mask;
  n_pe_masked ← ma_masked_array (ma_of n_pe) mask;
  let dict_missing_pix : gmap string Z :=
    <["high_gain = 0" :=
        (Z.of_nat (ma_count_masked masked_hg) - Z.of_nat (length missing_pixels))%Z]>
      (<["Missing pixels" := Z.of_nat (length missing_pixels)]> ∅) in
  Some {| pp_n_pe := n_pe_masked; pp_std_n_pe := std_n_pe;
          pp_sigma_masked := sigma_masked;
          pp_dict_missing_pix := dict_missing_pix;
          pp_high_gain := high_gain container_dict;
          pp_low_gain := low_gain container_dict;
          pp_charge := charge container_dict |}.

(** ** The store of the main script *)

(** The masked-array objects the script creates are kept in a heap,
    addressed by location; [dict_missing_pix] is the dictionary of that
    name, a module-level object that functions update in place. *)
Record pystate : Type := PyState {
  heap : gmap nat marray;
  dict_missing_pix : gmap string Z
}.

(** Computations that read and extend the store and may raise. *)
Definition M (A : Type) : Type := pystate → option (A * pystate).

#[global] Instance M_ret : MRet M := λ A x st, Some (x, st).
#[global] Instance M_bind : MBind M := λ A B f m st,
  match m st with
  | Some (x, st') => f x st'
  | None => None
  end.

(** An exception raised by a pure step. *)
Definition lift {A : Type} (o : option A) : M A :=
  λ st, match o with Some x => Some (x, st) | None => None end.

(** A new array object. *)
Definition ma_new (a : marray) : M nat :=
  λ st, let l := fresh (dom (heap st)) in
        Some (l, PyState (<[l := a]> (heap st)) (dict_missing_pix st)).

(** The array a reference points to. *)
Definition ma_read (l : nat) : M marray :=
  λ st, match heap st !! l with Some a => Some (a, st) | None => None end.

(** [dict_missing_pix[key]]; [KeyError] when the key is absent. *)
Definition dict_get (key : string) : M Z :=
  λ st, match dict_missing_pix st !! key with
        | Some v => Some (v, st)
        | None => None
        end.

(** [dict_missing_pix[key] = v] *)
Definition dict_set (key : string) (v : Z) : M unit :=
  λ st, Some ((), PyState (heap st) (<[key := v]> (dict_missing_pix st))).

(** The store after an operation holds every object it held before,
    unchanged, and the same dictionary. *)
Definition extends (st st' : pystate) : Prop :=
  dict_missing_pix st' = dict_missing_pix st ∧
  ∀ l a, heap st !! l = Some a → heap st' !! l = Some a.

(** ** The illumination model, the fitters and the error propagator *)

(** The pixel coordinates of the camera geometry, in metres
    ([camera.pix_x.value], [camera.pix_y.value]). *)
Record CameraGeometry : Type := { pix_x : ndarray; pix_y : ndarray }.

(** What the script reads of a [Minuit] object after [migrad()]. *)
Record MinuitResult : Type := {
  values : list float64;
  errors : list float64;
  covariance : list (list float64);
  fmin_is_valid : bool
}.

(** [minuit.values[i]] *)
Definition value_at (m : MinuitResult) (i : nat) : float64 :=
  default NaN (values m !! i).

(** What [error_propagation_compute] returns. *)
Record Propagated : Type := {
  params : list float64;
  param_errors : list float64;
  model_values : ndarray;
  model_errors : ndarray;
  rebinned : option (ndarray * ndarray * ndarray)
}.

Section Pipeline.

(** The module-level camera geometry. *)
Variable camera : CameraGeometry.

(** ctapipe's [Gaussian(x, y, length, width, psi="0d").pdf(px, py)]. *)
Variable Gaussian_pdf :
  float64 → float64 → float64 → float64 → float64 → float64 → float64.

(** iminuit: [Minuit(fcn, start)], the lower limits set on it, then
    [migrad()]. *)
Variable Minuit_migrad :
  (list float64 → option mcell) → list float64 → list nat → MinuitResult.

(** jacobi's [propagate(fn, x, cov)]. *)
Variable jacobi_propagate :
  (list float64 → ndarray) → list float64 → list (list float64) →
  ndarray * list (list float64).

(** [Gaussian_model([A, x, y, std_x, std_y])] *)
Definition Gaussian_model (A x y std_x std_y : float64) : ndarray :=
  fmul A <$> zip_with (Gaussian_pdf x y std_x std_y) (pix_x camera) (pix_y camera).

(** [model(params)] *)
Definition model (p : list float64) : ndarray :=
  let at_ i := default NaN (p !! i) in
  let sigma_y := at_ 3%nat in
  fmul (at_ 0%nat) <$>
    zip_with (Gaussian_pdf (at_ 1%nat) (at_ 2%nat) (at_ 3%nat) sigma_y)
             (pix_x camera) (pix_y camera).

(** [(n_pe - Gaussian_model(...)) ** 2] *)
Definition squared_residuals (n_pe : marray) (a0 a1 a2 a3 a4 : float64) : marray :=
  ma_power2 <$> zip_with (ma_binop fsub) n_pe (ma_of (Gaussian_model a0 a1 a2 a3 a4)).

(** [LSQ(a0, a1, a2, a3)]; the arrays [n_pe] and [sigma_masked] it
    reads are the module-level ones. *)
Definition LSQ (n_pe sigma_masked : marray) (a0 a1 a2 a3 : float64) : mcell :=
  let a4 := a3 in
  ma_sum (zip_with ma_true_divide
            (squared_residuals n_pe a0 a1 a2 a3 a4)
            (ma_power2 <$> sigma_masked)).

(** [LS_variance(a0, a1, a2, a3, v_int)], on the module-level arrays. *)
Definition LS_variance (n_pe sigma_masked : marray)
    (a0 a1 a2 a3 v_int : float64) : mcell :=
  let a4 := a3 in
  let variance :=
    (λ c, ma_binop fadd c (unmasked v_int)) <$> (ma_power2 <$> sigma_masked) in
  ma_sum (zip_with (ma_binop fsub)
            (zip_with ma_true_divide (squared_residuals n_pe a0 a1 a2 a3 a4) variance)
            (np_log_ma <$> zip_with ma_true_divide (ma_power2 <$> sigma_masked) variance)).

(** Lines 275-277 (and 494-496): [mean], [std] and the comparison
    [np.abs(data - mean) > 3 * std], a masked boolean array. *)
Definition outlier_flags (data_arr : marray) : list (bool * bool) :=
  let mean := ma_mean data_arr in
  let std := ma_std data_arr in
  (λ c, ma_gt (np_abs_ma (ma_binop fsub c mean))
              (ma_binop_scalar fmul (unmasked (Fin 3)) std)) <$> data_arr.

(** [define_delete_out(sigma, data)], the function nested, with the
    same text, in both fitters.  [outliers] is the one-element list
    holding the comparison; used as a mask, numpy reads its underlying
    data, and the two [ma.masked_array] calls build new objects. *)
Definition define_delete_out (sigma data : nat)
    : M (nat * nat * list (bool * bool)) :=
  data_arr ← ma_read data;
  sigma_arr ← ma_read sigma;
  let outliers := outlier_flags data_arr in
  sigma_new ← lift (ma_masked_array sigma_arr outliers.*1);
  sigma' ← ma_new sigma_new;
  data_new ← lift (ma_masked_array data_arr outliers.*1);
  data' ← ma_new data_new;
  mret (data', sigma', outliers).

(** [(n_pe - model) / model] *)
Definition residual_map (n_pe : marray) (fit : ndarray) : marray :=
  zip_with ma_true_divide (zip_with (ma_binop fsub) n_pe (ma_of fit)) (ma_of fit).

(** [optimize_with_outlier_rejection(sigma, data)].  [n_pe] and
    [sigma_masked] are names local to the function; printing and
    plotting are left out. *)
Definition optimize_with_outlier_rejection (sigma data : nat)
    : M (nat * ndarray * MinuitResult * marray) :=
  '(n_pe, sigma_masked, mask_upd) ← define_delete_out sigma data;
  n_pe_arr ← ma_read n_pe;
  sigma_arr ← ma_read sigma_masked;
  let LSQ_wrap (a : list float64) : option mcell :=
    match a with
    | [a0; a1; a2; a3] => Some (LSQ n_pe_arr sigma_arr a0 a1 a2 a3)
    | _ => None
    end in
  let minuit := Minuit_migrad LSQ_wrap [Fin 1000; Fin 0; Fin 0; Fin 1.5] [] in
  let fit :=
    Gaussian_model (value_at minuit 0) (value_at minuit 1) (value_at minuit 2)
                   (value_at minuit 3) (value_at minuit 3) in
  let residuals := residual_map n_pe_arr fit in
  mret (n_pe, fit, minuit, residuals).

(** [LSQ_wrap_var(array_parameters)] of the variance fitter, closed
    over the fitter's local [n_pe] and [sigma_masked]. *)
Definition LSQ_wrap_var (n_pe sigma_masked : marray)
    (array_parameters : list float64) : option mcell :=
  match array_parameters with
  | [A; x; y; std_x; v_int] =>
      let std_y := std_x in
      let variance :=
        (λ c, ma_binop fadd c (unmasked v_int)) <$> (ma_power2 <$> sigma_masked) in
      Some (ma_sum (zip_with (ma_binop fsub)
              (zip_with ma_true_divide (squared_residuals n_pe A x y std_x std_y) variance)
              (np_log_ma <$> zip_with ma_true_divide (ma_power2 <$> sigma_masked) variance)))
  | _ => None
  end.

(** The tally statement that follows each fit:
    [dict_missing_pix["rejected_outliers"] = 1855 - sigma_masked.count()
       - dict_missing_pix["Missing pixels"] - dict_missing_pix["high_gain = 0"]],
    where [sigma_masked] is whatever that name denotes at the place of
    the statement. *)
Definition tally_rejected_outliers (sigma_masked : nat) : M unit :=
  sigma_arr ← ma_read sigma_masked;
  missing ← dict_get "Missing pixels";
  hg_zero ← dict_get "high_gain = 0";
  dict_set "rejected_outliers"
           (1855 - Z.of_nat (ma_count sigma_arr) - missing - hg_zero)%Z.

(** [optimize_with_outlier_rejection_variance(sigma, data, minuit)];
    the limits are the lower bounds 0 on [x0], [x3] and [x4]. *)
Definition optimize_with_outlier_rejection_variance
    (sigma data : nat) (minuit : list float64)
    : M (nat * ndarray * MinuitResult * marray) :=
  '(n_pe, sigma_masked, mask_upd) ← define_delete_out sigma data;
  n_pe_arr ← ma_read n_pe;
  sigma_arr ← ma_read sigma_masked;
  let minuit_new :=
    Minuit_migrad (LSQ_wrap_var n_pe_arr sigma_arr) minuit [0; 3; 4]%nat in
  let fit :=
    Gaussian_model (value_at minuit_new 0) (value_at minuit_new 1)
                   (value_at minuit_new 2) (value_at minuit_new 3)
                   (value_at minuit_new 3) in
  let residuals := residual_map n_pe_arr fit in
  _ ← tally_rejected_outliers sigma_masked;
  mret (n_pe, fit, minuit_new, residuals).

(** The angular distance of every pixel from the fitted centre, in
    degrees (lines 403-409). *)
Definition theta_of (values : list float64) : ndarray :=
  let at_ i := default NaN (values !! i) in
  zip_with (λ px py,
              np_rad2deg
                (fdiv (fsqrt (fadd (fsquare (fsub px (at_ 1%nat)))
                                   (fsquare (fsub py (at_ 2%nat)))))
                      (Fin 12)))
           (pix_x camera) (pix_y camera).

(** The rebinning by angular distance (lines 410-418): the bin
    centres, the model and its uncertainty averaged per bin. *)
Definition rebin_by_theta (theta y yerr_prop : ndarray)
    : option (ndarray * ndarray * ndarray) :=
  lo ← np_min theta;
  hi ← np_max theta;
  bins ← np_arange lo (fadd hi (Fin 0.1)) (Fin 0.1);
  sum_y ← np_histogram_weights theta bins y;
  sum_y_err ← np_histogram_weights theta bins yerr_prop;
  count ← np_histogram theta bins;
  let rebinned_y := np_where_mean sum_y count in
  let rebinned_y_err := np_where_mean sum_y_err count in
  let bin_centers :=
    zip_with (λ a b, fmul (Fin 0.5) (fadd a b))
             (take (length bins - 1) bins) (tail bins) in
  Some (bin_centers, rebinned_y, rebinned_y_err).

(** [error_propagation_compute(data, minuit_resulting, plot, rebin)],
    without the printing and the plot; [data] is read by the plot only
    and is not an argument here. *)
Definition error_propagation_compute
    (minuit_resulting : MinuitResult) (rebin : bool) : option Propagated :=
  vals ← mapM (λ i, values minuit_resulting !! i) (seq 0 4);
  errs ← mapM (λ i, errors minuit_resulting !! i) (seq 0 4);
  let '(y, ycov) :=
    jacobi_propagate model (values minuit_resulting)
                     (covariance minuit_resulting) in
  let yerr_prop := fsqrt <$> np_diag ycov in
  if rebin then
    r ← rebin_by_theta (theta_of vals) y yerr_prop;
    Some {| params := vals; param_errors := errs; model_values := y;
            model_errors := yerr_prop; rebinned := Some r |}
  else
    Some {| params := vals; param_errors := errs; model_values := y;
            model_errors := yerr_prop; rebinned := None |}.

End Pipeline.

(** ** The peak of the fitted model *)

(** [np.argmin] of a plain array: the index of the first smallest
    element, a [nan] counting as smallest; [ValueError] on an empty
    array. *)
Definition argmin_step (best ix : nat * float64) : nat * float64 :=
  match best.2, ix.2 with
  | NaN, _ => best
  | _, NaN => ix
  | b, x => if flt x b then ix else best
  end.

Definition np_argmin (a : ndarray) : option nat :=
  match a with
  | [] => None
  | x :: a' => Some (foldl argmin_step (0, x) (zip (seq 1 (length a')) a')).1
  end.

(** [characterize_peak(minuit, fit)], without the printing: the pixel
    closest to the fitted centre [(minuit[1], minuit[2])], and the
    distance of that pixel from the origin of the camera frame.  [fit]
    is not read. *)
Definition characterize_peak (camera : CameraGeometry)
    (minuit : list float64) (fit : ndarray) : option float64 :=
  x ← minuit !! 1;
  y ← minuit !! 2;
  let dist_squared :=
    zip_with (λ px py, fadd (fsquare (fsub px x)) (fsquare (fsub py y)))
             (pix_x camera) (pix_y camera) in
  closest_pixel_id ← np_argmin dist_squared;
  closest_x ← pix_x camera !! closest_pixel_id;
  closest_y ← pix_y camera !! closest_pixel_id;
  let distance := fsqrt (fadd (fsquare closest_x) (fsquare closest_y)) in
  Some distance.

(** ** The flat-field coefficient calculators *)

(** [compute_ff_coefs(charges, gains)] as the script calls it, on the
    plain [charge] column (so [np.ma.getmask(charges)] is [nomask] and
    the two [masked_where] calls mask nothing); the plot is left out.
    [out] is the content of the uninitialised output array of
    [np.divide]. *)
Definition relative_signal (out : nat → float64)
    (charges : ndarray) (gains : ndarray2) : option marray :=
  gains0 ← np_column0 gains;
  Some (np_divide_ma_where out (ma_of charges) (ma_of gains0)).

Definition compute_ff_coefs (out : nat → float64)
    (charges : ndarray) (gains : ndarray2) : option marray :=
  rs ← relative_signal out charges gains;
  Some ((λ c, ma_true_divide c (ma_mean rs)) <$> rs).

(** [compute_ff_coefs_model(data, data_std, model, model_std)] as the
    script calls it: [data] is the masked [n_pe], the other three are
    plain arrays.  The plot is left out.  [out] is the content of the
    uninitialised output array of [np.divide]. *)
Definition compute_ff_coefs_model (out : nat → float64)
    (data : marray) (data_std model model_std : ndarray) : marray * marray :=
  let FF_coefs := np_divide_ma_where out data (ma_of model) in
  let std_FF :=
    np_sqrt_ma <$>
      zip_with (ma_binop fadd)
        (ma_of (fsquare <$> zip_with fdiv data_std model))
        (ma_power2 <$>
           zip_with ma_true_divide
             (zip_with (ma_binop fmul) data (ma_of model_std))
             (ma_of (fsquare <$> model))) in
  (FF_coefs, std_FF).

(** ** The main script *)

(** What the first part of the main script leaves in its variables. *)
Record FirstFit : Type := {
  ff_pre : PreProcessed;
  ff_n_pe : nat;
  ff_sigma_masked : nat;
  ff_data_1 : nat;
  ff_fit_1 : ndarray;
  ff_minuit_1 : MinuitResult;
  ff_dict_errors : Propagated
}.

Section Main.

Variable camera : CameraGeometry.
Variable Gaussian_pdf :
  float64 → float64 → float64 → float64 → float64 → float64 → float64.
Variable Minuit_migrad :
  (list float64 → option mcell) → list float64 → list nat → MinuitResult.
Variable jacobi_propagate :
  (list float64 → ndarray) → list float64 → list (list float64) →
  ndarray * list (list float64).

(** What the two output arrays that [np.divide] allocates in the
    flat-field calculators hold before they are written. *)
Variable empty_ff empty_ff_model : nat → float64.

(** Lines 710-741: the normalizer, whose results are bound to the
    module-level names [n_pe], [sigma_masked] and [dict_missing_pix],
    the fit without intrinsic variance on these two arrays, the error
    propagation, and the tally of rejected outliers read from the
    module-level [sigma_masked].  The printed diagnostics, among them
    [characterize_peak], have no effect on these names and are left
    out. *)
Definition main_first_fit (c : GainContainer) : M FirstFit :=
  pre ← lift (pre_process_fits c);
  sigma_masked ← ma_new (pp_sigma_masked pre);
  n_pe ← ma_new (pp_n_pe pre);
  _ ← (λ st, Some ((), PyState (heap st) (pp_dict_missing_pix pre)));
  '(data_1, fit_1, minuit_1, residuals_1) ←
    optimize_with_outlier_rejection camera Gaussian_pdf Minuit_migrad
                                    sigma_masked n_pe;
  dict_errors ←
    lift (error_propagation_compute camera Gaussian_pdf jacobi_propagate
                                    minuit_1 true);
  _ ← tally_rejected_outliers sigma_masked;
  mret {| ff_pre := pre; ff_n_pe := n_pe; ff_sigma_masked := sigma_masked;
          ff_data_1 := data_1; ff_fit_1 := fit_1; ff_minuit_1 := minuit_1;
          ff_dict_errors := dict_errors |}.

(** Lines 753-809: the optional fit with intrinsic variance, seeded
    with the first fit and [v_int = 0.0], then the two flat-field
    calculators.  The log file and the final table are left out. *)
Definition main_script (c : GainContainer) (add_variance : bool)
    : M (FirstFit * option MinuitResult * marray * (marray * marray)) :=
  first ← main_first_fit c;
  let minuit_1 := ff_minuit_1 first in
  variance ←
    (if add_variance then
       '(data_variance, fit_variance, minuit_variance_result, residuals) ←
         optimize_with_outlier_rejection_variance
           camera Gaussian_pdf Minuit_migrad
           (ff_sigma_masked first) (ff_n_pe first)
           [value_at minuit_1 0; value_at minuit_1 1; value_at minuit_1 2;
            value_at minuit_1 3; Fin 0];
       _ ← lift (error_propagation_compute camera Gaussian_pdf jacobi_propagate
                                           minuit_variance_result true);
       mret (Some minuit_variance_result)
     else mret None);
  simple_ff_coefs ←
    lift (compute_ff_coefs empty_ff (pp_charge (ff_pre first))
                           (pp_high_gain (ff_pre first)));
  n_pe_arr ← ma_read (ff_n_pe first);
  let ff_model :=
    compute_ff_coefs_model empty_ff_model n_pe_arr (pp_std_n_pe (ff_pre first))
                           (model_values (ff_dict_errors first))
                           (model_errors (ff_dict_errors first)) in
  mret (first, variance, simple_ff_coefs, ff_model).

End Main.

(** ** The objectives, pixel by pixel and as formulas over the reals *)

(** What one pixel contributes to [LSQ] and to [LS_variance]: the cell
    of the array under [np.sum], from the pixel's cells of [n_pe] and
    [sigma_masked] and its model value [f].  (The objectives are shown
    below to be the [np.sum] of these cells.) *)
Definition LSQ_cell (n s : mcell) (f : float64) : mcell :=
  ma_true_divide (ma_power2 (ma_binop fsub n (unmasked f))) (ma_power2 s).

Definition LS_variance_cell (v_int : float64) (n s : mcell) (f : float64) : mcell :=
  let variance := ma_binop fadd (ma_power2 s) (unmasked v_int) in
  ma_binop fsub
    (ma_true_divide (ma_power2 (ma_binop fsub n (unmasked f))) variance)
    (np_log_ma (ma_true_divide (ma_power2 s) variance)).

(** The real number a finite datum stands for. *)
Definition to_R (x : float64) : R :=
  match x with Fin r => r | _ => 0%R end.

(** The value a cell adds to a sum: nothing when it is masked. *)
Definition cell_value (c : mcell) : R :=
  if mmask c then 0%R else to_R (mdata c).

(** The sum, over the pixels that are masked neither in [n_pe] nor in
    [sigma], of [term n f s], where [n], [s] and [f] are the pixel's
    photoelectron count, its uncertainty and its model value. *)
Definition sum_over_unmasked (term : R → R → R → R)
    (n_pe sigma : marray) (f : ndarray) : R :=
  foldr Rplus 0%R
    ((λ t : mcell * mcell * float64,
        if mmask t.1.1 || mmask t.1.2 then 0%R
        else term (to_R (mdata t.1.1)) (to_R t.2) (to_R (mdata t.1.2)))
       <$> zip (zip n_pe sigma) f).

(** The pixels that count have usable data: a pixel masked neither in
    [n_pe] nor in [sigma] holds finite data, a non-zero uncertainty and
    a finite model value [g]. *)
Definition usable (n_pe sigma : marray) (g : ndarray) : Prop :=
  ∀ i cn cs f,
    n_pe !! i = Some cn → sigma !! i = Some cs → g !! i = Some f →
    mmask cn = false → mmask cs = false →
    ∃ n s m, mdata cn = Fin n ∧ mdata cs = Fin s ∧ f = Fin m ∧ s ≠ 0%R.

(** The population a reduction of a masked array runs over: the values
    of the entries that are not masked; with its sum, its arithmetic
    mean and its variance (the mean of the squared deviations, numpy's
    [ddof = 0]). *)
Definition unmasked_values (a : marray) : list R :=
  (λ c, to_R (mdata c)) <$> filter (λ c, mmask c = false) a.

Definition Rsum (l : list R) : R := foldr Rplus 0%R l.

Definition mean_of (xs : list R) : R := (Rsum xs / INR (length xs))%R.

Definition variance_of (xs : list R) : R :=
  (Rsum ((λ x, (x - mean_of xs) ^ 2) <$> xs) / INR (length xs))%R.

(** Every entry that is not masked holds a finite number. *)
Definition finite_unmasked (a : marray) : Prop :=
  ∀ i c, a !! i = Some c → mmask c = false → isfinite (mdata c) = true.

(** The term of the no-variance objective. *)
Definition lsq_term (n f s : R) : R := ((n - f) ^ 2 / s ^ 2)%R.

(** The term of the with-variance objective in the words of the
    specification, the logarithm added ... *)
Definition variance_term_spec (v n f s : R) : R :=
  ((n - f) ^ 2 / (s ^ 2 + v) + ln (s ^ 2 / (s ^ 2 + v)))%R.

(** ... and as [LS_variance] and [LSQ_wrap_var] compute it, the
    logarithm subtracted. *)
Definition variance_term_code (v n f s : R) : R :=
  ((n - f) ^ 2 / (s ^ 2 + v) - ln (s ^ 2 / (s ^ 2 + v)))%R.

(** The two parts of that term: the squared residual over the
    enlarged variance, and the logarithm, which is that of
    [1 + v / s ^ 2]. *)
Definition variance_residual_term (v n f s : R) : R :=
  ((n - f) ^ 2 / (s ^ 2 + v))%R.

Definition variance_penalty_term (v n f s : R) : R := ln (1 + v / s ^ 2).

(** ** Concrete collaborators for the examples *)

(** The density of ctapipe's toy-model [Gaussian(x, y, length, width,
    psi="0d")] at [(px, py)]: a bivariate normal density with diagonal
    covariance, defined for positive standard deviations. *)
Definition Gaussian2D_pdf (x y length width px py : float64) : float64 :=
  match x, y, length, width, px, py with
  | Fin x, Fin y, Fin l, Fin w, Fin px, Fin py =>
      if bool_decide (0 < l)%R && bool_decide (0 < w)%R then
        Fin (/ (2 * PI * l * w)
             * exp (- ((px - x) ^ 2 / (2 * l ^ 2) + (py - y) ^ 2 / (2 * w ^ 2))))
      else NaN
  | _, _, _, _, _, _ => NaN
  end.

(** A camera of a single pixel at the origin. *)
Definition one_pixel_camera : CameraGeometry :=
  {| pix_x := [Fin 0]; pix_y := [Fin 0] |}.

(** A masked array of finite data with no entry masked. *)
Definition fin_cells (xs : list R) : marray :=
  (λ x, MCell (Fin x) false) <$> xs.

(** Ten photoelectron counts, one of them exactly three standard
    deviations above the mean (mean 1, standard deviation 3), and eleven
    counts, one of them beyond (mean 1, standard deviation [sqrt 10]). *)
Definition ten_counts : list R := [10; 0; 0; 0; 0; 0; 0; 0; 0; 0]%R.
Definition eleven_counts : list R := [11; 0; 0; 0; 0; 0; 0; 0; 0; 0; 0]%R.

(** A store holding an uncertainty array at location 0 and a data array
    at location 1. *)
Definition store_of (sigma_arr data_arr : marray) : pystate :=
  PyState (<[1%nat := data_arr]> (<[0%nat := sigma_arr]> ∅)) ∅.

(** Three pixels for the flat-field calculators: charges 2, 4 and 5
    with gains 1, 1 and 0. *)
Definition three_charges : ndarray := [Fin 2; Fin 4; Fin 5].
Definition three_gains : ndarray2 := NdArray2 1 [[Fin 1]; [Fin 1]; [Fin 0]].





(** The bin edges of the two-pixel example:
    [np.arange(0, 0.25 + 0.1, 0.1)]. *)
Definition two_pixel_bins : ndarray :=
  [Fin (0 + INR 0 * 0.1); Fin (0 + INR 1 * 0.1); Fin (0 + INR 2 * 0.1);
   Fin (0 + INR 3 * 0.1)].


(** Three pixels on a line, at 0, 1 and 2 metres from the origin. *)
Definition three_pixel_camera : CameraGeometry :=
  {| pix_x := [Fin 0; Fin 1; Fin 2]; pix_y := [Fin 0; Fin 0; Fin 0] |}.

(** Collaborators for a run of the main script: a camera whose pixels
    all sit at the origin, a minimizer that returns its seed with unit
    errors, and a propagation that evaluates the model at the parameter
    values and reports unit variances. *)
Definition origin_camera : CameraGeometry :=
  {| pix_x := replicate total_pixels (Fin 0);
     pix_y := replicate total_pixels (Fin 0) |}.

Definition seed_minuit
    (fcn : list float64 → option mcell) (start : list float64) (limits : list nat)
    : MinuitResult :=
  {| values := start;
     errors := (λ _, Fin 1) <$> start;
     covariance := [];
     fmin_is_valid := true |}.

Definition unit_propagate
    (fn : list float64 → ndarray) (x : list float64) (cov : list (list float64))
    : ndarray * list (list float64) :=
  (fn x, replicate (length (fn x)) (replicate (length (fn x)) (Fin 1))).

(** ** Tactics *)

(** Decides the comparisons of real literals left in a goal. *)
Ltac real_decide :=
  repeat match goal with
    | |- context [bool_decide ?P] =>
        first [ rewrite (bool_decide_eq_true_2 P) by (simpl; lra)
              | rewrite (bool_decide_eq_false_2 P) by (simpl; lra) ]
    end.


(** * Proofs *)

(** ** Sorting by pixel id *)

Lemma key_le_trans : Transitive key_le.
Proof. intros x y z. unfold key_le. lia. Qed.

Lemma key_le_total : Total key_le.
Proof. intros x y. unfold key_le. lia. Qed.

#[local] Existing Instance key_le_trans.
#[local] Existing Instance key_le_total.

Lemma StronglySorted_le_seq (a n : nat) : StronglySorted le (seq a n).
Proof.
  revert a. induction n as [|n IH]; intros a; simpl; constructor; [apply IH|].
  apply Forall_forall. intros x Hx. apply elem_of_seq in Hx. lia.
Qed.

Lemma argsort_pairs (merged : list nat) :
  let S := merge_sort key_le (zip merged (seq 0 (length merged))) in
  S.*1 ≡ₚ merged ∧
  StronglySorted le S.*1 ∧
  length S = length merged ∧
  ∀ j k i, S !! j = Some (k, i) → merged !! i = Some k.
Proof.
  intros S.
  assert (HS : S ≡ₚ zip merged (seq 0 (length merged)))
    by apply merge_sort_Permutation.
  split_and!.
  - rewrite HS. rewrite fst_zip; [done|]. rewrite length_seq. lia.
  - apply StronglySorted_fmap with (R1 := key_le); [done|].
    apply (StronglySorted_merge_sort key_le).
  - rewrite HS. rewrite length_zip_with, length_seq. lia.
  - intros j k i Hj.
    assert (Hin : (k, i) ∈ zip merged (seq 0 (length merged))).
    { rewrite <- HS. by eapply list_elem_of_lookup_2. }
    apply list_elem_of_lookup in Hin as [j' Hj'].
    apply lookup_zip_Some in Hj' as [Hk Hi].
    apply lookup_seq in Hi as [-> _]. done.
Qed.

(** Fancy indexing with the argsort of a duplicate-free permutation of
    [0..n-1]: cell [p] of the result is the cell of the column that sat
    at the place of key [p]. *)
Lemma np_take_argsort {A : Type} (merged : list nat) (col : list A) (n : nat) :
  NoDup merged → merged ≡ₚ seq 0 n → length col = length merged →
  ∃ out, np_take col (np_argsort merged) = Some out ∧ length out = n ∧
         ∀ p i, merged !! i = Some p → out !! p = col !! i.
Proof.
  intros Hnd Hperm Hlen. unfold np_take, np_argsort.
  destruct (argsort_pairs merged) as (H1 & Hsorted & HlenS & Hpairs).
  set (S := merge_sort key_le (zip merged (seq 0 (length merged)))) in *.
  assert (Hn : length merged = n) by (rewrite Hperm; apply length_seq).
  assert (Hkeys : S.*1 = seq 0 n).
  { apply (StronglySorted_unique le); [done|apply StronglySorted_le_seq|].
    by rewrite H1. }
  assert (Hsome : is_Some (mapM (λ i, col !! i) S.*2)).
  { apply mapM_is_Some_2, Forall_forall. intros i Hi.
    apply list_elem_of_fmap in Hi as [[k i'] [-> Hki]].
    apply list_elem_of_lookup in Hki as [j Hj].
    apply Hpairs in Hj. apply lookup_lt_is_Some. rewrite Hlen.
    by eapply lookup_lt_Some. }
  destruct Hsome as [out Hout]. exists out. split; [done|].
  pose proof (mapM_Some_1 _ _ _ Hout) as HF.
  split.
  - rewrite <- (Forall2_length _ _ _ HF), length_fmap. lia.
  - intros p i Hi.
    assert (Hp : p < n).
    { assert (p ∈ seq 0 n) as Hin
        by (rewrite <- Hperm; by eapply list_elem_of_lookup_2).
      apply elem_of_seq in Hin. lia. }
    assert (Hfst : S.*1 !! p = Some p) by (rewrite Hkeys; by apply lookup_seq).
    rewrite list_lookup_fmap in Hfst.
    destruct (S !! p) as [[k i']|] eqn:HSp; simplify_eq/=.
    pose proof (Hpairs _ _ _ HSp) as Hi'.
    assert (i = i') as <- by (by eapply NoDup_lookup).
    assert (Hsnd : S.*2 !! p = Some i) by (by rewrite list_lookup_fmap, HSp).
    destruct (Forall2_lookup_l _ _ _ _ _ HF Hsnd) as (y & Hy & Hcol).
    by rewrite Hy, Hcol.
Qed.

(** ** The merge of the missing pixels *)

Lemma total_pixels_val : total_pixels = 1855.
Proof. reflexivity. Qed.

#[local] Opaque total_pixels.

Section merge.
Variable ids : list nat.
Hypothesis Hnd : NoDup ids.
Hypothesis Hrange : Forall (λ p, p < total_pixels) ids.

Local Abbreviation missing := (np_setdiff1d_arange total_pixels ids).

Lemma elem_of_missing p : p ∈ missing ↔ p < total_pixels ∧ p ∉ ids.
Proof.
  unfold np_setdiff1d_arange.
  rewrite list_elem_of_filter, elem_of_seq. intuition lia.
Qed.

Lemma merged_NoDup : NoDup (ids ++ missing).
Proof.
  apply NoDup_app. split_and!; [done| |].
  - intros p Hp Hm. apply elem_of_missing in Hm. tauto.
  - apply NoDup_filter, NoDup_seq.
Qed.

Lemma merged_Permutation : ids ++ missing ≡ₚ seq 0 total_pixels.
Proof.
  apply NoDup_Permutation; [apply merged_NoDup|apply NoDup_seq|].
  intros p. rewrite elem_of_app, elem_of_missing, elem_of_seq.
  rewrite Forall_forall in Hrange. split.
  - intros [Hp|[Hp _]]; [apply Hrange in Hp|]; lia.
  - intros [_ Hp]. destruct (decide (p ∈ ids)); [by left|right]. split; [lia|done].
Qed.

Lemma merged_length : length (ids ++ missing) = total_pixels.
Proof. rewrite merged_Permutation. apply length_seq. Qed.

(** One merged and sorted column: the present pixels keep their
    entry, the missing ones get the zero entry [z]. *)
Lemma merged_column {A : Type} (col : list A) (z : A) :
  length col = length ids →
  ∃ out,
    np_take (col ++ replicate (length missing) z) (np_argsort (ids ++ missing))
      = Some out ∧
    length out = total_pixels ∧
    (∀ i p, ids !! i = Some p → out !! p = col !! i) ∧
    (∀ p, p < total_pixels → p ∉ ids → out !! p = Some z).
Proof.
  intros Hlen.
  destruct (np_take_argsort (ids ++ missing)
              (col ++ replicate (length missing) z) total_pixels)
    as (out & Hout & Hlen' & Hlook).
  { apply merged_NoDup. }
  { apply merged_Permutation. }
  { rewrite !length_app, length_replicate. lia. }
  exists out. split_and!; [done..| |].
  - intros i p Hi.
    rewrite (Hlook p i) by (by apply lookup_app_l_Some).
    apply lookup_app_l. rewrite Hlen. by eapply lookup_lt_Some.
  - intros p Hp Hnotin.
    assert (Hm : p ∈ missing) by (by apply elem_of_missing).
    apply list_elem_of_lookup in Hm as [j Hj].
    rewrite (Hlook p (length ids + j)).
    + rewrite lookup_app_r by lia.
      replace (length ids + j - length col) with j by lia.
      apply lookup_replicate_2. by eapply lookup_lt_Some.
    + rewrite lookup_app_r by lia.
      by replace (length ids + j - length ids) with j by lia.
Qed.

Lemma merged_ids :
  np_take (ids ++ missing) (np_argsort (ids ++ missing)) = Some (seq 0 total_pixels).
Proof.
  destruct (np_take_argsort (ids ++ missing) (ids ++ missing) total_pixels)
    as (out & Hout & Hlen' & Hlook);
    [apply merged_NoDup|apply merged_Permutation|done|].
  rewrite Hout. f_equal. apply list_eq. intros p.
  destruct (decide (p < total_pixels)) as [Hp|Hp].
  - rewrite (lookup_seq_lt _ _ _ Hp). simpl.
    assert (Hin : p ∈ ids ++ missing).
    { rewrite merged_Permutation. apply elem_of_seq. lia. }
    apply list_elem_of_lookup in Hin as [i Hi].
    by rewrite (Hlook p i Hi).
  - rewrite lookup_seq_ge by lia. apply lookup_ge_None. lia.
Qed.
End merge.

(** Lines 125-183 on a sparse input: the merge succeeds; the pixel ids
    come out as [0, 1, ..., total_pixels - 1]; every column has
    [total_pixels] entries; a present pixel keeps its input entries (its
    [charge_std] being its [charge]) and a missing one gets zeros of the
    input's widths. *)
Lemma merge_missing_pixels_spec (c : GainContainer) :
  sparse_input c →
  ∃ cd,
    merge_missing_pixels c
      = Some (cd, np_setdiff1d_arange total_pixels (pixels_id c)) ∧
    pixels_id cd = seq 0 total_pixels ∧
    shape1 (high_gain cd) = shape1 (high_gain c) ∧
    shape1 (low_gain cd) = shape1 (low_gain c) ∧
    length (rows2 (high_gain cd)) = total_pixels ∧
    length (rows2 (low_gain cd)) = total_pixels ∧
    length (charge cd) = total_pixels ∧
    length (charge_std cd) = total_pixels ∧
    charge_std cd = charge cd ∧
    (∀ i p, pixels_id c !! i = Some p →
       rows2 (high_gain cd) !! p = rows2 (high_gain c) !! i ∧
       rows2 (low_gain cd) !! p = rows2 (low_gain c) !! i ∧
       charge cd !! p = charge c !! i ∧
       charge_std cd !! p = charge c !! i) ∧
    (∀ p, p < total_pixels → p ∉ pixels_id c →
       rows2 (high_gain cd) !! p = Some (replicate (shape1 (high_gain c)) fzero) ∧
       rows2 (low_gain cd) !! p = Some (replicate (shape1 (low_gain c)) fzero) ∧
       charge cd !! p = Some fzero ∧
       charge_std cd !! p = Some fzero).
Proof.
  intros [Hnd Hrange Hhg Hlg Hch Hchs Hhgw Hlgw Hhg0].
  unfold merge_missing_pixels.
  pose proof (merged_ids _ Hnd Hrange) as Hids.
  destruct (merged_column _ Hnd Hrange (rows2 (high_gain c))
              (replicate (shape1 (high_gain c)) fzero) Hhg)
    as (hg & Ehg & Hhg1 & Hhg2 & Hhg3).
  destruct (merged_column _ Hnd Hrange (rows2 (low_gain c))
              (replicate (shape1 (low_gain c)) fzero) Hlg)
    as (lg & Elg & Hlg1 & Hlg2 & Hlg3).
  destruct (merged_column _ Hnd Hrange (charge c) fzero Hch)
    as (ch & Ech & Hch1 & Hch2 & Hch3).
  exists {| pixels_id := seq 0 total_pixels;
            high_gain := NdArray2 (shape1 (high_gain c)) hg;
            low_gain := NdArray2 (shape1 (low_gain c)) lg;
            charge := ch; charge_std := ch; is_valid := is_valid c |}.
  split.
  - unfold np_concatenate2, np_zeros2, np_take2. cbn [shape1 rows2].
    rewrite !decide_True by done. cbn [mbind option_bind shape1 rows2].
    rewrite Hids, Ehg, Elg, Ech. reflexivity.
  - cbn [pixels_id high_gain low_gain charge charge_std shape1 rows2].
    split_and!; try done.
    + intros i p Hi. split_and!; eauto.
    + intros p Hp Hnotin. split_and!; eauto.
Qed.

(** ** Masked-array constructors and counts *)

Lemma ma_masked_array_same_length (x : marray) (m : list bool) :
  length m = length x →
  ma_masked_array x m = Some (zip_with (λ c b, MCell (mdata c) (b || mmask c)) x m).
Proof.
  intros Hlen. unfold ma_masked_array.
  destruct m as [|b [|b' m]].
  - by rewrite decide_True.
  - destruct x as [|c [|c' x]]; simplify_eq/=. done.
  - by rewrite decide_True.
Qed.

Lemma ma_masked_array_length (x y : marray) (m : list bool) :
  ma_masked_array x m = Some y → length y = length x.
Proof.
  unfold ma_masked_array. intros H.
  destruct m as [|b [|b' m]].
  - case_decide as Hl; [|done]. injection H as <-.
    rewrite length_zip_with, <- Hl. lia.
  - injection H as <-. by rewrite length_fmap.
  - case_decide as Hl; [|done]. injection H as <-.
    rewrite length_zip_with, <- Hl. lia.
Qed.

Lemma ma_count_total (a : marray) :
  ma_count a + ma_count_masked a = length a.
Proof.
  unfold ma_count, ma_count_masked.
  induction a as [|c a IH]; [done|].
  rewrite !filter_cons. destruct c as [d []]; simpl;
    repeat case_decide; simplify_eq/=; lia.
Qed.

Lemma np_column0_spec (a : ndarray2) :
  Forall (λ r, 0 < length r) (rows2 a) →
  ∃ col, np_column0 a = Some col ∧ length col = length (rows2 a) ∧
         ∀ p row, rows2 a !! p = Some row → col !! p = row !! 0.
Proof.
  intros Hw. unfold np_column0.
  assert (Hsome : is_Some (mapM (λ row : list float64, row !! 0) (rows2 a))).
  { apply mapM_is_Some_2. eapply Forall_impl; [exact Hw|].
    intros r Hr. by apply lookup_lt_is_Some. }
  destruct Hsome as [col Hcol]. exists col. split; [done|].
  pose proof (mapM_Some_1 _ _ _ Hcol) as HF. split.
  - symmetry. by eapply Forall2_length.
  - intros p row Hp.
    destruct (Forall2_lookup_l _ _ _ _ _ HF Hp) as (y & Hy & Hrow).
    by rewrite Hy, Hrow.
Qed.

Lemma np_divide_where_length (num den : ndarray) (cond : list bool) :
  length num = length den → length cond = length den →
  length (np_divide_where num den cond) = length den.
Proof.
  intros H1 H2. unfold np_divide_where.
  rewrite length_zip_with, length_zip_with. lia.
Qed.

Lemma np_divide_where_lookup (num den : ndarray) (cond : list bool)
    (p : nat) (x y : float64) (w : bool) :
  num !! p = Some x → den !! p = Some y → cond !! p = Some w →
  np_divide_where num den cond !! p = Some (if w then fdiv x y else fzero).
Proof.
  intros Hx Hy Hw. unfold np_divide_where.
  rewrite lookup_zip_with.
  assert (zip num den !! p = Some (x, y)) as -> by (by apply lookup_zip_Some).
  simpl. by rewrite Hw.
Qed.

Lemma ma_masked_array_of (a : ndarray) (f : float64 → bool) :
  ma_masked_array (ma_of a) (f <$> a) = Some ((λ x, MCell x (f x)) <$> a).
Proof.
  rewrite ma_masked_array_same_length
    by (unfold ma_of; by rewrite !length_fmap).
  f_equal. unfold ma_of.
  rewrite zip_with_fmap_l, zip_with_fmap_r, zip_with_diag.
  apply list_fmap_ext. intros i x _. simpl. by rewrite orb_false_r.
Qed.

Lemma ma_count_masked_of (a : ndarray) (f : float64 → bool) :
  ma_count_masked ((λ x, MCell x (f x)) <$> a)
    = length (filter (λ x, f x = true) a).
Proof.
  unfold ma_count_masked. induction a as [|x a IH]; [done|].
  rewrite fmap_cons, !filter_cons. simpl.
  destruct (f x); repeat case_decide; simplify_eq/=; lia.
Qed.

(** ** The Normalizer on a sparse input *)

Lemma pre_process_fits_spec (c : GainContainer) :
  sparse_input c →
  ∃ cd pre hg0,
    merge_missing_pixels c
      = Some (cd, np_setdiff1d_arange total_pixels (pixels_id c)) ∧
    np_column0 (high_gain cd) = Some hg0 ∧
    pre_process_fits c = Some pre ∧
    length hg0 = total_pixels ∧
    (∀ p row, rows2 (high_gain cd) !! p = Some row → hg0 !! p = row !! 0) ∧
    length (pp_std_n_pe pre) = total_pixels ∧
    length (pp_n_pe pre) = total_pixels ∧
    pp_charge pre = charge cd ∧
    pp_high_gain pre = high_gain cd ∧
    pp_low_gain pre = low_gain cd ∧
    pp_dict_missing_pix pre =
      <["high_gain = 0" :=
          (Z.of_nat (length (filter (λ g, fle g fzero = true) hg0))
           - Z.of_nat (length (np_setdiff1d_arange total_pixels (pixels_id c))))%Z]>
        (<["Missing pixels" :=
             Z.of_nat (length (np_setdiff1d_arange total_pixels (pixels_id c)))]> ∅) ∧
    pp_sigma_masked pre = (λ s, MCell s (feq s fzero)) <$> pp_std_n_pe pre ∧
    (∀ p g ch, hg0 !! p = Some g → charge cd !! p = Some ch →
       let n := if fgt g fzero then fdiv ch g else fzero in
       let s := fsqrt (if fne g fzero then fdiv (fmul ch n) ch else fzero) in
       pp_std_n_pe pre !! p = Some s ∧
       pp_n_pe pre !! p = Some (MCell n (feq s fzero))).
Proof.
  intros Hc.
  destruct (merge_missing_pixels_spec c Hc)
    as (cd & Hmerge & Hids & Hw1 & Hw2 & Hl1 & Hl2 & Hl3 & Hl4 & Hstd & Hpres & Hmiss).
  destruct Hc as [Hnd Hrange Hhg Hlg Hch Hchs Hhgw Hlgw Hhg0].
  destruct (np_column0_spec (high_gain cd)) as (hg0 & Hcol & Hlen0 & Hhg0look).
  { apply Forall_lookup. intros p row Hrow.
    assert (Hp : p < total_pixels) by (rewrite <- Hl1; by eapply lookup_lt_Some).
    destruct (decide (p ∈ pixels_id c)) as [Hin|Hnotin].
    - apply list_elem_of_lookup in Hin as [i Hi].
      destruct (Hpres i p Hi) as (Hr & _). rewrite Hr in Hrow.
      rewrite Forall_lookup in Hhgw. rewrite (Hhgw _ _ Hrow). done.
    - destruct (Hmiss p Hp Hnotin) as (Hr & _). rewrite Hr in Hrow.
      simplify_eq. by rewrite length_replicate. }
  unfold pre_process_fits. rewrite Hmerge. cbn [mbind option_bind].
  rewrite Hcol. cbn [mbind option_bind].
  rewrite !ma_masked_array_of. cbn [mbind option_bind].
  rewrite Hstd.
  set (n_pe := np_divide_where (charge cd) hg0 ((λ g, fgt g fzero) <$> hg0)).
  set (std := fsqrt <$> np_divide_where (zip_with fmul (charge cd) n_pe) (charge cd)
                          ((λ g, fne g fzero) <$> hg0)).
  assert (Hlen0' : length hg0 = total_pixels) by (by rewrite Hlen0).
  assert (Hn_len : length n_pe = total_pixels).
  { unfold n_pe. rewrite np_divide_where_length; rewrite ?length_fmap; lia. }
  assert (Hs_len : length std = total_pixels).
  { unfold std. rewrite length_fmap, np_divide_where_length;
      rewrite ?length_zip_with, ?length_fmap; lia. }
  rewrite ma_masked_array_same_length
    by (unfold ma_of; rewrite !length_fmap; lia).
  cbn [mbind option_bind].
  eexists cd, _, hg0. split_and!; try reflexivity; try done.
  - cbn [pp_n_pe]. unfold ma_of. rewrite length_zip_with, !length_fmap. lia.
  - cbn [pp_dict_missing_pix].
    by rewrite (ma_count_masked_of hg0 (λ a, fle a fzero)).
  - intros p g ch Hg Hch0. cbn [pp_std_n_pe pp_n_pe].
    assert (Hn : n_pe !! p = Some (if fgt g fzero then fdiv ch g else fzero)).
    { unfold n_pe. apply np_divide_where_lookup; [done..|].
      by rewrite list_lookup_fmap, Hg. }
    assert (Hs : std !! p = Some (fsqrt (if fne g fzero
                 then fdiv (fmul ch (if fgt g fzero then fdiv ch g else fzero)) ch
                 else fzero))).
    { unfold std. rewrite list_lookup_fmap.
      erewrite np_divide_where_lookup; [reflexivity| |done|].
      - by rewrite lookup_zip_with, Hch0, Hn.
      - by rewrite list_lookup_fmap, Hg. }
    split; [done|].
    rewrite lookup_zip_with. unfold ma_of. rewrite !list_lookup_fmap, Hn, Hs.
    simpl. by rewrite orb_false_r.
Qed.


(** ** Evaluating IEEE operations on finite values *)

Lemma fdiv_fin (a b : R) : b ≠ 0%R → fdiv (Fin a) (Fin b) = Fin (a / b).
Proof. intros Hb. unfold fdiv. by rewrite bool_decide_eq_false_2. Qed.

Lemma fdiv_zero_zero : fdiv (Fin 0) (Fin 0) = NaN.
Proof. unfold fdiv. by rewrite !bool_decide_eq_true_2. Qed.

Lemma fsqrt_fin (a : R) : (0 <= a)%R → fsqrt (Fin a) = Fin (sqrt a).
Proof. intros Ha. unfold fsqrt. rewrite bool_decide_eq_false_2; [done|lra]. Qed.

Lemma flog_fin (a : R) : (0 < a)%R → flog (Fin a) = Fin (ln a).
Proof.
  intros Ha. unfold flog. rewrite !bool_decide_eq_false_2; [done|lra..].
Qed.

Lemma fle_fin (a b : R) : fle (Fin a) (Fin b) = bool_decide (a <= b)%R.
Proof.
  unfold fle, flt, feq. repeat case_bool_decide; simpl; try done; lra.
Qed.

Lemma fgt_fin (a b : R) : fgt (Fin a) (Fin b) = bool_decide (b < a)%R.
Proof. done. Qed.

Lemma feq_fin (a b : R) : feq (Fin a) (Fin b) = bool_decide (a = b).
Proof. done. Qed.

Lemma fle_fgt (g : float64) : fle g fzero = true → fgt g fzero = false.
Proof.
  destruct g as [r| | |]; try done. unfold fzero.
  rewrite fle_fin, fgt_fin. intros H%bool_decide_eq_true.
  apply bool_decide_eq_false. lra.
Qed.

Lemma one_pixel_sparse (g ch chs : R) : sparse_input (one_pixel g ch chs).
Proof.
  split; simpl; try done.
  - apply NoDup_singleton.
  - repeat constructor. rewrite total_pixels_val. lia.
  - by repeat constructor.
  - by repeat constructor.
  - lia.
Qed.

(** The Normalizer on a one-pixel input, at pixel 0. *)
Lemma pre_process_fits_one_pixel (g ch chs : R) :
  let n := if fgt (Fin g) fzero then fdiv (Fin ch) (Fin g) else fzero in
  let s := fsqrt (if fne (Fin g) fzero then fdiv (fmul (Fin ch) n) (Fin ch) else fzero) in
  ∃ pre, pre_process_fits (one_pixel g ch chs) = Some pre ∧
         pp_std_n_pe pre !! 0 = Some s ∧
         pp_n_pe pre !! 0 = Some (MCell n (feq s fzero)) ∧
         pp_sigma_masked pre !! 0 = Some (MCell s (feq s fzero)).
Proof.
  intros n s.
  destruct (pre_process_fits_spec _ (one_pixel_sparse g ch chs))
    as (cd & pre & hg0 & Hmerge & Hcol & Hpre & Hlen & Hhg0 & Hslen & Hnlen & Hch & Hhg
        & Hlg & Hdict & Hsig & Hpix).
  destruct (merge_missing_pixels_spec _ (one_pixel_sparse g ch chs))
    as (cd' & Hmerge' & _ & _ & _ & _ & _ & _ & _ & _ & Hpres & _).
  rewrite Hmerge in Hmerge'. injection Hmerge' as <-.
  destruct (Hpres 0 0 eq_refl) as (Hrow & _ & Hcharge & _). simpl in Hrow, Hcharge.
  destruct (Hpix 0 (Fin g) (Fin ch)) as [H1 H2]; [|done|].
  { by rewrite (Hhg0 0 _ Hrow). }
  exists pre. split_and!; [done..|].
  rewrite Hsig, list_lookup_fmap. fold n s in H1. by rewrite H1.
Qed.

Lemma sqrt_4 : sqrt 4 = 2%R.
Proof. replace 4%R with (2 * 2)%R by lra. apply sqrt_square. lra. Qed.

(** The Normalizer never reads the input's [charge_std] column. *)
Lemma pre_process_fits_ignores_charge_std (c : GainContainer) (other : ndarray) :
  pre_process_fits
    {| pixels_id := pixels_id c; high_gain := high_gain c; low_gain := low_gain c;
       charge := charge c; charge_std := other; is_valid := is_valid c |}
  = pre_process_fits c.
Proof. reflexivity. Qed.

(** On a sparse input, a pixel whose gain is not positive gets
    [n_pe = 0]; its [std_n_pe] is 0, and the pixel masked, when the gain
    is exactly 0 (the division is skipped) or the charge is a finite
    non-zero number (the division is done and yields [0 / charge]). *)
Lemma nonpositive_gain_pixel (c : GainContainer) :
  sparse_input c →
  ∃ cd pre hg0,
    merge_missing_pixels c
      = Some (cd, np_setdiff1d_arange total_pixels (pixels_id c)) ∧
    np_column0 (high_gain cd) = Some hg0 ∧
    pre_process_fits c = Some pre ∧
    ∀ p g ch, hg0 !! p = Some g → charge cd !! p = Some (Fin ch) →
      fle g fzero = true →
      mdata <$> pp_n_pe pre !! p = Some fzero ∧
      (g = fzero ∨ ch ≠ 0%R →
       pp_std_n_pe pre !! p = Some fzero ∧
       pp_n_pe pre !! p = Some (MCell fzero true) ∧
       pp_sigma_masked pre !! p = Some (MCell fzero true)).
Proof.
  intros Hc.
  destruct (pre_process_fits_spec c Hc)
    as (cd & pre & hg0 & Hmerge & Hcol & Hpre & Hlen & Hhg0 & Hslen & Hnlen & Hch & Hhg
        & Hlg & Hdict & Hsig & Hpix).
  exists cd, pre, hg0. split_and!; [done..|].
  intros p g ch Hg Hcharge Hle.
  destruct (Hpix p g (Fin ch) Hg Hcharge) as [Hs Hn].
  rewrite (fle_fgt g Hle) in Hs, Hn. split.
  - by rewrite Hn.
  - intros Hcase.
    assert (Hzero : fsqrt (if fne g fzero then fdiv (fmul (Fin ch) fzero) (Fin ch)
                           else fzero) = fzero).
    { unfold fzero. destruct (fne g (Fin 0)) eqn:Hne.
      - assert (ch ≠ 0%R) as Hch0.
        { destruct Hcase as [->|]; [|done]. unfold fne, fzero in Hne. simpl in Hne.
          by rewrite bool_decide_eq_true_2 in Hne. }
        change (fmul (Fin ch) (Fin 0)) with (Fin (ch * 0)).
        rewrite fdiv_fin by done.
        replace (ch * 0 / ch)%R with 0%R by (field; done).
        rewrite fsqrt_fin by lra. by rewrite sqrt_0.
      - rewrite fsqrt_fin by lra. by rewrite sqrt_0. }
    rewrite Hzero in Hs, Hn. change (feq fzero fzero) with (bool_decide (0 = 0)%R) in Hn.
    rewrite bool_decide_eq_true_2 in Hn by done.
    split_and!; [done..|].
    rewrite Hsig, list_lookup_fmap, Hs. simpl.
    by rewrite bool_decide_eq_true_2.
Qed.

(** C2 (code defect).  The claim: for a present pixel,
    [std_n_pe = sqrt(charge_std * n_pe / charge)] with the input's
    charge spread, so that it differs from [sqrt(n_pe)] when
    [charge_std] differs from [charge].  The code: [merged_charge_std]
    is built from [charge] (lines 173-175).  For the one-pixel input with
    gain 2, charge 8 and charge spread 2 the Normalizer returns
    [n_pe = 4] and [std_n_pe = 2 = sqrt(n_pe)], where the claimed formula
    gives [sqrt(2 * 4 / 8) = 1]. *)
Theorem C2_std_n_pe_uses_charge_for_charge_std :
  ∃ pre, pre_process_fits (one_pixel 2 8 2) = Some pre ∧
         pp_n_pe pre !! 0 = Some (MCell (Fin 4) false) ∧
         pp_std_n_pe pre !! 0 = Some (Fin 2) ∧
         fsqrt (Fin 4) = Fin 2 ∧
         fsqrt (fdiv (fmul (Fin 2) (Fin 4)) (Fin 8)) = Fin 1.
Proof.
  destruct (pre_process_fits_one_pixel 2 8 2) as (pre & Hpre & Hs & Hn & _).
  assert (Hn4 : (if fgt (Fin 2) fzero then fdiv (Fin 8) (Fin 2) else fzero) = Fin 4).
  { unfold fzero. rewrite fgt_fin, bool_decide_eq_true_2 by lra.
    rewrite fdiv_fin by lra. f_equal. lra. }
  assert (Hs2 : fsqrt (if fne (Fin 2) fzero then fdiv (fmul (Fin 8) (Fin 4)) (Fin 8)
                       else fzero) = Fin 2).
  { unfold fne, fzero. rewrite feq_fin, bool_decide_eq_false_2 by lra. simpl negb.
    cbn iota. simpl fmul. rewrite fdiv_fin by lra.
    replace (8 * 4 / 8)%R with 4%R by lra.
    rewrite fsqrt_fin by lra. by rewrite sqrt_4. }
  rewrite Hn4 in Hs, Hn. rewrite Hs2 in Hs, Hn.
  exists pre. split_and!; [done|..|done| |].
  - rewrite Hn. do 2 f_equal. unfold fzero. rewrite feq_fin.
    apply bool_decide_eq_false. lra.
  - rewrite fsqrt_fin by lra. by rewrite sqrt_4.
  - simpl fmul. rewrite fdiv_fin by lra.
    replace (2 * 4 / 8)%R with 1%R by lra.
    rewrite fsqrt_fin by lra. by rewrite sqrt_1.
Qed.

(** C3 (code defect).  The claim: every pixel with [high_gain <= 0] gets
    [n_pe = 0], [std_n_pe = 0] and is masked, both divisions being
    skipped, whatever the charge.  The code guards the second division
    with [high_gain != 0] (line 199): for a negative gain it divides
    [charge_std * n_pe] by [charge].  For the one-pixel input with gain
    -1 and charge 0 this is [0 / 0]: [std_n_pe] is [nan] and the pixel
    is not masked. *)
Theorem C3_negative_gain_zero_charge_is_nan :
  fle (Fin (-1)) fzero = true ∧
  ∃ pre, pre_process_fits (one_pixel (-1) 0 0) = Some pre ∧
         pp_n_pe pre !! 0 = Some (MCell (Fin 0) false) ∧
         pp_std_n_pe pre !! 0 = Some NaN ∧
         pp_sigma_masked pre !! 0 = Some (MCell NaN false).
Proof.
  split.
  { unfold fzero. rewrite fle_fin. apply bool_decide_eq_true. lra. }
  destruct (pre_process_fits_one_pixel (-1) 0 0) as (pre & Hpre & Hs & Hn & Hsig).
  assert (Hn0 : (if fgt (Fin (-1)) fzero then fdiv (Fin 0) (Fin (-1)) else fzero)
                = Fin 0).
  { unfold fzero. rewrite fgt_fin, bool_decide_eq_false_2 by lra. done. }
  assert (Hs0 : fsqrt (if fne (Fin (-1)) fzero then fdiv (fmul (Fin 0) (Fin 0)) (Fin 0)
                       else fzero) = NaN).
  { unfold fne, fzero. rewrite feq_fin, bool_decide_eq_false_2 by lra. simpl negb.
    cbn iota. simpl fmul. rewrite Rmult_0_l, fdiv_zero_zero. done. }
  rewrite Hn0 in Hs, Hn, Hsig. rewrite Hs0 in Hs, Hn, Hsig.
  exists pre. split_and!; done.
Qed.

Lemma StronglySorted_lt_seq (a n : nat) : StronglySorted lt (seq a n).
Proof.
  revert a. induction n as [|n IH]; intros a; simpl; constructor; [apply IH|].
  apply Forall_forall. intros x Hx. apply elem_of_seq in Hx. lia.
Qed.

(** C5.  For every sparse input (distinct pixel ids drawn from
    [0, 1855), one entry of each column per id) the Normalizer succeeds
    and its merged output has exactly 1855 records, in every column and
    in every derived array; the pixel ids are [0, 1, ..., 1854], hence
    strictly increasing and free of duplicates; the gain columns keep
    the input's widths; and the record of an id absent from the input
    has zero gains of these widths, zero charge and zero charge spread. *)
Theorem C5_normalizer_output_dense_sorted (c : GainContainer) :
  sparse_input c →
  ∃ cd pre,
    merge_missing_pixels c
      = Some (cd, np_setdiff1d_arange total_pixels (pixels_id c)) ∧
    pre_process_fits c = Some pre ∧
    total_pixels = 1855 ∧
    length (pixels_id cd) = total_pixels ∧
    length (rows2 (high_gain cd)) = total_pixels ∧
    length (rows2 (low_gain cd)) = total_pixels ∧
    length (charge cd) = total_pixels ∧
    length (charge_std cd) = total_pixels ∧
    length (pp_n_pe pre) = total_pixels ∧
    length (pp_std_n_pe pre) = total_pixels ∧
    length (pp_sigma_masked pre) = total_pixels ∧
    pixels_id cd = seq 0 total_pixels ∧
    StronglySorted lt (pixels_id cd) ∧
    NoDup (pixels_id cd) ∧
    shape1 (high_gain cd) = shape1 (high_gain c) ∧
    shape1 (low_gain cd) = shape1 (low_gain c) ∧
    Forall (λ r, length r = shape1 (high_gain c)) (rows2 (high_gain cd)) ∧
    Forall (λ r, length r = shape1 (low_gain c)) (rows2 (low_gain cd)) ∧
    ∀ p, p < total_pixels → p ∉ pixels_id c →
      rows2 (high_gain cd) !! p = Some (replicate (shape1 (high_gain c)) fzero) ∧
      rows2 (low_gain cd) !! p = Some (replicate (shape1 (low_gain c)) fzero) ∧
      charge cd !! p = Some fzero ∧
      charge_std cd !! p = Some fzero.
Proof.
  intros Hc.
  destruct (pre_process_fits_spec c Hc)
    as (cd & pre & hg0 & Hmerge & Hcol & Hpre & Hlen & Hhg0 & Hslen & Hnlen & Hch & Hhg
        & Hlg & Hdict & Hsig & Hpix).
  destruct (merge_missing_pixels_spec c Hc)
    as (cd' & Hmerge' & Hids & Hw1 & Hw2 & Hl1 & Hl2 & Hl3 & Hl4 & Hstd & Hpres & Hmiss).
  rewrite Hmerge in Hmerge'. injection Hmerge' as <-.
  destruct Hc as [Hnd Hrange Hhgr Hlgr Hchr Hchsr Hhgw Hlgw Hhgc].
  exists cd, pre. split_and!; try done.
  - by rewrite Hids, length_seq.
  - by rewrite Hsig, length_fmap.
  - rewrite Hids. apply StronglySorted_lt_seq.
  - rewrite Hids. apply NoDup_seq.
  - apply Forall_lookup. intros p row Hrow.
    assert (Hp : p < total_pixels) by (rewrite <- Hl1; by eapply lookup_lt_Some).
    destruct (decide (p ∈ pixels_id c)) as [Hin|Hnotin].
    + apply list_elem_of_lookup in Hin as [i Hi].
      destruct (Hpres i p Hi) as (Hr & _). rewrite Hr in Hrow.
      rewrite Forall_lookup in Hhgw. by apply (Hhgw _ _ Hrow).
    + destruct (Hmiss p Hp Hnotin) as (Hr & _). rewrite Hr in Hrow.
      simplify_eq. by rewrite length_replicate.
  - apply Forall_lookup. intros p row Hrow.
    assert (Hp : p < total_pixels) by (rewrite <- Hl2; by eapply lookup_lt_Some).
    destruct (decide (p ∈ pixels_id c)) as [Hin|Hnotin].
    + apply list_elem_of_lookup in Hin as [i Hi].
      destruct (Hpres i p Hi) as (_ & Hr & _). rewrite Hr in Hrow.
      rewrite Forall_lookup in Hlgw. by apply (Hlgw _ _ Hrow).
    + destruct (Hmiss p Hp Hnotin) as (_ & Hr & _). rewrite Hr in Hrow.
      simplify_eq. by rewrite length_replicate.
Qed.

(** The one-pixel input (pixel 0 present, the other 1854 synthesized). *)
Lemma C5_normalizer_output_witness :
  ∃ cd pre,
    merge_missing_pixels (one_pixel 2 8 2)
      = Some (cd, np_setdiff1d_arange total_pixels [0]) ∧
    pre_process_fits (one_pixel 2 8 2) = Some pre ∧
    length (pixels_id cd) = 1855 ∧
    length (pp_n_pe pre) = 1855 ∧
    pixels_id cd = seq 0 total_pixels ∧
    StronglySorted lt (pixels_id cd) ∧
    NoDup (pixels_id cd) ∧
    rows2 (high_gain cd) !! 1 = Some [fzero] ∧
    rows2 (low_gain cd) !! 1 = Some [fzero] ∧
    charge cd !! 1 = Some fzero ∧
    charge_std cd !! 1 = Some fzero.
Proof.
  destruct (C5_normalizer_output_dense_sorted (one_pixel 2 8 2))
    as (cd & pre & Hmerge & Hpre & HN & L1 & _ & _ & _ & _ & L2 & _ & _ & Hids
        & Hsorted & Hnodup & _ & _ & _ & _ & Hmissing).
  - split; simpl; try done.
    + apply NoDup_singleton.
    + repeat constructor. rewrite total_pixels_val. lia.
    + by repeat constructor.
    + by repeat constructor.
    + lia.
  - destruct (Hmissing 1) as (R1 & R2 & R3 & R4).
    + rewrite HN. lia.
    + simpl. intros [=]%list_elem_of_singleton.
    + exists cd, pre. rewrite <- HN at 1 2. by split_and!.
Defined.


(** ** The objectives as sums of per-pixel cells *)

Section objectives.
Variable camera : CameraGeometry.
Variable Gaussian_pdf :
  float64 → float64 → float64 → float64 → float64 → float64 → float64.

Lemma objective_cells {A B C D : Type} (n : list A) (s : list B) (g : list C)
    (cell : A → B → C → D) :
  zip_with (λ (ns : A * B) (f : C), cell ns.1 ns.2 f) (zip n s) g
  = (λ t : A * B * C, cell t.1.1 t.1.2 t.2) <$> zip (zip n s) g.
Proof.
  revert s g. induction n as [|x n IH]; intros [|y s] [|z g]; simpl; try done.
  by rewrite IH.
Qed.

Lemma LSQ_cells (n_pe sigma : marray) (a0 a1 a2 a3 : float64) :
  LSQ camera Gaussian_pdf n_pe sigma a0 a1 a2 a3
  = ma_sum ((λ t : mcell * mcell * float64, LSQ_cell t.1.1 t.1.2 t.2)
              <$> zip (zip n_pe sigma)
                      (Gaussian_model camera Gaussian_pdf a0 a1 a2 a3 a3)).
Proof.
  unfold LSQ, squared_residuals. f_equal.
  rewrite <- objective_cells.
  generalize (Gaussian_model camera Gaussian_pdf a0 a1 a2 a3 a3). intros g.
  unfold ma_of.
  revert sigma g. induction n_pe as [|x n IH]; intros [|y s] [|z g]; simpl; try done.
  f_equal. apply IH.
Qed.

Lemma LS_variance_cells (n_pe sigma : marray) (a0 a1 a2 a3 v : float64) :
  LS_variance camera Gaussian_pdf n_pe sigma a0 a1 a2 a3 v
  = ma_sum ((λ t : mcell * mcell * float64, LS_variance_cell v t.1.1 t.1.2 t.2)
              <$> zip (zip n_pe sigma)
                      (Gaussian_model camera Gaussian_pdf a0 a1 a2 a3 a3)).
Proof.
  unfold LS_variance, squared_residuals. f_equal.
  rewrite <- objective_cells.
  generalize (Gaussian_model camera Gaussian_pdf a0 a1 a2 a3 a3). intros g.
  unfold ma_of.
  revert sigma g. induction n_pe as [|x n IH]; intros [|y s] [|z g]; simpl; try done.
  f_equal. apply IH.
Qed.

Lemma LSQ_wrap_var_LS_variance (n_pe sigma : marray) (a0 a1 a2 a3 v : float64) :
  LSQ_wrap_var camera Gaussian_pdf n_pe sigma [a0; a1; a2; a3; v]
  = Some (LS_variance camera Gaussian_pdf n_pe sigma a0 a1 a2 a3 v).
Proof. reflexivity. Qed.
End objectives.

(** ** Cells of masked arrays *)

Lemma ma_power2_fin (r : R) :
  ma_power2 (MCell (Fin r) false) = MCell (Fin (r * r)) false.
Proof. reflexivity. Qed.

Lemma ma_power2_masked (c : mcell) : mmask c = true → mmask (ma_power2 c) = true.
Proof. intros H. unfold ma_power2. by rewrite H. Qed.

(** A cell of [a ** 2] is masked or holds a finite number. *)
Lemma ma_power2_cases (c : mcell) :
  mmask (ma_power2 c) = true ∨ ∃ x, ma_power2 c = MCell (Fin x) false.
Proof.
  destruct c as [d [|]]; [by left|].
  destruct d as [r| | |]; [right; by eexists| by left..].
Qed.

Lemma masked_cell_eta (c : mcell) : mmask c = true → MCell (mdata c) true = c.
Proof. destruct c as [d m]. simpl. by intros ->. Qed.

Lemma ma_binop_masked_l (f : float64 → float64 → float64) (a b : mcell) :
  mmask a = true → ma_binop f a b = a.
Proof. intros H. unfold ma_binop. rewrite H. simpl. by apply masked_cell_eta. Qed.

Lemma ma_true_divide_masked (a b : mcell) :
  mmask a || mmask b = true → mmask (ma_true_divide a b) = true.
Proof.
  intros H. unfold ma_true_divide. simpl.
  destruct (mmask a), (mmask b); simpl in *; try done; by rewrite ?orb_true_r.
Qed.

Lemma ma_true_divide_fin (a b : R) :
  b ≠ 0%R →
  ma_true_divide (MCell (Fin a) false) (MCell (Fin b) false) = MCell (Fin (a / b)) false.
Proof.
  intros Hb. unfold ma_true_divide. simpl mdata. simpl mmask.
  rewrite fdiv_fin by done. unfold fzero. rewrite feq_fin.
  by rewrite bool_decide_eq_false_2.
Qed.

Lemma ma_true_divide_by_zero (a : mcell) :
  mmask (ma_true_divide a (MCell (Fin 0) false)) = true.
Proof.
  unfold ma_true_divide. simpl. rewrite bool_decide_eq_true_2 by done.
  by rewrite orb_true_r.
Qed.

(** An unmasked quotient is a finite number. *)
Lemma ma_true_divide_unmasked (a b : mcell) :
  mmask (ma_true_divide a b) = false →
  ∃ y, ma_true_divide a b = MCell (Fin y) false.
Proof.
  unfold ma_true_divide. simpl. intros H. rewrite H.
  destruct (fdiv (mdata a) (mdata b)) as [y| | |]; try done. by exists y.
Qed.

Lemma np_log_ma_fin (a : R) :
  (0 < a)%R → np_log_ma (MCell (Fin a) false) = MCell (Fin (ln a)) false.
Proof.
  intros Ha. unfold np_log_ma, fzero. cbn [mmask mdata orb].
  rewrite fle_fin, bool_decide_eq_false_2 by lra.
  unfold unmasked. by rewrite flog_fin.
Qed.

(** With [v_int = 0] the variance is the squared uncertainty itself. *)
Lemma variance_zero (s : mcell) :
  ma_binop fadd (ma_power2 s) (unmasked (Fin 0)) = ma_power2 s.
Proof.
  destruct (ma_power2_cases s) as [H|[x ->]].
  - by apply ma_binop_masked_l.
  - unfold ma_binop. simpl. by rewrite Rplus_0_r.
Qed.

(** The logarithm of [p / p] contributes nothing. *)
Lemma log_of_unit_ratio (q p : mcell) :
  mmask p = true ∨ (∃ x, p = MCell (Fin x) false) →
  ma_binop fsub (ma_true_divide q p) (np_log_ma (ma_true_divide p p))
  = ma_true_divide q p.
Proof.
  intros [Hp|[x ->]].
  { apply ma_binop_masked_l, ma_true_divide_masked. rewrite Hp. apply orb_true_r. }
  destruct (decide (x = 0%R)) as [->|Hx].
  { apply ma_binop_masked_l, ma_true_divide_by_zero. }
  rewrite (ma_true_divide_fin x x) by done.
  replace (x / x)%R with 1%R by (field; done).
  rewrite np_log_ma_fin by lra. rewrite ln_1.
  destruct (mmask (ma_true_divide q (MCell (Fin x) false))) eqn:Hm.
  - by apply ma_binop_masked_l.
  - destruct (ma_true_divide_unmasked _ _ Hm) as [y ->].
    unfold ma_binop. simpl. by rewrite Rminus_0_r.
Qed.

Lemma LS_variance_cell_zero (n s : mcell) (f : float64) :
  LS_variance_cell (Fin 0) n s f = LSQ_cell n s f.
Proof.
  unfold LS_variance_cell, LSQ_cell. rewrite variance_zero.
  apply log_of_unit_ratio, ma_power2_cases.
Qed.

Lemma LS_variance_cell_masked (v : float64) (n s : mcell) (f : float64) :
  mmask n || mmask s = true → mmask (LS_variance_cell v n s f) = true.
Proof.
  intros H. unfold LS_variance_cell.
  set (variance := ma_binop fadd (ma_power2 s) (unmasked v)).
  assert (Hd : mmask (ma_true_divide (ma_power2 (ma_binop fsub n (unmasked f)))
                        variance) = true).
  { apply ma_true_divide_masked. apply orb_true_iff in H as [H|H].
    - rewrite ma_power2_masked; [done|]. by rewrite ma_binop_masked_l.
    - unfold variance. rewrite (ma_binop_masked_l _ _ _ (ma_power2_masked _ H)).
      rewrite (ma_power2_masked _ H). apply orb_true_r. }
  by rewrite ma_binop_masked_l.
Qed.

Lemma LSQ_cell_masked (n s : mcell) (f : float64) :
  mmask n || mmask s = true → mmask (LSQ_cell n s f) = true.
Proof.
  intros H. rewrite <- LS_variance_cell_zero. by apply LS_variance_cell_masked.
Qed.

Lemma ma_binop_fin (f : float64 → float64 → float64) (x y : float64) :
  ma_binop f (MCell x false) (MCell y false) = MCell (f x y) false.
Proof. reflexivity. Qed.

Lemma LS_variance_cell_fin (v a b c : R) :
  b ≠ 0%R → (0 <= v)%R →
  LS_variance_cell (Fin v) (MCell (Fin a) false) (MCell (Fin b) false) (Fin c)
  = MCell (Fin (variance_term_code v a c b)) false.
Proof.
  intros Hb Hv. unfold LS_variance_cell, unmasked.
  assert (Hpos : (0 < b * b + v)%R) by nra.
  repeat first [ rewrite ma_binop_fin | rewrite ma_power2_fin
               | rewrite ma_true_divide_fin by lra
               | rewrite np_log_ma_fin by (apply Rdiv_lt_0_compat; nra)
               | progress cbn [fsub fadd] ].
  unfold variance_term_code.
  replace ((a - c) ^ 2)%R with ((a - c) * (a - c))%R by ring.
  by replace (b ^ 2)%R with (b * b)%R by ring.
Qed.

Lemma LSQ_cell_fin (a b c : R) :
  b ≠ 0%R →
  LSQ_cell (MCell (Fin a) false) (MCell (Fin b) false) (Fin c)
  = MCell (Fin (lsq_term a c b)) false.
Proof.
  intros Hb. unfold LSQ_cell, unmasked.
  repeat first [ rewrite ma_binop_fin | rewrite ma_power2_fin
               | rewrite ma_true_divide_fin by nra
               | progress cbn [fsub fadd] ].
  unfold lsq_term.
  replace ((a - c) ^ 2)%R with ((a - c) * (a - c))%R by ring.
  by replace (b ^ 2)%R with (b * b)%R by ring.
Qed.

(** ** Sums of masked arrays *)

Lemma ma_sum_reals (cells : marray) (ts : list R) :
  Forall2 (λ c t, if mmask c then t = 0%R else mdata c = Fin t) cells ts →
  ma_sum cells = MCell (Fin (foldr Rplus 0%R ts)) (forallb mmask cells).
Proof.
  intros HF.
  assert (HB : forallb mmask cells = true → foldr Rplus 0%R ts = 0%R).
  { induction HF as [|c t cells ts Hc _ IH]; [done|].
    cbn [forallb foldr]. intros [Hm Hall]%andb_true_iff.
    rewrite Hm in Hc. rewrite Hc, (IH Hall). lra. }
  assert (HA : np_sum (ma_filled0 cells) = Fin (foldr Rplus 0%R ts)).
  { clear HB. induction HF as [|c t cells ts Hc _ IH]; [done|].
    unfold np_sum, ma_filled0 in *. rewrite fmap_cons. cbn [foldr].
    rewrite IH. destruct (mmask c); [subst t; reflexivity|]. by rewrite Hc. }
  unfold ma_sum. destruct (forallb mmask cells).
  - unfold masked, fzero. by rewrite HB.
  - unfold unmasked. by rewrite HA.
Qed.

Lemma forallb_fmap_ext {A B : Type} (f : B → bool) (g : A → B) (h : A → bool)
    (l : list A) :
  Forall (λ x, f (g x) = h x) l → forallb f (g <$> l) = forallb h l.
Proof.
  induction 1 as [|x l Hx _ IH]; [done|].
  rewrite fmap_cons. cbn [forallb]. by rewrite Hx, IH.
Qed.

Section objective_sums.
Variable camera : CameraGeometry.
Variable Gaussian_pdf :
  float64 → float64 → float64 → float64 → float64 → float64 → float64.

Lemma usable_triples (n_pe sigma : marray) (g : ndarray) :
  usable n_pe sigma g →
  Forall (λ t : mcell * mcell * float64,
            mmask t.1.1 || mmask t.1.2 = false →
            ∃ n s m, t = (MCell (Fin n) false, MCell (Fin s) false, Fin m) ∧ s ≠ 0%R)
         (zip (zip n_pe sigma) g).
Proof.
  intros Hu. apply Forall_lookup. intros i [[cn cs] f] Hi.
  apply lookup_zip_Some in Hi as [Hi Hf].
  apply lookup_zip_Some in Hi as [Hn Hs]. simpl.
  intros [Hmn Hms]%orb_false_iff.
  destruct (Hu i cn cs f Hn Hs Hf Hmn Hms) as (n & s & m & H1 & H2 & -> & Hs0).
  exists n, s, m. split; [|done].
  destruct cn, cs; simpl in *; by subst.
Qed.

(** The with-variance objective is the sum, over the pixels that are
    not masked, of the term with the logarithm subtracted. *)
Lemma LS_variance_as_sum (n_pe sigma : marray) (a0 a1 a2 a3 : float64) (v : R) :
  (0 <= v)%R →
  usable n_pe sigma (Gaussian_model camera Gaussian_pdf a0 a1 a2 a3 a3) →
  LS_variance camera Gaussian_pdf n_pe sigma a0 a1 a2 a3 (Fin v)
  = MCell (Fin (sum_over_unmasked (variance_term_code v) n_pe sigma
                  (Gaussian_model camera Gaussian_pdf a0 a1 a2 a3 a3)))
          (forallb (λ t : mcell * mcell * float64, mmask t.1.1 || mmask t.1.2)
                   (zip (zip n_pe sigma)
                        (Gaussian_model camera Gaussian_pdf a0 a1 a2 a3 a3))).
Proof.
  intros Hv Hu. rewrite LS_variance_cells.
  apply usable_triples in Hu.
  set (triples := zip (zip n_pe sigma) _) in *.
  unfold sum_over_unmasked. fold triples.
  erewrite ma_sum_reals.
  - f_equal. apply forallb_fmap_ext.
    eapply Forall_impl; [exact Hu|]. intros [[cn cs] f] Ht. cbn [fst snd] in *.
    destruct (mmask cn || mmask cs) eqn:Hm.
    + by apply LS_variance_cell_masked.
    + destruct (Ht eq_refl) as (n & s & m & [= -> -> ->] & Hs).
      by rewrite LS_variance_cell_fin.
  - apply Forall2_fmap, Forall_Forall2_diag.
    eapply Forall_impl; [exact Hu|]. intros [[cn cs] f] Ht. cbn [fst snd] in *.
    destruct (mmask cn || mmask cs) eqn:Hm.
    + by rewrite LS_variance_cell_masked.
    + destruct (Ht eq_refl) as (n & s & m & [= -> -> ->] & Hs).
      by rewrite LS_variance_cell_fin.
Qed.

(** The objective of the first fit on usable data: the sum of
    (n_pe - f)^2 / sigma^2 over the pixels that are not masked. *)
Lemma LSQ_as_sum (n_pe sigma : marray) (a0 a1 a2 a3 : float64) :
  usable n_pe sigma (Gaussian_model camera Gaussian_pdf a0 a1 a2 a3 a3) →
  LSQ camera Gaussian_pdf n_pe sigma a0 a1 a2 a3
  = MCell (Fin (sum_over_unmasked lsq_term n_pe sigma
                  (Gaussian_model camera Gaussian_pdf a0 a1 a2 a3 a3)))
          (forallb (λ t : mcell * mcell * float64, mmask t.1.1 || mmask t.1.2)
                   (zip (zip n_pe sigma)
                        (Gaussian_model camera Gaussian_pdf a0 a1 a2 a3 a3))).
Proof.
  intros Hu. rewrite LSQ_cells.
  apply usable_triples in Hu.
  set (triples := zip (zip n_pe sigma) _) in *.
  unfold sum_over_unmasked. fold triples.
  assert (Hcell : Forall (λ t : mcell * mcell * float64,
            if mmask t.1.1 || mmask t.1.2
            then mmask (LSQ_cell t.1.1 t.1.2 t.2) = true
            else LSQ_cell t.1.1 t.1.2 t.2
                 = MCell (Fin (lsq_term (to_R (mdata t.1.1)) (to_R t.2)
                                        (to_R (mdata t.1.2)))) false) triples).
  { eapply Forall_impl; [exact Hu|]. intros [[cn cs] f] Ht. cbn [fst snd] in *.
    destruct (mmask cn || mmask cs) eqn:Hm.
    - by apply LSQ_cell_masked.
    - destruct (Ht eq_refl) as (n & s & m & [= -> -> ->] & Hs).
      cbn [mdata to_R]. by rewrite LSQ_cell_fin. }
  erewrite ma_sum_reals.
  - f_equal. apply forallb_fmap_ext.
    eapply Forall_impl; [exact Hcell|]. intros [[cn cs] f] Ht. cbn [fst snd] in *.
    destruct (mmask cn || mmask cs); [done|]. by rewrite Ht.
  - apply Forall2_fmap, Forall_Forall2_diag.
    eapply Forall_impl; [exact Hcell|]. intros [[cn cs] f] Ht. cbn [fst snd] in *.
    destruct (mmask cn || mmask cs); [by rewrite Ht|]. by rewrite Ht.
Qed.

(** With [v_int = 0] the two objectives agree on every input. *)
Lemma LS_variance_zero (n_pe sigma : marray) (a0 a1 a2 a3 : float64) :
  LS_variance camera Gaussian_pdf n_pe sigma a0 a1 a2 a3 (Fin 0)
  = LSQ camera Gaussian_pdf n_pe sigma a0 a1 a2 a3.
Proof.
  rewrite LS_variance_cells, LSQ_cells. f_equal.
  apply list_fmap_ext. intros i [[cn cs] f] _. apply LS_variance_cell_zero.
Qed.
End objective_sums.


(** ** The objectives on the one-pixel camera *)

Lemma Gaussian2D_pdf_fin (x y l w px py : R) :
  (0 < l)%R → (0 < w)%R →
  ∃ d, Gaussian2D_pdf (Fin x) (Fin y) (Fin l) (Fin w) (Fin px) (Fin py) = Fin d.
Proof.
  intros Hl Hw. unfold Gaussian2D_pdf.
  rewrite !bool_decide_eq_true_2 by done. by eexists.
Qed.

(** With amplitude 0 the model predicts 0 for the pixel. *)
Lemma Gaussian_model_zero_amplitude (x y l : R) :
  (0 < l)%R →
  Gaussian_model one_pixel_camera Gaussian2D_pdf (Fin 0) (Fin x) (Fin y) (Fin l) (Fin l)
  = [Fin 0].
Proof.
  intros Hl. unfold Gaussian_model, one_pixel_camera. cbn [pix_x pix_y zip_with fmap list_fmap].
  destruct (Gaussian2D_pdf_fin x y l l 0 0 Hl Hl) as [d ->].
  cbn [fmul]. by rewrite Rmult_0_l.
Qed.

Lemma usable_one_pixel (n s m : R) :
  s ≠ 0%R → usable [MCell (Fin n) false] [MCell (Fin s) false] [Fin m].
Proof.
  intros Hs [|i] cn cs f Hn Hsg Hf _ _; simplify_eq/=. by exists n, s, m.
Qed.

Lemma ln_half (x : R) : x = (/ 2)%R → ln x = (- ln 2)%R.
Proof. intros ->. apply ln_Rinv. lra. Qed.

Lemma ln_2_pos : (0 < ln 2)%R.
Proof. rewrite <- ln_1. apply ln_increasing; lra. Qed.

(** ** C1: the sign of the logarithm *)

(** C1 (amended).  For a variance parameter [v >= 0] and data that are
    finite with a non-zero uncertainty on every pixel that is not
    masked, [LS_variance], and [LSQ_wrap_var] on the same arrays, return
    the sum over the non-masked pixels of
    [(n_pe - f)^2 / (sigma^2 + v) - ln(sigma^2 / (sigma^2 + v))]: the
    logarithm is subtracted, so that the term grows with [v].  The
    result is [masked] when no pixel is left. *)
Theorem C1_variance_objective_subtracts_log
    (camera : CameraGeometry)
    (Gaussian_pdf : float64 → float64 → float64 → float64 → float64 → float64 → float64)
    (n_pe sigma : marray) (a0 a1 a2 a3 : float64) (v : R) :
  (0 <= v)%R →
  usable n_pe sigma (Gaussian_model camera Gaussian_pdf a0 a1 a2 a3 a3) →
  let objective :=
    MCell (Fin (sum_over_unmasked (variance_term_code v) n_pe sigma
                  (Gaussian_model camera Gaussian_pdf a0 a1 a2 a3 a3)))
          (forallb (λ t : mcell * mcell * float64, mmask t.1.1 || mmask t.1.2)
                   (zip (zip n_pe sigma)
                        (Gaussian_model camera Gaussian_pdf a0 a1 a2 a3 a3))) in
  LS_variance camera Gaussian_pdf n_pe sigma a0 a1 a2 a3 (Fin v) = objective ∧
  LSQ_wrap_var camera Gaussian_pdf n_pe sigma [a0; a1; a2; a3; Fin v] = Some objective.
Proof.
  intros Hv Hu objective.
  rewrite LSQ_wrap_var_LS_variance.
  by rewrite (LS_variance_as_sum camera Gaussian_pdf n_pe sigma a0 a1 a2 a3 v Hv Hu).
Qed.

(** One pixel with [n_pe = 1], [sigma = 1], model value 0 and [v = 1]:
    the objective is [1/2 - ln(1/2) = 1/2 + ln 2]. *)
Lemma C1_variance_objective_witness :
  LS_variance one_pixel_camera Gaussian2D_pdf [MCell (Fin 1) false] [MCell (Fin 1) false]
              (Fin 0) (Fin 0) (Fin 0) (Fin 1.5) (Fin 1)
  = MCell (Fin (sum_over_unmasked (variance_term_code 1)
                  [MCell (Fin 1) false] [MCell (Fin 1) false]
                  (Gaussian_model one_pixel_camera Gaussian2D_pdf
                                  (Fin 0) (Fin 0) (Fin 0) (Fin 1.5) (Fin 1.5))))
          (forallb (λ t : mcell * mcell * float64, mmask t.1.1 || mmask t.1.2)
                   (zip (zip [MCell (Fin 1) false] [MCell (Fin 1) false])
                        (Gaussian_model one_pixel_camera Gaussian2D_pdf
                                        (Fin 0) (Fin 0) (Fin 0) (Fin 1.5) (Fin 1.5)))).
Proof.
  refine (proj1 (C1_variance_objective_subtracts_log
                   one_pixel_camera Gaussian2D_pdf
                   [MCell (Fin 1) false] [MCell (Fin 1) false]
                   (Fin 0) (Fin 0) (Fin 0) (Fin 1.5) 1 _ _)).
  - lra.
  - rewrite Gaussian_model_zero_amplitude by lra. apply usable_one_pixel. lra.
Defined.

(** The claim as stated fails: on that input the code returns
    [1/2 + ln 2], whereas the sum with the logarithm added is
    [1/2 - ln 2]. *)
Lemma C1_log_added_counterexample :
  LS_variance one_pixel_camera Gaussian2D_pdf [MCell (Fin 1) false] [MCell (Fin 1) false]
              (Fin 0) (Fin 0) (Fin 0) (Fin 1.5) (Fin 1)
    = MCell (Fin (1 / 2 + ln 2)) false ∧
  sum_over_unmasked (variance_term_spec 1)
      [MCell (Fin 1) false] [MCell (Fin 1) false]
      (Gaussian_model one_pixel_camera Gaussian2D_pdf
                      (Fin 0) (Fin 0) (Fin 0) (Fin 1.5) (Fin 1.5))
    = (1 / 2 - ln 2)%R ∧
  (1 / 2 + ln 2 ≠ 1 / 2 - ln 2)%R.
Proof.
  split_and!.
  - rewrite LS_variance_as_sum.
    + rewrite Gaussian_model_zero_amplitude by lra.
      unfold sum_over_unmasked, variance_term_code. cbn.
      rewrite (ln_half (_ / _)) by lra. do 2 f_equal. lra.
    + lra.
    + rewrite Gaussian_model_zero_amplitude by lra. apply usable_one_pixel. lra.
  - rewrite Gaussian_model_zero_amplitude by lra.
    unfold sum_over_unmasked, variance_term_spec. cbn.
    rewrite (ln_half (_ / _)) by lra. lra.
  - pose proof ln_2_pos. lra.
Qed.

(** ** C4: the variance parameter set to zero *)

(** C4.  For every parameter vector, data and uncertainties whose
    non-masked entries are non-zero, [LS_variance] with [v_int = 0]
    returns what [LSQ] returns (the logarithm is [ln 1 = 0]); so does
    [LSQ_wrap_var].  The proof does not use the hypothesis: a zero
    uncertainty is masked out of both objectives by the division. *)
Theorem C4_zero_variance_reduces_to_LSQ
    (camera : CameraGeometry)
    (Gaussian_pdf : float64 → float64 → float64 → float64 → float64 → float64 → float64)
    (n_pe sigma : marray) (a0 a1 a2 a3 : float64) :
  (∀ i cs, sigma !! i = Some cs → mmask cs = false → mdata cs ≠ fzero) →
  LS_variance camera Gaussian_pdf n_pe sigma a0 a1 a2 a3 (Fin 0)
    = LSQ camera Gaussian_pdf n_pe sigma a0 a1 a2 a3 ∧
  LSQ_wrap_var camera Gaussian_pdf n_pe sigma [a0; a1; a2; a3; Fin 0]
    = Some (LSQ camera Gaussian_pdf n_pe sigma a0 a1 a2 a3).
Proof.
  intros _. rewrite LSQ_wrap_var_LS_variance. by rewrite LS_variance_zero.
Qed.

Lemma C4_zero_variance_witness :
  LS_variance one_pixel_camera Gaussian2D_pdf [MCell (Fin 1) false] [MCell (Fin 1) false]
              (Fin 0) (Fin 0) (Fin 0) (Fin 1.5) (Fin 0)
  = LSQ one_pixel_camera Gaussian2D_pdf [MCell (Fin 1) false] [MCell (Fin 1) false]
        (Fin 0) (Fin 0) (Fin 0) (Fin 1.5).
Proof.
  refine (proj1 (C4_zero_variance_reduces_to_LSQ
                   one_pixel_camera Gaussian2D_pdf
                   [MCell (Fin 1) false] [MCell (Fin 1) false]
                   (Fin 0) (Fin 0) (Fin 0) (Fin 1.5) _)).
  intros [|i] cs Hcs _; simplify_eq/=. unfold fzero. intros [= H]. lra.
Defined.


(** ** The store: allocation only extends the heap *)

Lemma ma_new_spec (a : marray) (st : pystate) :
  ∃ l, ma_new a st = Some (l, PyState (<[l := a]> (heap st)) (dict_missing_pix st)) ∧
       heap st !! l = None.
Proof.
  eexists. split; [reflexivity|].
  apply (not_elem_of_dom (D := gset nat)), is_fresh.
Qed.

Lemma ma_read_spec (l : nat) (a : marray) (st : pystate) :
  heap st !! l = Some a → ma_read l st = Some (a, st).
Proof. intros H. unfold ma_read. by rewrite H. Qed.

Lemma ma_read_inv (l : nat) (a : marray) (st st' : pystate) :
  ma_read l st = Some (a, st') → st' = st ∧ heap st !! l = Some a.
Proof.
  unfold ma_read. destruct (heap st !! l) eqn:H; intros [= <- <-]; done.
Qed.

Lemma define_delete_out_spec (st : pystate) (sigma data : nat)
    (sigma_arr data_arr : marray) :
  heap st !! sigma = Some sigma_arr → heap st !! data = Some data_arr →
  length sigma_arr = length data_arr →
  let flags := (outlier_flags data_arr).*1 in
  let sigma_new := zip_with (λ c b, MCell (mdata c) (b || mmask c)) sigma_arr flags in
  let data_new := zip_with (λ c b, MCell (mdata c) (b || mmask c)) data_arr flags in
  ∃ data' sigma',
    define_delete_out sigma data st
      = Some ((data', sigma', outlier_flags data_arr),
              PyState (<[data' := data_new]> (<[sigma' := sigma_new]> (heap st)))
                      (dict_missing_pix st)) ∧
    heap st !! sigma' = None ∧ heap st !! data' = None ∧ data' ≠ sigma'.
Proof.
  intros Hs Hd Hlen flags sigma_new data_new.
  assert (Hfl : length flags = length data_arr).
  { unfold flags, outlier_flags. by rewrite !length_fmap. }
  unfold define_delete_out.
  unfold mbind, M_bind at 1. rewrite (ma_read_spec _ _ _ Hd).
  unfold mbind, M_bind at 1. rewrite (ma_read_spec _ _ _ Hs).
  fold flags.
  unfold mbind, M_bind at 1. unfold lift at 1.
  rewrite ma_masked_array_same_length by lia. fold sigma_new.
  unfold mbind, M_bind at 1.
  destruct (ma_new_spec sigma_new st) as (sigma' & -> & Hfresh1).
  unfold mbind, M_bind at 1. unfold lift at 1.
  rewrite ma_masked_array_same_length by lia. fold data_new.
  unfold mbind, M_bind at 1.
  destruct (ma_new_spec data_new
              (PyState (<[sigma' := sigma_new]> (heap st)) (dict_missing_pix st)))
    as (data' & -> & Hfresh2).
  cbn [heap dict_missing_pix] in *.
  exists data', sigma'. split; [reflexivity|].
  apply lookup_insert_None in Hfresh2 as [? ?]. done.
Qed.

(** ** Mean and standard deviation of arrays without masked entry *)

Lemma ma_count_fin (xs : list R) : ma_count (fin_cells xs) = length xs.
Proof.
  unfold ma_count, fin_cells. induction xs as [|x xs IH]; [done|].
  rewrite fmap_cons, filter_cons_True by done. simpl. by rewrite IH.
Qed.

Lemma ma_sum_fin (xs : list R) :
  xs ≠ [] → ma_sum (fin_cells xs) = unmasked (Fin (foldr Rplus 0%R xs)).
Proof.
  intros Hne. rewrite (ma_sum_reals _ xs).
  - destruct xs; [done|]. reflexivity.
  - unfold fin_cells. apply Forall2_fmap_l, Forall_Forall2_diag, Forall_forall.
    by intros x _.
Qed.

Lemma INR_length_neq_0 {A : Type} (xs : list A) : xs ≠ [] → INR (length xs) ≠ 0%R.
Proof. intros Hne. apply not_0_INR. by destruct xs. Qed.

Lemma ma_mean_fin (xs : list R) :
  xs ≠ [] →
  ma_mean (fin_cells xs)
  = unmasked (Fin (foldr Rplus 0%R xs * 1 / INR (length xs))).
Proof.
  intros Hne. unfold ma_mean. rewrite ma_count_fin, ma_sum_fin by done.
  rewrite decide_False by (by destruct xs).
  unfold unmasked, of_nat. cbn [mdata fmul].
  by rewrite fdiv_fin by (by apply INR_length_neq_0).
Qed.

Lemma ma_var_fin (xs : list R) (m : R) :
  xs ≠ [] →
  ma_mean (fin_cells xs) = unmasked (Fin m) →
  ma_var (fin_cells xs)
  = unmasked (Fin (foldr Rplus 0%R ((λ x, (x - m) * (x - m))%R <$> xs)
                   / INR (length xs))).
Proof.
  intros Hne Hm. unfold ma_var. rewrite Hm, ma_count_fin.
  assert (Hdanom : ma_power2 <$> ((λ c, ma_binop fsub c (unmasked (Fin m))) <$> fin_cells xs)
                   = fin_cells ((λ x, (x - m) * (x - m))%R <$> xs)).
  { unfold fin_cells. rewrite <- !list_fmap_compose. by apply list_fmap_ext. }
  rewrite Hdanom, ma_sum_fin by (by destruct xs).
  unfold ma_true_divide_scalar, unmasked, of_nat.
  by rewrite ma_true_divide_fin by (by apply INR_length_neq_0).
Qed.

Lemma ma_std_fin (xs : list R) (v : R) :
  (0 <= v)%R →
  ma_var (fin_cells xs) = unmasked (Fin v) →
  ma_std (fin_cells xs) = unmasked (Fin (sqrt v)).
Proof.
  intros Hv Hvar. unfold ma_std. rewrite Hvar. cbn [mmask unmasked mdata].
  by rewrite fsqrt_fin.
Qed.

Lemma ma_std_nonneg (a : marray) (s : R) :
  ma_std a = unmasked (Fin s) → (0 <= s)%R.
Proof.
  unfold ma_std. destruct (mmask (ma_var a)); [done|].
  destruct (mdata (ma_var a)) as [v| | |]; try done.
  unfold fsqrt. case_bool_decide; [done|].
  cbn [isfinite]. intros [= <-]. apply sqrt_pos.
Qed.

Lemma INR_10 : INR 10 = 10%R.
Proof. rewrite INR_IZR_INZ. reflexivity. Qed.

Lemma INR_11 : INR 11 = 11%R.
Proof. rewrite INR_IZR_INZ. reflexivity. Qed.

Lemma ten_counts_mean : ma_mean (fin_cells ten_counts) = unmasked (Fin 1).
Proof.
  rewrite ma_mean_fin by done. do 2 f_equal.
  unfold ten_counts. cbn [foldr length]. rewrite INR_10. lra.
Qed.

Lemma ten_counts_std : ma_std (fin_cells ten_counts) = unmasked (Fin 3).
Proof.
  rewrite (ma_std_fin _ 9); [|lra|].
  - do 2 f_equal. replace 9%R with (3 * 3)%R by lra. apply sqrt_square. lra.
  - rewrite (ma_var_fin ten_counts 1 ltac:(done) ten_counts_mean). do 2 f_equal.
    unfold ten_counts. cbn [foldr length fmap list_fmap]. rewrite INR_10. lra.
Qed.

Lemma eleven_counts_mean : ma_mean (fin_cells eleven_counts) = unmasked (Fin 1).
Proof.
  rewrite ma_mean_fin by done. do 2 f_equal.
  unfold eleven_counts. cbn [foldr length]. rewrite INR_11. lra.
Qed.

Lemma eleven_counts_std :
  ma_std (fin_cells eleven_counts) = unmasked (Fin (sqrt 10)).
Proof.
  apply ma_std_fin; [lra|].
  rewrite (ma_var_fin eleven_counts 1 ltac:(done) eleven_counts_mean). do 2 f_equal.
  unfold eleven_counts. cbn [foldr length fmap list_fmap]. rewrite INR_11. lra.
Qed.

(** ** C6: the 3-sigma test *)

Lemma outlier_flag_fin (data_arr : marray) (i : nat) (x mean std : R) :
  data_arr !! i = Some (MCell (Fin x) false) →
  ma_mean data_arr = unmasked (Fin mean) →
  ma_std data_arr = unmasked (Fin std) →
  outlier_flags data_arr !! i
  = Some (bool_decide (Rabs (x - mean) > 3 * std)%R, false).
Proof.
  intros Hi Hmean Hstd. unfold outlier_flags.
  rewrite list_lookup_fmap, Hi, Hmean, Hstd. reflexivity.
Qed.

(** C6.  [define_delete_out], the single rejection pass of both
    fitters, run on a data array whose population has the finite mean
    [mean] and standard deviation [std]: for a non-masked datum [x] the
    outlier flag, and the mask of the datum in the array returned, is
    the strict test [|x - mean| > 3 * std].  A datum at
    [mean + 3 * std] or [mean - 3 * std] is not marked; a datum at
    [mean + (3 * std + eps)] or [mean - (3 * std + eps)], [eps > 0], is
    marked, in the data and in the uncertainty array. *)
Theorem C6_three_sigma_test_strict_symmetric
    (st : pystate) (sigma data : nat) (sigma_arr data_arr : marray)
    (i : nat) (x mean std : R) :
  heap st !! sigma = Some sigma_arr →
  heap st !! data = Some data_arr →
  length sigma_arr = length data_arr →
  data_arr !! i = Some (MCell (Fin x) false) →
  ma_mean data_arr = unmasked (Fin mean) →
  ma_std data_arr = unmasked (Fin std) →
  ∃ data' sigma' outliers st' data_new sigma_new,
    define_delete_out sigma data st = Some ((data', sigma', outliers), st') ∧
    heap st' !! data' = Some data_new ∧
    heap st' !! sigma' = Some sigma_new ∧
    outliers !! i = Some (bool_decide (Rabs (x - mean) > 3 * std)%R, false) ∧
    data_new !! i
      = Some (MCell (Fin x) (bool_decide (Rabs (x - mean) > 3 * std)%R)) ∧
    (∀ cs, sigma_arr !! i = Some cs →
       sigma_new !! i
         = Some (MCell (mdata cs)
                       (bool_decide (Rabs (x - mean) > 3 * std)%R || mmask cs))) ∧
    ((x = mean + 3 * std ∨ x = mean - 3 * std)%R →
       outliers !! i = Some (false, false) ∧
       mmask <$> data_new !! i = Some false) ∧
    (∀ eps, (0 < eps)%R →
       (x = mean + (3 * std + eps) ∨ x = mean - (3 * std + eps))%R →
       outliers !! i = Some (true, false) ∧
       mmask <$> data_new !! i = Some true ∧
       mmask <$> sigma_new !! i = Some true).
Proof.
  intros Hs Hd Hlen Hi Hmean Hstd.
  destruct (define_delete_out_spec st sigma data sigma_arr data_arr Hs Hd Hlen)
    as (data' & sigma' & Hrun & Hf1 & Hf2 & Hne).
  pose proof (outlier_flag_fin data_arr i x mean std Hi Hmean Hstd) as Hflag.
  pose proof (ma_std_nonneg _ _ Hstd) as Hstd0.
  set (flag := bool_decide (Rabs (x - mean) > 3 * std)%R) in *.
  assert (Hdata : zip_with (λ c b, MCell (mdata c) (b || mmask c)) data_arr
                    (outlier_flags data_arr).*1 !! i = Some (MCell (Fin x) flag)).
  { rewrite lookup_zip_with, Hi, list_lookup_fmap, Hflag. simpl.
    by rewrite orb_false_r. }
  assert (Hsigma : ∀ cs, sigma_arr !! i = Some cs →
            zip_with (λ c b, MCell (mdata c) (b || mmask c)) sigma_arr
              (outlier_flags data_arr).*1 !! i
            = Some (MCell (mdata cs) (flag || mmask cs))).
  { intros cs Hcs. by rewrite lookup_zip_with, Hcs, list_lookup_fmap, Hflag. }
  do 6 eexists. split; [exact Hrun|]. cbn [heap].
  split; [by rewrite lookup_insert_eq|].
  split; [by rewrite lookup_insert_ne, lookup_insert_eq|].
  split; [done|]. split; [done|]. split; [done|]. split.
  - intros Hx. assert (flag = false) as Hfl.
    { apply bool_decide_eq_false. intros Hgt.
      destruct Hx as [-> | ->].
      - replace (mean + 3 * std - mean)%R with (3 * std)%R in Hgt by lra.
        rewrite Rabs_pos_eq in Hgt; lra.
      - replace (mean - 3 * std - mean)%R with (- (3 * std))%R in Hgt by lra.
        rewrite Rabs_Ropp, Rabs_pos_eq in Hgt; lra. }
    rewrite Hflag, Hdata, Hfl. done.
  - intros eps Heps Hx. assert (flag = true) as Hfl.
    { apply bool_decide_eq_true.
      destruct Hx as [-> | ->].
      - replace (mean + (3 * std + eps) - mean)%R with (3 * std + eps)%R by lra.
        rewrite Rabs_pos_eq; lra.
      - replace (mean - (3 * std + eps) - mean)%R with (- (3 * std + eps))%R by lra.
        rewrite Rabs_Ropp, Rabs_pos_eq; lra. }
    rewrite Hflag, Hdata, Hfl. split_and!; [done..|].
    assert (is_Some (sigma_arr !! i)) as [cs Hcs].
    { apply lookup_lt_is_Some. rewrite Hlen. by eapply lookup_lt_Some. }
    rewrite (Hsigma cs Hcs), Hfl. done.
Qed.

Lemma three_sqrt_10 : (3 * sqrt 10 < 10)%R.
Proof.
  assert (sqrt 10 < 10 / 3)%R; [|lra].
  replace (10 / 3)%R with (sqrt ((10 / 3) * (10 / 3))) by (apply sqrt_square; lra).
  apply sqrt_lt_1; lra.
Qed.

(** Of ten counts [10, 0, ..., 0] (mean 1, standard deviation 3) the
    first sits exactly at [mean + 3 * std] and is not marked; of eleven
    counts [11, 0, ..., 0] (mean 1, standard deviation [sqrt 10]) the
    first lies beyond and is marked. *)
Lemma C6_three_sigma_witness :
  (∃ data' sigma' outliers st',
     define_delete_out 0 1 (store_of (fin_cells ten_counts) (fin_cells ten_counts))
       = Some ((data', sigma', outliers), st') ∧
     outliers !! 0 = Some (false, false)) ∧
  (∃ data' sigma' outliers st',
     define_delete_out 0 1 (store_of (fin_cells eleven_counts) (fin_cells eleven_counts))
       = Some ((data', sigma', outliers), st') ∧
     outliers !! 0 = Some (true, false)).
Proof.
  split.
  - destruct (C6_three_sigma_test_strict_symmetric
                (store_of (fin_cells ten_counts) (fin_cells ten_counts)) 0 1
                (fin_cells ten_counts) (fin_cells ten_counts) 0 10 1 3)
      as (data' & sigma' & outliers & st' & data_new & sigma_new
          & Hrun & _ & _ & _ & _ & _ & Hat & _).
    + reflexivity.
    + reflexivity.
    + reflexivity.
    + reflexivity.
    + exact ten_counts_mean.
    + exact ten_counts_std.
    + exists data', sigma', outliers, st'. split; [exact Hrun|].
      apply Hat. left. lra.
  - destruct (C6_three_sigma_test_strict_symmetric
                (store_of (fin_cells eleven_counts) (fin_cells eleven_counts)) 0 1
                (fin_cells eleven_counts) (fin_cells eleven_counts) 0 11 1 (sqrt 10))
      as (data' & sigma' & outliers & st' & data_new & sigma_new
          & Hrun & _ & _ & _ & _ & _ & _ & Hbeyond).
    + reflexivity.
    + reflexivity.
    + reflexivity.
    + reflexivity.
    + exact eleven_counts_mean.
    + exact eleven_counts_std.
    + exists data', sigma', outliers, st'. split; [exact Hrun|].
      apply (Hbeyond (10 - 3 * sqrt 10)%R).
      * pose proof three_sqrt_10. lra.
      * left. lra.
Defined.


(** ** C7: the raw-ratio flat-field coefficients *)

Lemma ma_sum_cell_values (a : marray) :
  (∀ i c, a !! i = Some c → mmask c = false → isfinite (mdata c) = true) →
  mdata (ma_sum a) = Fin (foldr Rplus 0%R (cell_value <$> a)).
Proof.
  intros Hfin. rewrite (ma_sum_reals a (cell_value <$> a)); [reflexivity|].
  apply Forall2_fmap_r, Forall_Forall2_diag, Forall_lookup.
  intros i c Hc. unfold compose, cell_value. cbn beta.
  destruct (mmask c) eqn:Hm; [reflexivity|].
  specialize (Hfin i c Hc Hm). by destruct (mdata c).
Qed.

Lemma ma_mean_cell_values (a : marray) (m : R) :
  (∀ i c, a !! i = Some c → mmask c = false → isfinite (mdata c) = true) →
  ma_mean a = unmasked (Fin m) →
  ma_count a ≠ 0 ∧
  m = (foldr Rplus 0%R (cell_value <$> a) * 1 / INR (ma_count a))%R.
Proof.
  intros Hfin. unfold ma_mean. case_decide as Hn; [done|].
  rewrite (ma_sum_cell_values a Hfin). unfold of_nat. cbn [fmul].
  rewrite fdiv_fin by (by apply not_0_INR). by intros [= <-].
Qed.

Lemma foldr_Rplus_div (ts : list R) (m : R) :
  foldr Rplus 0%R ((λ t, t / m)%R <$> ts) = (foldr Rplus 0%R ts / m)%R.
Proof.
  induction ts as [|t ts IH]; [cbn; lra|].
  rewrite fmap_cons. cbn [foldr]. rewrite IH. lra.
Qed.

(** Dividing by a finite non-zero scalar keeps the masks and divides
    the values. *)
Lemma divide_by_scalar_cell (c : mcell) (m : R) :
  m ≠ 0%R → (mmask c = false → isfinite (mdata c) = true) →
  let e := ma_true_divide c (unmasked (Fin m)) in
  mmask e = mmask c ∧ (mmask e = false → mdata e = Fin (cell_value c / m)).
Proof.
  intros Hm Hfin. destruct c as [d [|]].
  - cbn zeta. rewrite (ma_true_divide_masked (MCell d true) (unmasked (Fin m))) by done.
    done.
  - destruct d as [r| | |]; try (by specialize (Hfin eq_refl)).
    cbn zeta. unfold unmasked. rewrite ma_true_divide_fin by done. done.
Qed.

Lemma ma_count_ext (a b : marray) :
  mmask <$> a = mmask <$> b → ma_count a = ma_count b.
Proof.
  unfold ma_count. revert b. induction a as [|c a IH]; intros [|c' b] H;
    simplify_eq/=; [done|].
  rewrite !filter_cons. rewrite <- H. destruct (decide (mmask c = false));
    simpl; by rewrite (IH b).
Qed.

(** C7.  For every input of the raw-ratio calculator whose relative
    signal has finite non-masked values and a finite non-zero mean, the
    coefficients [eff = relative_signal / mean(relative_signal)] have
    mean exactly 1 (in exact arithmetic). *)
Theorem C7_raw_ratio_mean_is_one
    (out : nat → float64) (charges : ndarray) (gains : ndarray2)
    (rs : marray) (m : R) :
  relative_signal out charges gains = Some rs →
  (∀ i c, rs !! i = Some c → mmask c = false → isfinite (mdata c) = true) →
  ma_mean rs = unmasked (Fin m) →
  m ≠ 0%R →
  ∃ eff,
    compute_ff_coefs out charges gains = Some eff ∧
    eff = (λ c, ma_true_divide c (ma_mean rs)) <$> rs ∧
    ma_mean eff = unmasked (Fin 1).
Proof.
  intros Hrs Hfin Hmean Hm.
  unfold compute_ff_coefs. rewrite Hrs. cbn [mbind option_bind].
  eexists. split; [reflexivity|]. split; [reflexivity|].
  rewrite Hmean.
  set (eff := (λ c, ma_true_divide c (unmasked (Fin m))) <$> rs).
  destruct (ma_mean_cell_values rs m Hfin Hmean) as [Hn Hmval].
  assert (Hcells : ∀ i c, rs !! i = Some c →
            let e := ma_true_divide c (unmasked (Fin m)) in
            mmask e = mmask c ∧ (mmask e = false → mdata e = Fin (cell_value c / m))).
  { intros i c Hc. apply divide_by_scalar_cell; [done|]. by apply (Hfin i c). }
  assert (Hcount : ma_count eff = ma_count rs).
  { apply ma_count_ext. unfold eff. rewrite <- list_fmap_compose.
    apply list_eq. intros i. rewrite !list_lookup_fmap.
    destruct (rs !! i) as [c|] eqn:Hc; [|done]. cbn [fmap option_fmap option_map compose].
    by destruct (Hcells i c Hc) as [-> _]. }
  assert (Hsum : ma_sum eff
                 = MCell (Fin (foldr Rplus 0%R ((λ t, t / m)%R <$> (cell_value <$> rs))))
                         (forallb mmask eff)).
  { apply ma_sum_reals. unfold eff. rewrite <- list_fmap_compose.
    apply Forall2_fmap, Forall_Forall2_diag, Forall_lookup. intros i c Hc.
    destruct (Hcells i c Hc) as [Hmask Hdata]. cbn zeta in *.
    unfold compose.
    destruct (mmask (ma_true_divide c (unmasked (Fin m)))) eqn:He.
    - unfold cell_value. rewrite <- Hmask. lra.
    - by apply Hdata. }
  unfold ma_mean. rewrite Hcount, decide_False by done.
  rewrite Hsum. unfold of_nat, unmasked. cbn [mdata fmul].
  rewrite fdiv_fin by (by apply not_0_INR).
  rewrite foldr_Rplus_div. do 2 f_equal.
  assert (INR (ma_count rs) ≠ 0%R) by (by apply not_0_INR).
  rewrite Hmval in Hm |- *. field. split; [done|].
  intros Hz. apply Hm. rewrite Hz. lra.
Qed.

Lemma np_divide_ma_fin (out : float64) (a b : R) :
  b ≠ 0%R →
  np_divide_ma out (unmasked (Fin a)) (unmasked (Fin b)) = unmasked (Fin (a / b)).
Proof.
  intros Hb. unfold np_divide_ma, unmasked, fzero, fne, domain_safe_divide.
  cbn [mmask mdata orb].
  rewrite feq_fin, !bool_decide_eq_false_2 by done. cbn [negb]. by rewrite fdiv_fin.
Qed.

Lemma np_divide_ma_zero (out : float64) (x : float64) (m : bool) :
  x ≠ NaN →
  np_divide_ma out (MCell x m) (unmasked (Fin 0)) = MCell (Fin 1) true.
Proof.
  intros Hx. unfold np_divide_ma, unmasked, fzero, domain_safe_divide.
  cbn [mmask mdata].
  destruct x; try done; rewrite ?bool_decide_eq_true_2 by done;
    by rewrite orb_true_r.
Qed.

Lemma np_divide_ma_where_lookup (out : nat → float64) (a b : marray) (i : nat)
    (x y : mcell) :
  a !! i = Some x → b !! i = Some y →
  np_divide_ma_where out a b !! i = Some (np_divide_ma (out i) x y).
Proof.
  intros Ha Hb. unfold np_divide_ma_where. rewrite list_lookup_imap.
  assert (zip a b !! i = Some (x, y)) as ->; [|done].
  apply lookup_zip_with_Some. by exists x, y.
Qed.

Lemma np_divide_ma_where_length (out : nat → float64) (a b : marray) :
  length (np_divide_ma_where out a b) = length a `min` length b.
Proof. unfold np_divide_ma_where. by rewrite length_imap, length_zip_with. Qed.

Lemma three_pixels_relative_signal (out : nat → float64) :
  relative_signal out three_charges three_gains
  = Some [MCell (Fin (2 / 1)) false; MCell (Fin (4 / 1)) false; MCell (Fin 1) true].
Proof.
  unfold relative_signal, three_charges, three_gains, np_column0, ma_of,
    np_divide_ma_where.
  cbn [rows2 mapM lookup list_lookup mbind option_bind mret option_ret fmap
       list_fmap zip_with imap fst snd compose].
  rewrite !np_divide_ma_fin by lra.
  change (unmasked (Fin 5)) with (MCell (Fin 5) false).
  by rewrite np_divide_ma_zero.
Qed.

Lemma three_pixels_mean :
  ma_mean [MCell (Fin (2 / 1)) false; MCell (Fin (4 / 1)) false; MCell (Fin 1) true]
  = unmasked (Fin 3).
Proof.
  unfold ma_mean.
  assert (ma_count [MCell (Fin (2 / 1)) false; MCell (Fin (4 / 1)) false;
                    MCell (Fin 1) true] = 2) as -> by (vm_compute; reflexivity).
  rewrite decide_False by lia.
  unfold ma_sum, of_nat. cbn [forallb mmask andb unmasked mdata ma_filled0 fmap list_fmap
                              np_sum foldr fadd fzero fmul].
  rewrite fdiv_fin by (apply not_0_INR; lia).
  do 2 f_equal. rewrite INR_IZR_INZ. change (Z.of_nat 2) with 2%Z. lra.
Qed.

(** Charges 2, 4, 5 with gains 1, 1, 0: the relative signal is 2, 4 and
    a masked entry, its mean 3, and the coefficients 2/3 and 4/3 have
    mean 1. *)
Lemma C7_raw_ratio_witness :
  ∃ eff, compute_ff_coefs (λ _, NaN) three_charges three_gains = Some eff ∧
         ma_mean eff = unmasked (Fin 1).
Proof.
  destruct (C7_raw_ratio_mean_is_one (λ _, NaN) three_charges three_gains
              [MCell (Fin (2 / 1)) false; MCell (Fin (4 / 1)) false; MCell (Fin 1) true] 3)
    as (eff & Heff & _ & Hmean).
  - exact (three_pixels_relative_signal _).
  - intros [|[|[|i]]] c Hc Hm; simplify_eq/=; done.
  - exact three_pixels_mean.
  - lra.
  - exists eff. by split.
Defined.

(** ** C8: the uncertainty of the model-based coefficients *)

Lemma np_sqrt_ma_fin (a : R) :
  (0 <= a)%R → np_sqrt_ma (MCell (Fin a) false) = MCell (Fin (sqrt a)) false.
Proof.
  intros Ha. unfold np_sqrt_ma, fzero. cbn [mmask mdata orb flt].
  rewrite bool_decide_eq_false_2 by lra. unfold unmasked. by rewrite fsqrt_fin.
Qed.

(** C8.  For every pixel whose observed count is not masked, with
    finite inputs and a non-zero model value, [compute_ff_coefs_model]
    returns the coefficient [data / model] and the uncertainty
    [sqrt((data_std / model)^2 + (data * model_std / model^2)^2)]. *)
Theorem C8_model_based_uncertainty
    (out : nat → float64) (data : marray) (data_std model_ model_std : ndarray)
    (i : nat) (d ds m ms : R) :
  data !! i = Some (MCell (Fin d) false) →
  data_std !! i = Some (Fin ds) →
  model_ !! i = Some (Fin m) →
  model_std !! i = Some (Fin ms) →
  m ≠ 0%R →
  (compute_ff_coefs_model out data data_std model_ model_std).1 !! i
    = Some (MCell (Fin (d / m)) false) ∧
  (compute_ff_coefs_model out data data_std model_ model_std).2 !! i
    = Some (MCell (Fin (sqrt ((ds / m) ^ 2 + (d * ms / m ^ 2) ^ 2))) false).
Proof.
  intros Hd Hds Hm Hms Hm0. unfold compute_ff_coefs_model, ma_of. cbn [fst snd].
  split.
  - rewrite (np_divide_ma_where_lookup _ _ _ i _ (unmasked (Fin m)) Hd)
      by (by rewrite list_lookup_fmap, Hm).
    f_equal. apply (np_divide_ma_fin _ d m Hm0).
  - rewrite list_lookup_fmap, lookup_zip_with, !list_lookup_fmap, !lookup_zip_with.
    rewrite ?list_lookup_fmap, ?lookup_zip_with, ?list_lookup_fmap.
    rewrite ?Hd, ?Hds, ?Hm, ?Hms.
    cbn [fmap option_fmap option_map mbind option_bind].
    unfold unmasked, fsquare. rewrite fdiv_fin by done. cbn [fmul].
    assert (Hmm : (m * m)%R ≠ 0%R) by nra.
    repeat first [ rewrite ma_binop_fin | rewrite ma_power2_fin
                 | rewrite ma_true_divide_fin by done
                 | progress cbn [fmul fadd] ].
    rewrite np_sqrt_ma_fin by nra.
    do 4 f_equal. ring_simplify. field. done.
Qed.

Lemma sqrt_bounds (a lo hi : R) :
  (0 <= lo)%R → (lo * lo < a)%R → (a < hi * hi)%R → (0 <= hi)%R →
  (lo < sqrt a < hi)%R.
Proof.
  intros Hlo H1 H2 Hhi. split.
  - rewrite <- (sqrt_square lo) by done. apply sqrt_lt_1; nra.
  - rewrite <- (sqrt_square hi) by done. apply sqrt_lt_1; nra.
Qed.

(** The example of the specification: model 1, observed count 1 with
    uncertainty 0.1, model uncertainty 0.05.  The uncertainty of the
    coefficient is [sqrt(0.1^2 + 0.05^2)], which lies between 0.1118 and
    0.1119. *)
Lemma C8_model_based_uncertainty_witness :
  (compute_ff_coefs_model (λ _, NaN) [MCell (Fin 1) false] [Fin 0.1] [Fin 1] [Fin 0.05]).2
    !! 0
    = Some (MCell (Fin (sqrt ((0.1 / 1) ^ 2 + (1 * 0.05 / 1 ^ 2) ^ 2))) false) ∧
  sqrt ((0.1 / 1) ^ 2 + (1 * 0.05 / 1 ^ 2) ^ 2) = sqrt (0.1 ^ 2 + 0.05 ^ 2) ∧
  (0.1118 < sqrt (0.1 ^ 2 + 0.05 ^ 2) < 0.1119)%R.
Proof.
  split; [|split].
  - refine (proj2 (C8_model_based_uncertainty (λ _, NaN)
                     [MCell (Fin 1) false] [Fin 0.1] [Fin 1] [Fin 0.05]
                     0 1 0.1 1 0.05 _ _ _ _ _)); try reflexivity.
    lra.
  - f_equal. lra.
  - apply sqrt_bounds; lra.
Defined.


(** ** numpy's cumulative histogram *)

Lemma Rsum_cons (x : R) (l : list R) : Rsum (x :: l) = (x + Rsum l)%R.
Proof. done. Qed.

Lemma Rsum_Permutation (l k : list R) : l ≡ₚ k → Rsum l = Rsum k.
Proof.
  induction 1 as [|x l k _ IH|x y l|l k j _ IH1 _ IH2]; rewrite ?Rsum_cons.
  - done.
  - by rewrite IH.
  - lra.
  - by rewrite IH1.
Qed.

Lemma sort_le_trans (x y z : float64) :
  sort_le x y = true → sort_le y z = true → sort_le x z = true.
Proof.
  unfold sort_le, sort_lt, flt.
  destruct x, y, z; cbn; try done; repeat case_bool_decide; try done; lra.
Qed.

Lemma sort_le_total (x y : float64) : sort_le x y = true ∨ sort_le y x = true.
Proof.
  unfold sort_le, sort_lt, flt.
  destruct x, y; cbn; auto; repeat case_bool_decide; auto; lra.
Qed.

Lemma sort_lt_le_trans (x y v : float64) :
  sort_le x y = true → sort_lt y v = true → sort_lt x v = true.
Proof.
  unfold sort_le, sort_lt, flt.
  destruct x, y, v; cbn; try done; repeat case_bool_decide; try done; lra.
Qed.

Lemma sample_le_trans : Transitive sample_le.
Proof. intros p q r. unfold sample_le, float_le. apply sort_le_trans. Qed.

Lemma sample_le_total : Total sample_le.
Proof. intros p q. unfold sample_le, float_le. apply sort_le_total. Qed.

Lemma float_le_trans : Transitive float_le.
Proof. intros p q r. unfold float_le. apply sort_le_trans. Qed.

Lemma float_le_total : Total float_le.
Proof. intros p q. unfold float_le. apply sort_le_total. Qed.

#[local] Existing Instance sample_le_trans.
#[local] Existing Instance sample_le_total.
#[local] Existing Instance float_le_trans.
#[local] Existing Instance float_le_total.

Lemma filter_none {A : Type} (P : A → Prop) `{!∀ x, Decision (P x)} (l : list A) :
  Forall (λ x, ¬ P x) l → filter P l = [].
Proof.
  induction 1 as [|x l Hx _ IH]; [done|].
  by rewrite filter_cons, decide_False.
Qed.

(** In a sorted list the elements that satisfy a downward closed
    predicate form a prefix. *)
Lemma sorted_filter_prefix {A : Type} (R : relation A) (P : A → Prop)
    `{!∀ x, Decision (P x)} (l : list A) :
  StronglySorted R l →
  (∀ x y, R x y → P y → P x) →
  filter P l = take (length (filter P l)) l.
Proof.
  intros Hs Hdown. induction Hs as [|x l Hs IH Hx]; [done|].
  rewrite filter_cons. destruct (decide (P x)) as [Hp|Hp].
  - cbn [length take]. by rewrite <- IH.
  - assert (filter P l = []) as ->; [|done].
    apply filter_none.
    rewrite Forall_forall in Hx. apply Forall_forall. intros y Hy Hpy.
    apply Hp. by apply (Hdown x y); [apply Hx|].
Qed.

(** The side of an edge, as a predicate on samples. *)
Lemma searchsorted_samples (l : list (float64 * float64)) (v : float64) (right : bool) :
  np_searchsorted l.*1 v right
  = length (filter (λ p : float64 * float64,
                      (if right then sort_le p.1 v else sort_lt p.1 v) = true) l).
Proof.
  unfold np_searchsorted. induction l as [|p l IH]; [done|].
  rewrite fmap_cons, !filter_cons. 
  destruct (decide ((if right then sort_le p.1 v else sort_lt p.1 v) = true));
    cbn [length]; by rewrite IH.
Qed.



Lemma np_cumsum_from_length (acc : float64) (w : ndarray) :
  length (np_cumsum_from acc w) = length w.
Proof. revert acc. induction w as [|x w IH]; intros acc; [done|]. cbn. by rewrite IH. Qed.

Lemma np_cumsum_length (w : ndarray) : length (np_cumsum w) = length w.
Proof. destruct w; [done|]. cbn. by rewrite np_cumsum_from_length. Qed.

(** The running sums after a [nan]. *)
Lemma np_cumsum_from_nan (w : ndarray) (k : nat) :
  k < length w → np_cumsum_from NaN w !! k = Some NaN.
Proof.
  revert k. induction w as [|x w IH]; intros k Hk; [simpl in Hk; lia|].
  cbn [np_cumsum_from]. assert (fadd NaN x = NaN) as -> by (by destruct x).
  destruct k; [done|]. apply IH. simpl in Hk. lia.
Qed.

Lemma np_cumsum_from_has_nan (acc : float64) (w : ndarray) (k : nat) :
  k < length w → NaN ∈ take (S k) w → np_cumsum_from acc w !! k = Some NaN.
Proof.
  revert acc k. induction w as [|x w IH]; intros acc k Hk Hin; [simpl in Hk; lia|].
  cbn [np_cumsum_from]. cbn [take] in Hin. apply elem_of_cons in Hin as [<-|Hin].
  - assert (fadd acc NaN = NaN) as -> by (by destruct acc).
    destruct k; [done|]. apply np_cumsum_from_nan. simpl in Hk. lia.
  - destruct k as [|k]; [by apply elem_of_nil in Hin|].
    apply IH; [simpl in Hk; lia|done].
Qed.

Lemma cumulative_weights_nan (w : ndarray) (k : nat) :
  k ≤ length w → NaN ∈ take k w → (fzero :: np_cumsum w) !! k = Some NaN.
Proof.
  intros Hk Hin. destruct k as [|k]; [by apply elem_of_nil in Hin|].
  destruct w as [|x w]; [by apply elem_of_nil in Hin|].
  cbn [np_cumsum lookup list_lookup]. cbn [take] in Hin.
  apply elem_of_cons in Hin as [<-|Hin].
  - destruct k; [done|]. apply np_cumsum_from_nan. simpl in Hk. lia.
  - destruct k as [|k]; [by apply elem_of_nil in Hin|].
    apply np_cumsum_from_has_nan; [simpl in Hk; lia|done].
Qed.

Local Abbreviation below v right :=
  (λ p : float64 * float64, (if right then sort_le p.1 v else sort_lt p.1 v) = true).

Lemma below_down (v : float64) (right : bool) (p q : float64 * float64) :
  sample_le p q → below v right q → below v right p.
Proof.
  unfold sample_le, float_le. destruct right; cbn beta.
  - apply sort_le_trans.
  - apply sort_lt_le_trans.
Qed.

(** The position of an edge among the sorted samples, and the sorted
    samples before it. *)
Lemma edge_position (a w : ndarray) (v : float64) (right : bool) :
  let l := merge_sort sample_le (zip a w) in
  let k := np_searchsorted l.*1 v right in
  k = length (filter (below v right) l) ∧
  k ≤ length l.*2 ∧
  take k l = filter (below v right) l.
Proof.
  intros l k. unfold k. rewrite searchsorted_samples. split; [done|]. split.
  - rewrite length_fmap. apply length_filter.
  - symmetry. apply (sorted_filter_prefix sample_le).
    + apply (StronglySorted_merge_sort _).
    + intros p q. apply below_down.
Qed.

Lemma search_sorted_inclusive_lookup (sa edges : ndarray) (k : nat) (v : float64) :
  edges !! k = Some v →
  search_sorted_inclusive sa edges !! k
  = Some (np_searchsorted sa v (bool_decide (S k = length edges))).
Proof.
  intros Hv. unfold search_sorted_inclusive. by rewrite list_lookup_imap, Hv.
Qed.

Lemma np_diff_lookup (c : ndarray) (j : nat) (lo hi : float64) :
  c !! j = Some lo → c !! S j = Some hi → np_diff c !! j = Some (fsub hi lo).
Proof.
  intros Hlo Hhi. unfold np_diff. rewrite lookup_zip_with, Hlo. cbn [mbind option_bind].
  by rewrite lookup_tail, Hhi.
Qed.

Lemma np_diff_length (c : ndarray) : length (np_diff c) = length c - 1.
Proof. unfold np_diff. rewrite length_zip_with, length_tl. lia. Qed.

(** [np_histogram_weights] raises only on the shapes and on the order
    of the edges. *)
Lemma np_histogram_weights_total (a edges w : ndarray) :
  length w = length a → np_edges_increase edges = true →
  is_Some (np_histogram_weights a edges w).
Proof.
  intros Hlen Hinc. unfold np_histogram_weights.
  rewrite decide_True, Hinc by done.
  set (l := merge_sort sample_le (zip a w)).
  assert (Hsome : is_Some (np_take (fzero :: np_cumsum l.*2)
                             (search_sorted_inclusive l.*1 edges))).
  { unfold np_take. apply mapM_is_Some_2, Forall_forall. intros i Hi.
    apply elem_of_lookup_imap_1 in Hi as (k & v & -> & Hv).
    apply lookup_lt_is_Some. cbn [length]. rewrite np_cumsum_length.
    destruct (edge_position a w v (bool_decide (S k = length edges))) as (_ & Hle & _).
    fold l in Hle. lia. }
  destruct Hsome as [cum Hcum]. rewrite Hcum. done.
Qed.

(** The sum of bin [j]: the difference of the running sums at the
    positions of its two edges. *)
Lemma np_histogram_weights_inv (a edges w sums : ndarray) :
  np_histogram_weights a edges w = Some sums →
  length w = length a ∧ np_edges_increase edges = true ∧
  length sums = length edges - 1 ∧
  ∀ j lo hi, edges !! j = Some lo → edges !! S j = Some hi →
    let l := merge_sort sample_le (zip a w) in
    let cw := fzero :: np_cumsum l.*2 in
    ∃ clo chi,
      cw !! length (filter (below lo false) l) = Some clo ∧
      cw !! length (filter (below hi (bool_decide (S (S j) = length edges))) l)
        = Some chi ∧
      sums !! j = Some (fsub chi clo).
Proof.
  unfold np_histogram_weights. case_decide as Hlen; [|done].
  destruct (np_edges_increase edges) eqn:Hinc; [|done].
  set (l := merge_sort sample_le (zip a w)).
  destruct (np_take _ _) as [cum|] eqn:Hcum; [|done].
  cbn [mbind option_bind]. intros [= <-].
  unfold np_take in Hcum. pose proof (mapM_Some_1 _ _ _ Hcum) as HF.
  assert (Hl : length cum = length edges).
  { rewrite <- (Forall2_length _ _ _ HF). unfold search_sorted_inclusive.
    by rewrite length_imap. }
  split_and!; [done..|by rewrite np_diff_length, Hl|].
  intros j lo hi Hlo Hhi. cbn zeta.
  pose proof (search_sorted_inclusive_lookup l.*1 edges j lo Hlo) as Ilo.
  pose proof (search_sorted_inclusive_lookup l.*1 edges (S j) hi Hhi) as Ihi.
  rewrite bool_decide_eq_false_2 in Ilo
    by (apply lookup_lt_Some in Hhi; lia).
  destruct (Forall2_lookup_l _ _ _ _ _ HF Ilo) as (clo & Hclo & Eclo).
  destruct (Forall2_lookup_l _ _ _ _ _ HF Ihi) as (chi & Hchi & Echi).
  rewrite searchsorted_samples in Eclo, Echi.
  exists clo, chi. split_and!; [done..|].
  by apply np_diff_lookup.
Qed.




Lemma length_filter_split {A : Type} (P Q B : A → Prop)
    `{!∀ x, Decision (P x)} `{!∀ x, Decision (Q x)} `{!∀ x, Decision (B x)}
    (l : list A) :
  (∀ x, P x → Q x) → (∀ x, B x ↔ Q x ∧ ¬ P x) →
  length (filter Q l) = length (filter P l) + length (filter B l).
Proof.
  intros HPQ HB. induction l as [|x l IH]; [done|].
  rewrite !filter_cons.
  destruct (decide (P x)) as [Hp|Hp], (decide (Q x)) as [Hq|Hq],
    (decide (B x)) as [Hb|Hb]; cbn [length]; rewrite ?IH; try lia.
  - by destruct (proj1 (HB x) Hb).
  - by destruct Hq; apply HPQ.
  - by destruct Hq; apply HPQ.
  - by destruct Hb; apply HB.
  - by destruct (proj1 (HB x) Hb).
Qed.

Lemma edges_increase_lookup (edges : ndarray) (j : nat) (lo hi : float64) :
  np_edges_increase edges = true →
  edges !! j = Some lo → edges !! S j = Some hi → fgt lo hi = false.
Proof.
  unfold np_edges_increase. intros Hall Hlo Hhi.
  apply Is_true_true, forallb_True in Hall.
  rewrite Forall_lookup in Hall.
  specialize (Hall j (lo, hi)). cbn [fst snd] in Hall.
  apply negb_true_iff, Is_true_true, Hall.
  apply lookup_zip_with_Some. exists lo, hi. by rewrite lookup_tail.
Qed.

(** Between finite edges, the samples of bin [j] are those before the
    upper edge that are not before the lower edge. *)
Lemma in_bin_sides (edges : ndarray) (j : nat) (lo hi : R) (x : float64) :
  edges !! j = Some (Fin lo) → edges !! S j = Some (Fin hi) →
  fgt (Fin lo) (Fin hi) = false →
  let last := bool_decide (S (S j) = length edges) in
  (sort_lt x (Fin lo) = true →
   (if last then sort_le x (Fin hi) else sort_lt x (Fin hi)) = true) ∧
  (in_bin edges j x = true ↔
   (if last then sort_le x (Fin hi) else sort_lt x (Fin hi)) = true ∧
   ¬ sort_lt x (Fin lo) = true).
Proof.
  intros Hlo Hhi Hinc. cbn zeta. unfold in_bin. rewrite Hlo, Hhi.
  unfold fgt, flt in Hinc. apply bool_decide_eq_false in Hinc.
  destruct (decide (S (S j) = length edges)) as [Hl|Hl].
  - rewrite bool_decide_eq_true_2 by done.
    unfold fle, sort_le, sort_lt, flt, feq.
    destruct x; cbn; repeat case_bool_decide; split; try done;
      try (intros []; done); try (split; [done|]; intros []; lra); try lra;
      try (split; intros; [split; [done|intros ?; lra]|done]).
  - rewrite bool_decide_eq_false_2 by done.
    unfold fle, sort_le, sort_lt, flt, feq.
    destruct x; cbn; repeat case_bool_decide; split; try done;
      try (intros []; done); try (split; [done|]; intros []; lra); try lra;
      try (split; intros; [split; [done|intros ?; lra]|done]).
Qed.


(** A weight that is [nan] reaches the sum of every bin whose upper
    edge lies beyond its sample. *)
Lemma np_histogram_weights_nan (a edges w sums : ndarray) (j : nat)
    (lo hi x0 : float64) :
  np_histogram_weights a edges w = Some sums →
  edges !! j = Some lo → edges !! S j = Some hi →
  (x0, NaN) ∈ zip a w →
  (if bool_decide (S (S j) = length edges) then sort_le x0 hi else sort_lt x0 hi)
    = true →
  sums !! j = Some NaN.
Proof.
  intros Hs Hlo Hhi Hin Hx0.
  destruct (np_histogram_weights_inv _ _ _ _ Hs) as (Hlen & Hinc & _ & Hj).
  destruct (Hj j _ _ Hlo Hhi) as (clo & chi & Hclo & Hchi & ->). clear Hj.
  set (l := merge_sort sample_le (zip a w)) in *.
  set (last := bool_decide (S (S j) = length edges)) in *.
  destruct (edge_position a w hi last) as (Hk & Hkle & Htake).
  fold l in Hk, Hkle, Htake. rewrite Hk in Htake, Hkle.
  rewrite cumulative_weights_nan in Hchi; [|done|].
  - injection Hchi as <-. by destruct clo.
  - rewrite <- fmap_take, Htake.
    apply list_elem_of_fmap. exists (x0, NaN). split; [done|].
    apply list_elem_of_filter. split; [done|].
    unfold l. by rewrite merge_sort_Permutation.
Qed.

(** The number of samples per bin. *)
Lemma np_histogram_inv (a edges : ndarray) (count : list Z) :
  np_histogram a edges = Some count →
  np_edges_increase edges = true ∧
  length count = length edges - 1 ∧
  ∀ j lo hi, edges !! j = Some (Fin lo) → edges !! S j = Some (Fin hi) →
    count !! j
    = Some (Z.of_nat (length (filter (λ x, in_bin edges j x = true) a))).
Proof.
  unfold np_histogram. destruct (np_edges_increase edges) eqn:Hinc; [|done].
  intros [= <-]. split; [done|]. split.
  { rewrite length_zip_with, length_tl, length_fmap.
    unfold search_sorted_inclusive. rewrite length_imap. lia. }
  intros j lo hi Hlo Hhi.
  pose proof (edges_increase_lookup _ _ _ _ Hinc Hlo Hhi) as Hle.
  rewrite lookup_zip_with, lookup_tail, !list_lookup_fmap.
  rewrite (search_sorted_inclusive_lookup _ _ _ _ Hlo),
          (search_sorted_inclusive_lookup _ _ _ _ Hhi).
  rewrite (bool_decide_eq_false_2 (S j = length edges))
    by (apply lookup_lt_Some in Hhi; lia).
  cbn [fmap option_fmap option_map mbind option_bind]. f_equal.
  unfold np_searchsorted, np_sort.
  rewrite !(Permutation_length (filter_Permutation _ _ _ (merge_sort_Permutation _ a))).
  rewrite (length_filter_split
             (λ x, sort_lt x (Fin lo) = true)
             (λ x, (if bool_decide (S (S j) = length edges)
                    then sort_le x (Fin hi) else sort_lt x (Fin hi)) = true)
             (λ x, in_bin edges j x = true) a).
  - lia.
  - intros x. apply (in_bin_sides edges j lo hi x Hlo Hhi Hle).
  - intros x. apply (in_bin_sides edges j lo hi x Hlo Hhi Hle).
Qed.

Lemma np_histogram_total (a edges : ndarray) :
  np_edges_increase edges = true → is_Some (np_histogram a edges).
Proof. intros Hinc. unfold np_histogram. by rewrite Hinc. Qed.

(** ** C9: rebinning by angular distance *)

Lemma bin_members_length (edges : ndarray) (j : nat) (a w : ndarray) :
  length w = length a →
  length (bin_members edges j a w)
  = length (filter (λ x, in_bin edges j x = true) a).
Proof.
  unfold bin_members. rewrite length_fmap.
  revert w. induction a as [|x a IH]; intros [|y w] Hlen; simplify_eq/=; [done|].
  rewrite !filter_cons. cbn [fst].
  destruct (decide (in_bin edges j x = true)); simpl; by rewrite IH.
Qed.

Lemma np_where_mean_lookup (total : ndarray) (count : list Z)
    (j : nat) (s : float64) (n : nat) :
  total !! j = Some s → count !! j = Some (Z.of_nat n) →
  np_where_mean total count !! j
  = Some (if decide (0 < n) then fdiv s (of_nat n) else NaN).
Proof.
  intros Hs Hc. unfold np_where_mean. rewrite lookup_zip_with, Hs, Hc.
  cbn [mbind option_bind]. f_equal.
  assert (of_int (Z.of_nat n) = of_nat n) as ->.
  { unfold of_int, of_nat. by rewrite INR_IZR_INZ. }
  destruct (decide (0 < n)); [by rewrite decide_True by lia|by rewrite decide_False by lia].
Qed.

Lemma np_arange_inv (start stop step : float64) (bins : ndarray) :
  np_arange start stop step = Some bins →
  ∃ a b s, start = Fin a ∧ stop = Fin b ∧ step = Fin s ∧ s ≠ 0%R ∧
           bins = (λ k : nat, Fin (a + INR k * s)) <$>
                    seq 0 (Z.to_nat (Rceil ((b - a) / s))).
Proof.
  unfold np_arange. destruct start as [a| | |], stop as [b| | |], step as [s| | |];
    try done.
  case_bool_decide as Hs; [done|]. intros [= <-]. by exists a, b, s.
Qed.

Lemma np_arange_edge (start stop step : float64) (bins : ndarray) (j : nat) :
  np_arange start stop step = Some bins → j < length bins →
  ∃ e, bins !! j = Some (Fin e).
Proof.
  intros (a & b & s & _ & _ & _ & _ & ->)%np_arange_inv Hj.
  rewrite length_fmap, length_seq in Hj.
  eexists. by rewrite list_lookup_fmap, lookup_seq_lt.
Qed.

Lemma rebin_by_theta_spec (theta y yerr centers ry rye : ndarray) :
  rebin_by_theta theta y yerr = Some (centers, ry, rye) →
  ∃ lo hi bins sum_y sum_e,
    np_min theta = Some lo ∧ np_max theta = Some hi ∧
    np_arange lo (fadd hi (Fin 0.1)) (Fin 0.1) = Some bins ∧
    np_histogram_weights theta bins y = Some sum_y ∧
    np_histogram_weights theta bins yerr = Some sum_e ∧
    length ry = length bins - 1 ∧ length rye = length bins - 1 ∧
    ∀ j, j < length bins - 1 →
      let count := length (filter (λ x, in_bin bins j x = true) theta) in
      length (bin_members bins j theta y) = count ∧
      length (bin_members bins j theta yerr) = count ∧
      ∃ sy se,
        sum_y !! j = Some sy ∧ sum_e !! j = Some se ∧
        ry !! j = Some (if decide (0 < count) then fdiv sy (of_nat count) else NaN) ∧
        rye !! j = Some (if decide (0 < count) then fdiv se (of_nat count) else NaN).
Proof.
  unfold rebin_by_theta. intros H.
  destruct (np_min theta) as [lo|] eqn:Hlo; [|done].
  destruct (np_max theta) as [hi|] eqn:Hhi; [|done]. cbn [mbind option_bind] in H.
  destruct (np_arange lo (fadd hi (Fin 0.1)) (Fin 0.1)) as [bins|] eqn:Hbins; [|done].
  cbn [mbind option_bind] in H.
  destruct (np_histogram_weights theta bins y) as [sum_y|] eqn:Hy; [|done].
  destruct (np_histogram_weights theta bins yerr) as [sum_e|] eqn:He; [|done].
  cbn [mbind option_bind] in H.
  destruct (np_histogram theta bins) as [count|] eqn:Hc; [|done].
  cbn [mbind option_bind] in H. injection H as <- <- <-.
  destruct (np_histogram_weights_inv _ _ _ _ Hy) as (Ly & _ & Ly' & _).
  destruct (np_histogram_weights_inv _ _ _ _ He) as (Le & _ & Le' & _).
  destruct (np_histogram_inv _ _ _ Hc) as (_ & Lc & Sc).
  exists lo, hi, bins, sum_y, sum_e. split_and!; try done.
  - unfold np_where_mean. rewrite length_zip_with. lia.
  - unfold np_where_mean. rewrite length_zip_with. lia.
  - intros j Hj. cbn zeta.
    destruct (np_arange_edge _ _ _ _ j Hbins) as [elo Helo]; [lia|].
    destruct (np_arange_edge _ _ _ _ (S j) Hbins) as [ehi Hehi]; [lia|].
    destruct (lookup_lt_is_Some_2 sum_y j) as [sy Hsy]; [lia|].
    destruct (lookup_lt_is_Some_2 sum_e j) as [se Hse]; [lia|].
    split_and!; [by apply bin_members_length..|].
    exists sy, se. split_and!; [done..| |].
    + apply np_where_mean_lookup; [done|]. by apply (Sc j elo ehi).
    + apply np_where_mean_lookup; [done|]. by apply (Sc j elo ehi).
Qed.


(** ** The rebinning returns a result *)

Lemma Rceil_unique (r : R) (z : Z) :
  (IZR z - 1 < r)%R → (r <= IZR z)%R → Rceil r = z.
Proof.
  intros H1 H2. unfold Rceil.
  assert (up (- r) = (1 - z)%Z) as ->; [|lia].
  symmetry. apply tech_up; rewrite minus_IZR; lra.
Qed.


Lemma two_pixel_min : np_min [Fin 0; Fin (1 / 4)] = Some (Fin 0).
Proof. unfold np_min, foldl, fmin, flt. by real_decide. Qed.

Lemma two_pixel_max : np_max [Fin 0; Fin (1 / 4)] = Some (Fin (1 / 4)).
Proof. unfold np_max, foldl, fmax, flt. by real_decide. Qed.

Lemma two_pixel_arange :
  np_arange (Fin 0) (fadd (Fin (1 / 4)) (Fin 0.1)) (Fin 0.1) = Some two_pixel_bins.
Proof.
  unfold np_arange. cbn [fadd]. real_decide.
  rewrite (Rceil_unique _ 4) by lra. reflexivity.
Qed.

Lemma two_pixel_edges_increase : np_edges_increase two_pixel_bins = true.
Proof.
  unfold np_edges_increase, two_pixel_bins, fgt, flt.
  cbn [tail zip zip_with forallb fst snd]. by real_decide.
Qed.

Lemma two_pixel_in_bin (j : nat) (x : R) :
  in_bin two_pixel_bins j (Fin x)
  = match j with
    | 0 => bool_decide (0 <= x)%R && bool_decide (x < 0.1)%R
    | 1 => bool_decide (0.1 <= x)%R && bool_decide (x < 0.2)%R
    | 2 => bool_decide (0.2 <= x)%R && bool_decide (x <= 0.3)%R
    | _ => false
    end.
Proof.
  unfold in_bin, two_pixel_bins.
  destruct j as [|[|[|[|j]]]]; cbn [lookup list_lookup length]; try done.
  - rewrite decide_False by lia. rewrite fle_fin. unfold flt.
    f_equal; apply bool_decide_ext; simpl; lra.
  - rewrite decide_False by lia. rewrite fle_fin. unfold flt.
    f_equal; apply bool_decide_ext; simpl; lra.
  - rewrite decide_True by lia. rewrite !fle_fin.
    f_equal; apply bool_decide_ext; simpl; lra.
Qed.


Lemma two_pixel_rebin_total (y yerr : ndarray) :
  length y = 2 → length yerr = 2 →
  is_Some (rebin_by_theta [Fin 0; Fin (1 / 4)] y yerr).
Proof.
  intros Hy He. unfold rebin_by_theta. rewrite two_pixel_min, two_pixel_max.
  cbn [mbind option_bind]. rewrite two_pixel_arange. cbn [mbind option_bind].
  destruct (np_histogram_weights_total [Fin 0; Fin (1 / 4)] two_pixel_bins y)
    as [sum_y ->]; [done|exact two_pixel_edges_increase|].
  destruct (np_histogram_weights_total [Fin 0; Fin (1 / 4)] two_pixel_bins yerr)
    as [sum_e ->]; [done|exact two_pixel_edges_increase|].
  cbn [mbind option_bind].
  destruct (np_histogram_total [Fin 0; Fin (1 / 4)] two_pixel_bins)
    as [count ->]; [exact two_pixel_edges_increase|].
  done.
Qed.

Lemma two_pixel_rebin :
  is_Some (rebin_by_theta [Fin 0; Fin (1 / 4)] [Fin 2; Fin 4]
                          (fsqrt <$> [Fin 1; Fin 9])).
Proof. by apply two_pixel_rebin_total. Qed.





(** ** C10: the first fit leaves the caller's arrays alone *)

Lemma bind_Some {A B : Type} (m : M A) (f : A → M B) (st st' : pystate) (y : B) :
  (m ≫= f) st = Some (y, st') ↔
  ∃ x st1, m st = Some (x, st1) ∧ f x st1 = Some (y, st').
Proof.
  unfold mbind, M_bind. split.
  - destruct (m st) as [[x st1]|]; [|done]. intros H. by exists x, st1.
  - intros (x & st1 & -> & H). done.
Qed.

Lemma lift_Some {A : Type} (o : option A) (st st' : pystate) (x : A) :
  lift o st = Some (x, st') ↔ o = Some x ∧ st' = st.
Proof.
  unfold lift. destruct o; split; try done.
  - by intros [= -> ->].
  - by intros [[= ->] ->].
  - by intros [? _].
Qed.

Lemma ma_new_inv (a : marray) (st st' : pystate) (l : nat) :
  ma_new a st = Some (l, st') →
  st' = PyState (<[l := a]> (heap st)) (dict_missing_pix st) ∧ heap st !! l = None.
Proof.
  destruct (ma_new_spec a st) as (l' & -> & Hfresh). by intros [= <- <-].
Qed.

Lemma extends_refl (st : pystate) : extends st st.
Proof. by split. Qed.

Lemma extends_trans (st1 st2 st3 : pystate) :
  extends st1 st2 → extends st2 st3 → extends st1 st3.
Proof. intros [D1 H1] [D2 H2]. split; [congruence|]. eauto. Qed.

Lemma ma_new_extends (a : marray) (st st' : pystate) (l : nat) :
  ma_new a st = Some (l, st') →
  extends st st' ∧ heap st !! l = None ∧ heap st' !! l = Some a.
Proof.
  intros [-> Hfresh]%ma_new_inv. split_and!; [|done|].
  - split; [done|]. intros l' a' Hl'. cbn [heap].
    rewrite lookup_insert_ne; [done|]. intros <-. congruence.
  - cbn [heap]. by rewrite lookup_insert_eq.
Qed.

Lemma define_delete_out_inv (sigma data : nat) (st st' : pystate)
    (data' sigma' : nat) (outliers : list (bool * bool)) :
  define_delete_out sigma data st = Some ((data', sigma', outliers), st') →
  ∃ sigma_arr data_arr sigma_new data_new,
    heap st !! sigma = Some sigma_arr ∧ heap st !! data = Some data_arr ∧
    outliers = outlier_flags data_arr ∧
    ma_masked_array sigma_arr outliers.*1 = Some sigma_new ∧
    ma_masked_array data_arr outliers.*1 = Some data_new ∧
    extends st st' ∧
    heap st !! sigma' = None ∧ heap st !! data' = None ∧
    heap st' !! sigma' = Some sigma_new ∧ heap st' !! data' = Some data_new.
Proof.
  unfold define_delete_out. intros H.
  apply bind_Some in H as (data_arr & st1 & [-> Hd]%ma_read_inv & H).
  apply bind_Some in H as (sigma_arr & st1 & [-> Hs]%ma_read_inv & H).
  apply bind_Some in H as (sigma_new & st1 & [Hsn ->]%lift_Some & H).
  apply bind_Some in H as (sl & st1 & (E1 & F1 & L1)%ma_new_extends & H).
  apply bind_Some in H as (data_new & st2 & [Hdn ->]%lift_Some & H).
  apply bind_Some in H as (dl & st2 & (E2 & F2 & L2)%ma_new_extends & H).
  injection H as <- <- <- <-.
  exists sigma_arr, data_arr, sigma_new, data_new.
  split_and!; try done.
  - by eapply extends_trans.
  - destruct (heap st !! dl) eqn:Hdl; [|done].
    destruct E1 as [_ E1]. apply E1 in Hdl. congruence.
  - by apply E2.
Qed.

Section frame.
Variable camera : CameraGeometry.
Variable Gaussian_pdf :
  float64 → float64 → float64 → float64 → float64 → float64 → float64.
Variable Minuit_migrad :
  (list float64 → option mcell) → list float64 → list nat → MinuitResult.

(** The fitter without intrinsic variance only adds objects to the
    store: the arrays it was given, like every other object and the
    dictionary, are as before, and the data array it returns is a new
    object, the given data with the outlier flags or-ed into the
    mask. *)
Lemma optimize_with_outlier_rejection_frame
    (sigma data : nat) (st st' : pystate)
    (n_pe : nat) (fit : ndarray) (minuit : MinuitResult) (residuals : marray) :
  optimize_with_outlier_rejection camera Gaussian_pdf Minuit_migrad sigma data st
    = Some ((n_pe, fit, minuit, residuals), st') →
  extends st st' ∧ heap st !! n_pe = None ∧
  ∃ data_arr data_new,
    heap st !! data = Some data_arr ∧ heap st' !! n_pe = Some data_new ∧
    ma_masked_array data_arr (outlier_flags data_arr).*1 = Some data_new.
Proof.
  unfold optimize_with_outlier_rejection. intros H.
  apply bind_Some in H as ([[d' s'] o] & st1 & Hddo & H).
  apply define_delete_out_inv in Hddo
    as (sigma_arr & data_arr & sigma_new & data_new & Hs & Hd & -> & Hsn & Hdn
        & Hext & Fs & Fd & Ls & Ld).
  apply bind_Some in H as (n_pe_arr & st2 & [-> Hn]%ma_read_inv & H).
  apply bind_Some in H as (s_arr & st2 & [-> Hsr]%ma_read_inv & H).
  injection H as <- <- <- <- <-.
  split_and!; [done..|]. by exists data_arr, data_new.
Qed.
End frame.

Lemma tally_rejected_outliers_inv (sigma_masked : nat) (st st' : pystate) (u : unit) :
  tally_rejected_outliers sigma_masked st = Some (u, st') →
  ∃ sigma_arr missing hg_zero,
    heap st !! sigma_masked = Some sigma_arr ∧
    dict_missing_pix st !! "Missing pixels" = Some missing ∧
    dict_missing_pix st !! "high_gain = 0" = Some hg_zero ∧
    st' = PyState (heap st)
            (<["rejected_outliers" :=
                 (1855 - Z.of_nat (ma_count sigma_arr) - missing - hg_zero)%Z]>
               (dict_missing_pix st)).
Proof.
  unfold tally_rejected_outliers. intros H.
  apply bind_Some in H as (sigma_arr & st1 & [-> Hs]%ma_read_inv & H).
  apply bind_Some in H as (missing & st1 & Hm & H).
  apply bind_Some in H as (hg_zero & st2 & Hh & H).
  unfold dict_get in Hm, Hh.
  destruct (dict_missing_pix st !! "Missing pixels") as [m|] eqn:Em; [|done].
  injection Hm as <- <-.
  destruct (dict_missing_pix st !! "high_gain = 0") as [h|] eqn:Eh; [|done].
  injection Hh as <- <-.
  unfold dict_set in H. injection H as <-.
  by exists sigma_arr, m, h.
Qed.

(** The entries masked in [sigma_masked] are those where [std_n_pe]
    is zero. *)
Lemma count_of_sigma_masked (std : ndarray) :
  (Z.of_nat (length std)
   - Z.of_nat (ma_count ((λ s, MCell s (feq s fzero)) <$> std)))%Z
  = Z.of_nat (length (filter (λ s, feq s fzero = true) std)).
Proof.
  pose proof (ma_count_total ((λ s, MCell s (feq s fzero)) <$> std)) as Ht.
  rewrite (ma_count_masked_of std (λ s, feq s fzero)), length_fmap in Ht. lia.
Qed.

(** C10.  In the first part of the main script, on a sparse input:
    the fitter without intrinsic variance changes no object of the
    store it is given (every array it was passed, and the dictionary,
    are as before); after it the module-level [n_pe] and [sigma_masked]
    still are the arrays the Normalizer returned, whereas the array the
    fitter returns is another object carrying the 3-sigma flags; and the
    tally [rejected_outliers] is the number of pixels with
    [std_n_pe == 0] minus the missing-pixel count minus the
    high-gain-zero count, a value in which the 3-sigma flags do not
    occur. *)
Theorem C10_first_fit_tally_ignores_outliers
    (camera : CameraGeometry)
    (Gaussian_pdf : float64 → float64 → float64 → float64 → float64 → float64 → float64)
    (Minuit_migrad :
       (list float64 → option mcell) → list float64 → list nat → MinuitResult)
    (jacobi_propagate :
       (list float64 → ndarray) → list float64 → list (list float64) →
       ndarray * list (list float64))
    (c : GainContainer) (st st' : pystate) (first : FirstFit) :
  sparse_input c →
  main_first_fit camera Gaussian_pdf Minuit_migrad jacobi_propagate c st
    = Some (first, st') →
  let pre := ff_pre first in
  (∀ sigma data s0 r s1,
     optimize_with_outlier_rejection camera Gaussian_pdf Minuit_migrad sigma data s0
       = Some (r, s1) →
     dict_missing_pix s1 = dict_missing_pix s0 ∧
     ∀ l a, heap s0 !! l = Some a → heap s1 !! l = Some a) ∧
  pre_process_fits c = Some pre ∧
  heap st' !! ff_n_pe first = Some (pp_n_pe pre) ∧
  heap st' !! ff_sigma_masked first = Some (pp_sigma_masked pre) ∧
  ff_data_1 first ≠ ff_n_pe first ∧
  (∃ data_new,
     heap st' !! ff_data_1 first = Some data_new ∧
     ma_masked_array (pp_n_pe pre) (outlier_flags (pp_n_pe pre)).*1 = Some data_new) ∧
  ∃ missing hg_zero,
    pp_dict_missing_pix pre !! "Missing pixels" = Some missing ∧
    pp_dict_missing_pix pre !! "high_gain = 0" = Some hg_zero ∧
    dict_missing_pix st'
    = <["rejected_outliers" :=
          (Z.of_nat (length (filter (λ s, feq s fzero = true) (pp_std_n_pe pre)))
           - missing - hg_zero)%Z]>
        (pp_dict_missing_pix pre).
Proof.
  intros Hc Hrun pre. split.
  { intros sigma data s0 [[[n f] m] r] s1 H.
    by destruct (optimize_with_outlier_rejection_frame _ _ _ _ _ _ _ _ _ _ _ H)
      as [[? ?] _]. }
  unfold main_first_fit in Hrun.
  apply bind_Some in Hrun as (pre' & st1 & [Hpre ->]%lift_Some & Hrun).
  apply bind_Some in Hrun as (sl & st1 & (E1 & F1 & L1)%ma_new_extends & Hrun).
  apply bind_Some in Hrun as (nl & st2 & (E2 & F2 & L2)%ma_new_extends & Hrun).
  apply bind_Some in Hrun as ([] & st3 & Hset & Hrun). injection Hset as <-.
  apply bind_Some in Hrun as ([[[d1 f1] m1] r1] & st4 & Hfit & Hrun).
  apply optimize_with_outlier_rejection_frame in Hfit
    as ([D4 E4] & F4 & data_arr & data_new & Hd & Ld & Hdn).
  cbn [heap dict_missing_pix] in *.
  apply bind_Some in Hrun as (dict_errors & st5 & [_ ->]%lift_Some & Hrun).
  apply bind_Some in Hrun as ([] & st6 & Htally & Hrun).
  injection Hrun as <- <-. cbn [ff_pre ff_n_pe ff_sigma_masked ff_data_1] in *.
  subst pre.
  apply tally_rejected_outliers_inv in Htally
    as (sigma_arr & missing & hg_zero & Hs & Hm & Hh & ->).
  cbn [heap dict_missing_pix].
  assert (Hsl : heap st4 !! sl = Some (pp_sigma_masked pre')).
  { apply E4. destruct E2 as [_ E2]. by apply E2. }
  rewrite Hsl in Hs. injection Hs as <-.
  rewrite L2 in Hd. injection Hd as <-.
  destruct (pre_process_fits_spec c Hc)
    as (cd & pre'' & hg0 & _ & _ & Hpre'' & _ & _ & Hslen & _ & _ & _ & _ & _ & Hsig & _).
  rewrite Hpre in Hpre''. injection Hpre'' as <-.
  split_and!; [done|by apply E4|done| |by exists data_new|].
  - intros ->. congruence.
  - rewrite D4 in Hm, Hh |- *. exists missing, hg_zero. split_and!; [done..|].
    f_equal. rewrite Hsig, <- count_of_sigma_masked, Hslen, total_pixels_val.
    change (Z.of_nat 1855) with 1855%Z. reflexivity.
Qed.

(** ** The first part of the main script returns *)

Lemma define_delete_out_total (st : pystate) (sigma data : nat)
    (sigma_arr data_arr : marray) :
  heap st !! sigma = Some sigma_arr → heap st !! data = Some data_arr →
  length sigma_arr = length data_arr →
  is_Some (define_delete_out sigma data st).
Proof.
  intros Hs Hd Hlen.
  destruct (define_delete_out_spec st sigma data sigma_arr data_arr Hs Hd Hlen)
    as (d' & s' & -> & _). done.
Qed.

Section total.
Variable camera : CameraGeometry.
Variable Gaussian_pdf :
  float64 → float64 → float64 → float64 → float64 → float64 → float64.
Variable Minuit_migrad :
  (list float64 → option mcell) → list float64 → list nat → MinuitResult.
Variable jacobi_propagate :
  (list float64 → ndarray) → list float64 → list (list float64) →
  ndarray * list (list float64).

Lemma optimize_with_outlier_rejection_total (st : pystate) (sigma data : nat)
    (sigma_arr data_arr : marray) :
  heap st !! sigma = Some sigma_arr → heap st !! data = Some data_arr →
  length sigma_arr = length data_arr →
  is_Some (optimize_with_outlier_rejection camera Gaussian_pdf Minuit_migrad
                                           sigma data st).
Proof.
  intros Hs Hd Hlen.
  destruct (define_delete_out_total st sigma data _ _ Hs Hd Hlen)
    as [[[[d' s'] o] st1] Hddo].
  pose proof (define_delete_out_inv _ _ _ _ _ _ _ Hddo)
    as (sa & da & sn & dn & _ & _ & _ & _ & _ & _ & _ & _ & Ls & Ld).
  unfold optimize_with_outlier_rejection.
  unfold mbind at 1, M_bind at 1. rewrite Hddo.
  unfold mbind at 1, M_bind at 1. rewrite (ma_read_spec _ _ _ Ld).
  unfold mbind at 1, M_bind at 1. rewrite (ma_read_spec _ _ _ Ls).
  done.
Qed.

(** On a sparse input the first part of the main script returns,
    provided the error propagation does on the result of the fit. *)
Lemma main_first_fit_total (c : GainContainer) (st : pystate) :
  sparse_input c →
  (∀ fcn, is_Some (error_propagation_compute camera Gaussian_pdf jacobi_propagate
                     (Minuit_migrad fcn [Fin 1000; Fin 0; Fin 0; Fin 1.5] []) true)) →
  is_Some (main_first_fit camera Gaussian_pdf Minuit_migrad jacobi_propagate c st).
Proof.
  intros Hc Hprop.
  destruct (pre_process_fits_spec c Hc)
    as (cd & pre & hg0 & _ & _ & Hpre & _ & _ & Hslen & Hnlen & _ & _ & _ & Hdict
        & Hsig & _).
  unfold main_first_fit.
  unfold mbind at 1, M_bind at 1. rewrite Hpre. cbn [lift].
  unfold mbind at 1, M_bind at 1.
  destruct (ma_new (pp_sigma_masked pre) st) as [[sl st1]|] eqn:H1;
    [|by destruct (ma_new_spec (pp_sigma_masked pre) st) as (? & ? & _); congruence].
  apply ma_new_extends in H1 as (E1 & F1 & L1).
  unfold mbind at 1, M_bind at 1.
  destruct (ma_new (pp_n_pe pre) st1) as [[nl st2]|] eqn:H2;
    [|by destruct (ma_new_spec (pp_n_pe pre) st1) as (? & ? & _); congruence].
  apply ma_new_extends in H2 as ([D2 E2] & F2 & L2).
  unfold mbind at 1, M_bind at 1.
  unfold mbind at 1, M_bind at 1.
  set (st3 := PyState (heap st2) (pp_dict_missing_pix pre)).
  destruct (optimize_with_outlier_rejection_total st3 sl nl
              (pp_sigma_masked pre) (pp_n_pe pre))
    as [[[[[d1 f1] m1] r1] st4] Hfit].
  { by apply E2. }
  { done. }
  { rewrite Hsig, length_fmap. lia. }
  rewrite Hfit.
  pose proof Hfit as Hfit'.
  apply optimize_with_outlier_rejection_frame in Hfit'
    as ([D4 E4] & _).
  unfold optimize_with_outlier_rejection in Hfit.
  apply bind_Some in Hfit as ([[d' s'] o] & st5 & _ & Hfit).
  apply bind_Some in Hfit as (na & st6 & _ & Hfit).
  apply bind_Some in Hfit as (sa & st7 & _ & Hfit).
  injection Hfit as <- <- <- <- <-.
  unfold mbind at 1, M_bind at 1.
  destruct (Hprop (λ a, match a with
                        | [a0; a1; a2; a3] =>
                            Some (LSQ camera Gaussian_pdf na sa a0 a1 a2 a3)
                        | _ => None
                        end)) as [p Hp].
  rewrite Hp. cbn [lift].
  unfold mbind at 1, M_bind at 1.
  unfold tally_rejected_outliers.
  unfold mbind at 1, M_bind at 1.
  rewrite (ma_read_spec sl (pp_sigma_masked pre)) by (apply E4, E2, L1).
  unfold mbind at 1, M_bind at 1. unfold dict_get at 1.
  rewrite D4. subst st3. cbn [dict_missing_pix].
  rewrite Hdict.
  rewrite lookup_insert_ne, lookup_insert_eq by done.
  unfold mbind at 1, M_bind at 1. unfold dict_get at 1.
  rewrite D4. cbn [dict_missing_pix].
  rewrite Hdict, lookup_insert_eq.
  done.
Qed.
End total.

(** ** A run of the first part of the main script *)

Lemma foldl_fmin_replicate (n : nat) (t : R) :
  foldl fmin (Fin t) (replicate n (Fin t)) = Fin t.
Proof.
  induction n as [|n IH]; [done|]. cbn [replicate foldl].
  unfold fmin at 2, flt. by rewrite bool_decide_eq_false_2 by lra.
Qed.

Lemma foldl_fmax_replicate (n : nat) (t : R) :
  foldl fmax (Fin t) (replicate n (Fin t)) = Fin t.
Proof.
  induction n as [|n IH]; [done|]. cbn [replicate foldl].
  unfold fmax at 2, flt. by rewrite bool_decide_eq_false_2 by lra.
Qed.

(** All pixels at the same angular distance: a single bin edge, no bin. *)
Lemma rebin_constant_theta (n : nat) (t : R) (y yerr : ndarray) :
  length y = S n → length yerr = S n →
  is_Some (rebin_by_theta (replicate (S n) (Fin t)) y yerr).
Proof.
  intros Hy He. unfold rebin_by_theta, np_min, np_max. cbn [replicate].
  rewrite foldl_fmin_replicate, foldl_fmax_replicate. cbn [mbind option_bind].
  unfold np_arange. cbn [fadd]. rewrite bool_decide_eq_false_2 by lra.
  rewrite (Rceil_unique _ 1) by lra.
  cbn [Z.to_nat Pos.to_nat Pos.iter_op seq fmap list_fmap mbind option_bind].
  change (Z.to_nat 1) with 1. cbn [seq fmap list_fmap].
  destruct (np_histogram_weights_total (Fin t :: replicate n (Fin t))
              [Fin (t + INR 0 * 0.1)] y) as [sum_y ->];
    [by rewrite length_cons, length_replicate|done|].
  destruct (np_histogram_weights_total (Fin t :: replicate n (Fin t))
              [Fin (t + INR 0 * 0.1)] yerr) as [sum_e ->];
    [by rewrite length_cons, length_replicate|done|].
  done.
Qed.

Lemma total_pixels_succ : ∃ n, total_pixels = S n.
Proof. exists 1854. apply total_pixels_val. Qed.

Lemma origin_theta (values : list float64) (x y : R) :
  values !! 1 = Some (Fin x) → values !! 2 = Some (Fin y) →
  ∃ t, theta_of origin_camera values = replicate total_pixels (Fin t).
Proof.
  intros Hx Hy. unfold theta_of, origin_camera. cbn [pix_x pix_y].
  rewrite zip_with_replicate, Hx, Hy.
  cbn [default from_option Datatypes.id fsub fsquare fmul fadd].
  unfold fsquare. cbn [fmul fadd].
  rewrite fsqrt_fin by nra. rewrite fdiv_fin by lra.
  unfold np_rad2deg. cbn [fmul]. by eexists.
Qed.


Lemma error_propagation_total
    (camera : CameraGeometry)
    (Gaussian_pdf : float64 → float64 → float64 → float64 → float64 → float64 → float64)
    (jacobi_propagate :
       (list float64 → ndarray) → list float64 → list (list float64) →
       ndarray * list (list float64))
    (minuit : MinuitResult) (vals errs : list float64)
    (y : ndarray) (ycov : list (list float64)) :
  mapM (λ i, values minuit !! i) (seq 0 4) = Some vals →
  mapM (λ i, errors minuit !! i) (seq 0 4) = Some errs →
  jacobi_propagate (model camera Gaussian_pdf) (values minuit) (covariance minuit)
    = (y, ycov) →
  is_Some (rebin_by_theta (theta_of camera vals) y (fsqrt <$> np_diag ycov)) →
  is_Some (error_propagation_compute camera Gaussian_pdf jacobi_propagate minuit true).
Proof.
  intros Hv He Hp [r Hr]. unfold error_propagation_compute.
  rewrite Hv, He. cbn [mbind option_bind]. rewrite Hp, Hr. done.
Qed.

Lemma origin_propagation (fcn : list float64 → option mcell) :
  is_Some (error_propagation_compute origin_camera Gaussian2D_pdf unit_propagate
             (seed_minuit fcn [Fin 1000; Fin 0; Fin 0; Fin 1.5] []) true).
Proof.
  set (y := model origin_camera Gaussian2D_pdf [Fin 1000; Fin 0; Fin 0; Fin 1.5]).
  apply (error_propagation_total _ _ _ _
           [Fin 1000; Fin 0; Fin 0; Fin 1.5] [Fin 1; Fin 1; Fin 1; Fin 1]
           y (replicate (length y) (replicate (length y) (Fin 1)))).
  - reflexivity.
  - reflexivity.
  - reflexivity.
  - destruct (origin_theta [Fin 1000; Fin 0; Fin 0; Fin 1.5] 0 0 eq_refl eq_refl)
      as [t ->].
    assert (Hy : length y = total_pixels).
    { unfold y, model, origin_camera. cbn [pix_x pix_y].
      by rewrite length_fmap, length_zip_with, !length_replicate, Nat.min_id. }
    rewrite Hy. clearbody y.
    destruct total_pixels_succ as [n Hn]. rewrite Hn in *.
    apply rebin_constant_theta; [done|].
    unfold np_diag. by rewrite length_fmap, length_imap, length_replicate.
Qed.

(** A run on the one-pixel input (pixel 0 present, 1854 pixels
    missing) with the collaborators above: the first part of the main
    script returns, and its tally is the one the theorem states. *)
Lemma C10_first_fit_witness :
  ∃ first st' missing hg_zero,
    main_first_fit origin_camera Gaussian2D_pdf seed_minuit unit_propagate
                   (one_pixel 2 8 2) (PyState ∅ ∅) = Some (first, st') ∧
    heap st' !! ff_n_pe first = Some (pp_n_pe (ff_pre first)) ∧
    heap st' !! ff_sigma_masked first = Some (pp_sigma_masked (ff_pre first)) ∧
    pp_dict_missing_pix (ff_pre first) !! "Missing pixels" = Some missing ∧
    pp_dict_missing_pix (ff_pre first) !! "high_gain = 0" = Some hg_zero ∧
    dict_missing_pix st'
    = <["rejected_outliers" :=
          (Z.of_nat (length (filter (λ s, feq s fzero = true)
                                    (pp_std_n_pe (ff_pre first))))
           - missing - hg_zero)%Z]>
        (pp_dict_missing_pix (ff_pre first)).
Proof.
  destruct (main_first_fit_total origin_camera Gaussian2D_pdf seed_minuit unit_propagate
              (one_pixel 2 8 2) (PyState ∅ ∅) (one_pixel_sparse 2 8 2)
              origin_propagation) as [[first st'] Hrun].
  destruct (C10_first_fit_tally_ignores_outliers
              origin_camera Gaussian2D_pdf seed_minuit unit_propagate
              (one_pixel 2 8 2) (PyState ∅ ∅) st' first
              (one_pixel_sparse 2 8 2) Hrun)
    as (_ & _ & Hn & Hs & _ & _ & missing & hg_zero & Hm & Hh & Hdict).
  exists first, st', missing, hg_zero. by split_and!.
Defined.


(** * Further properties of the code *)

(** ** The Normalizer, pixel by pixel *)

(** What [pre_process_fits] returns on a sparse input, in terms of the
    input: the record of a present pixel is found at the index of its
    id, a missing pixel holds zeros, and the derived arrays follow, at
    every index, from the gain and the charge found there. *)
Lemma pre_process_fits_pixels (c : GainContainer) :
  sparse_input c →
  ∃ pre,
    pre_process_fits c = Some pre ∧
    length (pp_n_pe pre) = total_pixels ∧
    length (pp_std_n_pe pre) = total_pixels ∧
    pp_sigma_masked pre = (λ s, MCell s (feq s fzero)) <$> pp_std_n_pe pre ∧
    (∀ i p, pixels_id c !! i = Some p →
       rows2 (pp_high_gain pre) !! p = rows2 (high_gain c) !! i ∧
       rows2 (pp_low_gain pre) !! p = rows2 (low_gain c) !! i ∧
       pp_charge pre !! p = charge c !! i) ∧
    (∀ p, p < total_pixels → p ∉ pixels_id c →
       rows2 (pp_high_gain pre) !! p = Some (replicate (shape1 (high_gain c)) fzero) ∧
       rows2 (pp_low_gain pre) !! p = Some (replicate (shape1 (low_gain c)) fzero) ∧
       pp_charge pre !! p = Some fzero) ∧
    (∀ p, p < total_pixels →
       ∃ row g ch, rows2 (pp_high_gain pre) !! p = Some row ∧ row !! 0 = Some g ∧
                   pp_charge pre !! p = Some ch) ∧
    (∀ p row g ch,
       rows2 (pp_high_gain pre) !! p = Some row → row !! 0 = Some g →
       pp_charge pre !! p = Some ch →
       let n := if fgt g fzero then fdiv ch g else fzero in
       let s := fsqrt (if fne g fzero then fdiv (fmul ch n) ch else fzero) in
       pp_std_n_pe pre !! p = Some s ∧
       pp_n_pe pre !! p = Some (MCell n (feq s fzero)) ∧
       pp_sigma_masked pre !! p = Some (MCell s (feq s fzero))).
Proof.
  intros Hc.
  destruct (pre_process_fits_spec c Hc)
    as (cd & pre & hg0 & Hmerge & Hcol & Hpre & Hlen & Hhg0 & Hslen & Hnlen & Hch & Hhg
        & Hlg & Hdict & Hsig & Hpix).
  destruct (merge_missing_pixels_spec c Hc)
    as (cd' & Hmerge' & _ & _ & _ & Hl1 & _ & Hl3 & _ & _ & Hpres & Hmiss).
  rewrite Hmerge in Hmerge'. injection Hmerge' as <-.
  exists pre. rewrite Hch, Hhg, Hlg. split_and!; try done.
  - intros i p Hi. destruct (Hpres i p Hi) as (H1 & H2 & H3 & _). done.
  - intros p Hp Hnotin. destruct (Hmiss p Hp Hnotin) as (H1 & H2 & H3 & _). done.
  - intros p Hp.
    destruct (lookup_lt_is_Some_2 (rows2 (high_gain cd)) p) as [row Hrow]; [lia|].
    destruct (lookup_lt_is_Some_2 hg0 p) as [g Hg]; [lia|].
    destruct (lookup_lt_is_Some_2 (charge cd) p) as [ch Hcharge]; [lia|].
    exists row, g, ch. split_and!; [done| |done].
    by rewrite <- (Hhg0 p row Hrow).
  - intros p row g ch Hrow Hg Hcharge n s.
    destruct (Hpix p g ch) as [H1 H2]; [|done|].
    { by rewrite (Hhg0 p row Hrow). }
    fold n s in H1, H2. split_and!; [done..|].
    by rewrite Hsig, list_lookup_fmap, H1.
Qed.

Lemma pixel_seven_sparse (g ch : R) : sparse_input (pixel_seven g ch).
Proof.
  split; simpl; try done.
  - apply NoDup_singleton.
  - repeat constructor. rewrite total_pixels_val. lia.
  - by repeat constructor.
  - by repeat constructor.
  - lia.
Qed.

(** X1.  On a sparse input the Normalizer returns, and the record of
    every pixel of the input is found at the index equal to its pixel id:
    its rows of high and low gain and its charge are those of the
    input. *)
Theorem normalizer_keeps_pixel_records (c : GainContainer) :
  sparse_input c →
  ∃ pre,
    pre_process_fits c = Some pre ∧
    ∀ i p, pixels_id c !! i = Some p →
      rows2 (pp_high_gain pre) !! p = rows2 (high_gain c) !! i ∧
      rows2 (pp_low_gain pre) !! p = rows2 (low_gain c) !! i ∧
      pp_charge pre !! p = charge c !! i.
Proof.
  intros Hc.
  destruct (pre_process_fits_pixels c Hc) as (pre & Hpre & _ & _ & _ & Hpres & _).
  by exists pre.
Qed.

(** The pixel 7 alone, with gain 2 and charge 8, is found at index 7 of
    the output. *)
Lemma normalizer_keeps_pixel_records_witness :
  ∃ pre,
    pre_process_fits (pixel_seven 2 8) = Some pre ∧
    rows2 (pp_high_gain pre) !! 7 = Some [Fin 2] ∧
    rows2 (pp_low_gain pre) !! 7 = Some [Fin 1] ∧
    pp_charge pre !! 7 = Some (Fin 8).
Proof.
  destruct (normalizer_keeps_pixel_records _ (pixel_seven_sparse 2 8))
    as (pre & Hpre & H).
  exists pre. split; [exact Hpre|]. exact (H 0 7 eq_refl).
Defined.

(** X2.  A pixel id missing from the input gets zero gains and a zero
    charge, the photoelectron count 0 and the uncertainty 0, and is
    masked in both [n_pe] and [sigma_masked]. *)
Theorem normalizer_masks_missing_pixels (c : GainContainer) :
  sparse_input c →
  ∃ pre,
    pre_process_fits c = Some pre ∧
    ∀ p, p < total_pixels → p ∉ pixels_id c →
      rows2 (pp_high_gain pre) !! p = Some (replicate (shape1 (high_gain c)) fzero) ∧
      rows2 (pp_low_gain pre) !! p = Some (replicate (shape1 (low_gain c)) fzero) ∧
      pp_charge pre !! p = Some fzero ∧
      pp_std_n_pe pre !! p = Some fzero ∧
      pp_n_pe pre !! p = Some (MCell fzero true) ∧
      pp_sigma_masked pre !! p = Some (MCell fzero true).
Proof.
  intros Hc.
  destruct (pre_process_fits_pixels c Hc)
    as (pre & Hpre & _ & _ & _ & _ & Hmiss & _ & Hpix).
  exists pre. split; [done|]. intros p Hp Hnotin.
  destruct (Hmiss p Hp Hnotin) as (Hrow & Hlow & Hcharge).
  split_and!; [done..| | |].
  all: destruct (Hpix p _ fzero fzero Hrow) as (Hs & Hn & Hsig); [|done|].
  all: try (destruct Hc as [_ _ _ _ _ _ _ _ Hw];
            destruct (shape1 (high_gain c)); [lia|done]).
  all: assert (Hz : fsqrt (if fne fzero fzero
                       then fdiv (fmul fzero (if fgt fzero fzero
                                               then fdiv fzero fzero else fzero)) fzero
                       else fzero) = fzero)
         by (unfold fne, fzero; rewrite feq_fin, bool_decide_eq_true_2 by done;
             cbn [negb]; rewrite fsqrt_fin by lra; by rewrite sqrt_0).
  all: rewrite Hz in *.
  all: assert (Hm : feq fzero fzero = true)
         by (unfold fzero; rewrite feq_fin; by apply bool_decide_eq_true_2).
  all: rewrite Hm in *.
  - done.
  - rewrite Hn. do 2 f_equal. unfold fzero. rewrite fgt_fin.
    by rewrite bool_decide_eq_false_2 by lra.
  - done.
Qed.

(** Pixel 7 being the only one present, pixel 8 is missing. *)
Lemma normalizer_masks_missing_pixels_witness :
  ∃ pre,
    pre_process_fits (pixel_seven 2 8) = Some pre ∧
    pp_n_pe pre !! 8 = Some (MCell fzero true) ∧
    pp_sigma_masked pre !! 8 = Some (MCell fzero true).
Proof.
  destruct (normalizer_masks_missing_pixels _ (pixel_seven_sparse 2 8))
    as (pre & Hpre & H).
  exists pre. split; [exact Hpre|].
  destruct (H 8) as (_ & _ & _ & _ & Hn & Hs).
  - rewrite total_pixels_val. lia.
  - intros Hin. apply list_elem_of_singleton in Hin. discriminate Hin.
  - split; [exact Hn|exact Hs].
Defined.

(** X3.  On a sparse input every non-masked entry of [sigma_masked] is
    different from zero, every masked entry is zero, and [n_pe] carries
    the same mask: the later divisions by [sigma_masked ** 2] meet no
    zero at a pixel that counts. *)
Theorem normalizer_unmasked_sigma_nonzero (c : GainContainer) :
  sparse_input c →
  ∃ pre,
    pre_process_fits c = Some pre ∧
    mmask <$> pp_n_pe pre = mmask <$> pp_sigma_masked pre ∧
    mdata <$> pp_sigma_masked pre = pp_std_n_pe pre ∧
    ∀ p cs, pp_sigma_masked pre !! p = Some cs →
      (mmask cs = false → mdata cs ≠ fzero) ∧
      (mmask cs = true → mdata cs = fzero).
Proof.
  intros Hc.
  destruct (pre_process_fits_pixels c Hc)
    as (pre & Hpre & Hnlen & Hslen & Hsig & _ & _ & Hex & Hpix).
  exists pre. split_and!; [done| | |].
  - apply list_eq. intros p. rewrite !list_lookup_fmap.
    destruct (decide (p < total_pixels)) as [Hp|Hp].
    + destruct (Hex p Hp) as (row & g & ch & Hrow & Hg & Hcharge).
      destruct (Hpix p row g ch Hrow Hg Hcharge) as (_ & Hn & Hs).
      by rewrite Hn, Hs.
    + rewrite !lookup_ge_None_2; [done|..].
      * rewrite Hsig, length_fmap. lia.
      * lia.
  - rewrite Hsig, <- list_fmap_compose. apply list_fmap_id.
  - intros p cs. rewrite Hsig, list_lookup_fmap.
    destruct (pp_std_n_pe pre !! p) as [s|]; [|done]. intros [= <-].
    cbn [mdata mmask]. split.
    + intros Hm ->. unfold fzero in Hm. rewrite feq_fin in Hm.
      by rewrite bool_decide_eq_true_2 in Hm.
    + destruct s as [r| | |]; try done. unfold fzero. rewrite feq_fin.
      by intros ->%bool_decide_eq_true.
Qed.

Lemma normalizer_unmasked_sigma_nonzero_witness :
  ∃ pre,
    pre_process_fits (pixel_seven 2 8) = Some pre ∧
    mmask <$> pp_n_pe pre = mmask <$> pp_sigma_masked pre.
Proof.
  destruct (normalizer_unmasked_sigma_nonzero _ (pixel_seven_sparse 2 8))
    as (pre & Hpre & Hmask & _).
  exists pre. split; [exact Hpre|exact Hmask].
Defined.

(** X4.  A pixel of the input with a positive gain [g] and a positive
    charge [q] gets [n_pe = q / g] and the uncertainty [sqrt (q / g)],
    the square root of its photoelectron count, which is positive: the
    pixel is not masked. *)
Theorem normalizer_valid_pixel
    (c : GainContainer) (i p : nat) (row : list float64) (g q : R) :
  sparse_input c →
  pixels_id c !! i = Some p →
  rows2 (high_gain c) !! i = Some row → row !! 0 = Some (Fin g) →
  charge c !! i = Some (Fin q) →
  (0 < g)%R → (0 < q)%R →
  ∃ pre,
    pre_process_fits c = Some pre ∧
    pp_n_pe pre !! p = Some (MCell (Fin (q / g)) false) ∧
    pp_std_n_pe pre !! p = Some (Fin (sqrt (q / g))) ∧
    pp_sigma_masked pre !! p = Some (MCell (Fin (sqrt (q / g))) false) ∧
    (0 < sqrt (q / g))%R.
Proof.
  intros Hc Hi Hrow Hg Hq Hgpos Hqpos.
  destruct (pre_process_fits_pixels c Hc)
    as (pre & Hpre & _ & _ & _ & Hpres & _ & _ & Hpix).
  destruct (Hpres i p Hi) as (Hr & _ & Hch). rewrite Hrow in Hr. rewrite Hq in Hch.
  destruct (Hpix p row (Fin g) (Fin q) Hr Hg Hch) as (Hs & Hn & Hsig).
  assert (Hpos : (0 < q / g)%R) by (by apply Rdiv_lt_0_compat).
  assert (Hsq : (0 < sqrt (q / g))%R) by (by apply sqrt_lt_R0).
  assert (Hstd : fsqrt (if fne (Fin g) fzero
                  then fdiv (fmul (Fin q) (if fgt (Fin g) fzero
                                           then fdiv (Fin q) (Fin g) else fzero)) (Fin q)
                  else fzero) = Fin (sqrt (q / g))).
  { unfold fne, fzero. rewrite feq_fin, fgt_fin.
    rewrite bool_decide_eq_false_2 by lra. rewrite bool_decide_eq_true_2 by lra.
    cbn [negb]. rewrite (fdiv_fin q g) by lra. cbn [fmul].
    rewrite fdiv_fin by lra.
    replace (q * (q / g) / q)%R with (q / g)%R by (field; lra).
    apply fsqrt_fin. lra. }
  rewrite Hstd in Hs, Hn, Hsig.
  assert (Hm : feq (Fin (sqrt (q / g))) fzero = false).
  { unfold fzero. rewrite feq_fin. apply bool_decide_eq_false_2. lra. }
  rewrite Hm in Hn, Hsig.
  exists pre. split_and!; try done.
  rewrite Hn. do 2 f_equal. unfold fzero. rewrite fgt_fin.
  rewrite bool_decide_eq_true_2 by lra. apply fdiv_fin. lra.
Qed.

Lemma normalizer_valid_pixel_witness :
  ∃ pre,
    pre_process_fits (pixel_seven 2 8) = Some pre ∧
    pp_n_pe pre !! 7 = Some (MCell (Fin (8 / 2)) false) ∧
    pp_std_n_pe pre !! 7 = Some (Fin (sqrt (8 / 2))).
Proof.
  destruct (normalizer_valid_pixel (pixel_seven 2 8) 0 7 [Fin 2] 2 8)
    as (pre & Hpre & Hn & Hs & _); try reflexivity; try lra.
  - apply pixel_seven_sparse.
  - exists pre. split; [exact Hpre|]. split; [exact Hn|exact Hs].
Defined.

(** X5.  A pixel of the input with a positive gain and a charge that
    is zero or negative gets the uncertainty [nan] (from [0 / 0], or
    from the square root of a negative number) and is not masked, since
    [nan == 0] is false; its [n_pe] is [q / g]. *)
Theorem normalizer_nonpositive_charge_is_nan
    (c : GainContainer) (i p : nat) (row : list float64) (g q : R) :
  sparse_input c →
  pixels_id c !! i = Some p →
  rows2 (high_gain c) !! i = Some row → row !! 0 = Some (Fin g) →
  charge c !! i = Some (Fin q) →
  (0 < g)%R → (q <= 0)%R →
  ∃ pre,
    pre_process_fits c = Some pre ∧
    pp_n_pe pre !! p = Some (MCell (Fin (q / g)) false) ∧
    pp_std_n_pe pre !! p = Some NaN ∧
    pp_sigma_masked pre !! p = Some (MCell NaN false).
Proof.
  intros Hc Hi Hrow Hg Hq Hgpos Hqle.
  destruct (pre_process_fits_pixels c Hc)
    as (pre & Hpre & _ & _ & _ & Hpres & _ & _ & Hpix).
  destruct (Hpres i p Hi) as (Hr & _ & Hch). rewrite Hrow in Hr. rewrite Hq in Hch.
  destruct (Hpix p row (Fin g) (Fin q) Hr Hg Hch) as (Hs & Hn & Hsig).
  assert (Hstd : fsqrt (if fne (Fin g) fzero
                  then fdiv (fmul (Fin q) (if fgt (Fin g) fzero
                                           then fdiv (Fin q) (Fin g) else fzero)) (Fin q)
                  else fzero) = NaN).
  { unfold fne, fzero. rewrite feq_fin, fgt_fin.
    rewrite bool_decide_eq_false_2 by lra. rewrite bool_decide_eq_true_2 by lra.
    cbn [negb]. rewrite (fdiv_fin q g) by lra. cbn [fmul].
    destruct (decide (q = 0%R)) as [->|Hq0].
    - unfold fdiv. rewrite !bool_decide_eq_true_2; [done|lra|done].
    - rewrite fdiv_fin by done.
      replace (q * (q / g) / q)%R with (q / g)%R by (field; lra).
      unfold fsqrt. rewrite bool_decide_eq_true_2; [done|].
      apply Rmult_neg_pos; [lra|]. by apply Rinv_0_lt_compat. }
  rewrite Hstd in Hs, Hn, Hsig. cbn [feq] in Hn, Hsig.
  exists pre. split_and!; try done.
  rewrite Hn. do 2 f_equal. unfold fzero. rewrite fgt_fin.
  rewrite bool_decide_eq_true_2 by lra. apply fdiv_fin. lra.
Qed.

Lemma normalizer_nonpositive_charge_witness :
  ∃ pre,
    pre_process_fits (pixel_seven 2 0) = Some pre ∧
    pp_std_n_pe pre !! 7 = Some NaN ∧
    pp_sigma_masked pre !! 7 = Some (MCell NaN false).
Proof.
  destruct (normalizer_nonpositive_charge_is_nan (pixel_seven 2 0) 0 7 [Fin 2] 2 0)
    as (pre & Hpre & _ & Hs & Hsig); try reflexivity; try lra.
  - apply pixel_seven_sparse.
  - exists pre. split; [exact Hpre|]. split; [exact Hs|exact Hsig].
Defined.

(** ** The accounting of the Normalizer *)

Lemma fmap_const_replicate {A B : Type} (f : A → B) (z : B) (l : list A) :
  Forall (λ x, f x = z) l → f <$> l = replicate (length l) z.
Proof.
  induction 1 as [|x l Hx _ IH]; [done|]. cbn. by rewrite Hx, IH.
Qed.

Lemma fmap_lookup_seq_default {A : Type} (d : A) (l : list A) :
  (λ p, default d (l !! p)) <$> seq 0 (length l) = l.
Proof.
  apply list_eq. intros i. rewrite list_lookup_fmap.
  destruct (decide (i < length l)) as [Hi|Hi].
  - rewrite lookup_seq_lt by done. cbn.
    destruct (lookup_lt_is_Some_2 l i Hi) as [x Hx]. by rewrite Hx.
  - rewrite lookup_seq_ge by lia. cbn. symmetry. apply lookup_ge_None_2. lia.
Qed.

(** The first gain column of the output is, up to the order, the first
    gain column of the input followed by one zero per missing pixel. *)
Lemma merged_gain_column (c : GainContainer) (cd : GainContainer) (hg0 : ndarray) :
  sparse_input c →
  merge_missing_pixels c
    = Some (cd, np_setdiff1d_arange total_pixels (pixels_id c)) →
  np_column0 (high_gain cd) = Some hg0 →
  ∃ col0,
    np_column0 (high_gain c) = Some col0 ∧
    hg0 ≡ₚ col0 ++ replicate (length (np_setdiff1d_arange total_pixels (pixels_id c)))
                             fzero.
Proof.
  intros Hc Hmerge Hcol.
  destruct (merge_missing_pixels_spec c Hc)
    as (cd' & Hmerge' & _ & _ & _ & Hl1 & _ & _ & _ & _ & Hpres & Hmiss).
  rewrite Hmerge in Hmerge'. injection Hmerge' as <-.
  pose proof Hc as [Hnd Hrange Hhg _ _ _ Hhgw _ Hhg0].
  destruct (np_column0_spec (high_gain c)) as (col0 & Hcol0 & Hlen0 & Hlook0).
  { eapply Forall_impl; [exact Hhgw|]. intros r Hr. cbn in Hr. lia. }
  assert (Hrows : Forall (λ r : list float64, 0 < length r) (rows2 (high_gain cd))).
  { apply Forall_lookup. intros p row Hrow.
    assert (Hp : p < total_pixels) by (rewrite <- Hl1; by eapply lookup_lt_Some).
    destruct (decide (p ∈ pixels_id c)) as [Hin|Hnotin].
    - apply list_elem_of_lookup in Hin as [i Hi].
      destruct (Hpres i p Hi) as (Hr & _). rewrite Hr in Hrow.
      rewrite Forall_lookup in Hhgw. rewrite (Hhgw _ _ Hrow). done.
    - destruct (Hmiss p Hp Hnotin) as (Hr & _). rewrite Hr in Hrow.
      simplify_eq. by rewrite length_replicate. }
  destruct (np_column0_spec (high_gain cd) Hrows) as (hg0' & Hcol' & Hlen & Hlook).
  rewrite Hcol in Hcol'. injection Hcol' as <-.
  exists col0. split; [done|].
  rewrite <- (fmap_lookup_seq_default fzero hg0) at 1.
  rewrite Hlen, Hl1, <- (merged_Permutation _ Hnd Hrange), fmap_app.
  match goal with |- ?a ++ ?b ≡ₚ ?a' ++ ?b' =>
    assert (H1 : a = a'); [|assert (H2 : b = b'); [|by rewrite H1, H2]] end.
  - apply list_eq. intros i. rewrite list_lookup_fmap.
    destruct (pixels_id c !! i) as [p|] eqn:Hi; cbn.
    + destruct (Hpres i p Hi) as (Hr & _).
      destruct (lookup_lt_is_Some_2 (rows2 (high_gain c)) i) as [row Hrow].
      { rewrite Hhg. by eapply lookup_lt_Some. }
      rewrite Hrow in Hr. rewrite (Hlook p row Hr), (Hlook0 i row Hrow).
      destruct (lookup_lt_is_Some_2 col0 i) as [x Hx].
      { rewrite Hlen0. by eapply lookup_lt_Some. }
      rewrite (Hlook0 i row Hrow) in Hx. by rewrite Hx.
    + symmetry. apply lookup_ge_None_2. rewrite Hlen0, Hhg.
      by apply lookup_ge_None_1.
  - rewrite <- (length_fmap (λ p, default fzero (hg0 !! p))) at 1.
    rewrite length_fmap. apply fmap_const_replicate.
    apply Forall_forall. intros p [Hp Hnotin]%elem_of_missing.
    destruct (Hmiss p Hp Hnotin) as (Hr & _).
    rewrite (Hlook p _ Hr).
    destruct (shape1 (high_gain c)); [lia|done].
Qed.

Lemma filter_replicate_zero (n : nat) :
  length (filter (λ g, fle g fzero = true) (replicate n fzero)) = n.
Proof.
  induction n as [|n IH]; [done|]. cbn [replicate].
  rewrite filter_cons_True.
  - cbn. by rewrite IH.
  - unfold fzero. rewrite fle_fin. apply bool_decide_eq_true_2. lra.
Qed.

(** X6.  The dictionary the Normalizer returns has two entries:
    [Missing pixels] is 1855 minus the number of pixels of the input,
    and [high_gain = 0] is the number of pixels of the input whose first
    high gain is zero or negative.  It has no entry [rejected_outliers]
    yet. *)
Theorem normalizer_accounting (c : GainContainer) :
  sparse_input c →
  ∃ pre col0,
    pre_process_fits c = Some pre ∧
    np_column0 (high_gain c) = Some col0 ∧
    pp_dict_missing_pix pre !! "Missing pixels"
      = Some (1855 - Z.of_nat (length (pixels_id c)))%Z ∧
    pp_dict_missing_pix pre !! "high_gain = 0"
      = Some (Z.of_nat (length (filter (λ g, fle g fzero = true) col0))) ∧
    pp_dict_missing_pix pre !! "rejected_outliers" = None.
Proof.
  intros Hc.
  destruct (pre_process_fits_spec c Hc)
    as (cd & pre & hg0 & Hmerge & Hcol & Hpre & _ & _ & _ & _ & _ & _ & _ & Hdict & _).
  destruct (merged_gain_column c cd hg0 Hc Hmerge Hcol) as (col0 & Hcol0 & Hperm).
  pose proof Hc as [Hnd Hrange _ _ _ _ _ _ _].
  pose proof (merged_length _ Hnd Hrange) as Hlen.
  rewrite length_app in Hlen. pose proof total_pixels_val as Htotal.
  exists pre, col0. rewrite Hdict. split_and!; [done..| | |].
  - rewrite lookup_insert_ne by done. rewrite lookup_insert_eq. f_equal. lia.
  - rewrite lookup_insert_eq. f_equal.
    rewrite Hperm, filter_app, length_app, filter_replicate_zero. lia.
  - by rewrite !lookup_insert_ne.
Qed.

Lemma normalizer_accounting_witness :
  ∃ pre,
    pre_process_fits (pixel_seven 2 8) = Some pre ∧
    pp_dict_missing_pix pre !! "Missing pixels" = Some 1854%Z ∧
    pp_dict_missing_pix pre !! "rejected_outliers" = None.
Proof.
  destruct (normalizer_accounting _ (pixel_seven_sparse 2 8))
    as (pre & col0 & Hpre & _ & Hmiss & _ & Hrej).
  exists pre. split; [exact Hpre|]. split; [exact Hmiss|exact Hrej].
Defined.


(** ** The rejection pass only adds masks *)

Local Abbreviation or_mask x m :=
  (zip_with (λ (c : mcell) (b : bool), MCell (mdata c) (b || mmask c)) x m).

Lemma or_mask_mdata (x : marray) (m : list bool) :
  length m = length x → mdata <$> or_mask x m = mdata <$> x.
Proof.
  revert m. induction x as [|c x IH]; intros [|b m] Hlen; try done.
  cbn. f_equal. apply IH. by injection Hlen.
Qed.

Lemma or_mask_mmask (x : marray) (m : list bool) :
  mmask <$> or_mask x m = zip_with orb m (mmask <$> x).
Proof.
  revert m. induction x as [|c x IH]; intros [|b m]; try done.
  cbn. f_equal. apply IH.
Qed.

Lemma or_mask_keeps_masked (x : marray) (m : list bool) (i : nat) (c : mcell) :
  length m = length x → x !! i = Some c → mmask c = true →
  mmask <$> or_mask x m !! i = Some true.
Proof.
  intros Hlen Hi Hm.
  destruct (lookup_lt_is_Some_2 m i) as [b Hb].
  { rewrite Hlen. by eapply lookup_lt_Some. }
  rewrite lookup_zip_with, Hi. cbn. rewrite Hb. cbn. by rewrite Hm, orb_true_r.
Qed.

Lemma or_mask_count (x : marray) (m : list bool) :
  ma_count (or_mask x m) ≤ ma_count x.
Proof.
  unfold ma_count. revert m. induction x as [|c x IH]; intros [|b m];
    cbn [zip_with]; [done|done|cbn; lia|].
  specialize (IH m). rewrite !filter_cons. cbn [mmask].
  destruct (decide (b || mmask c = false)) as [Hb|Hb];
    destruct (decide (mmask c = false)) as [Hc|Hc]; cbn; try lia.
  apply orb_false_iff in Hb as [_ Hb]. done.
Qed.

Lemma outlier_flags_length (data_arr : marray) :
  length (outlier_flags data_arr).*1 = length data_arr.
Proof. unfold outlier_flags. by rewrite !length_fmap. Qed.

(** X7.  [define_delete_out] returns two new array objects and leaves
    the arrays it was given as they are.  The new arrays hold the data
    of the old ones, every entry that was masked is still masked, so
    that the number of entries that count does not grow; and when the
    two arrays given carry the same mask, so do the two returned. *)
Theorem rejection_only_adds_masks
    (st : pystate) (sigma data : nat) (sigma_arr data_arr : marray) :
  heap st !! sigma = Some sigma_arr →
  heap st !! data = Some data_arr →
  length sigma_arr = length data_arr →
  ∃ data' sigma' outliers st' data_new sigma_new,
    define_delete_out sigma data st = Some ((data', sigma', outliers), st') ∧
    heap st' !! data' = Some data_new ∧ heap st' !! sigma' = Some sigma_new ∧
    heap st' !! data = Some data_arr ∧ heap st' !! sigma = Some sigma_arr ∧
    data' ≠ data ∧ data' ≠ sigma ∧ sigma' ≠ data ∧ sigma' ≠ sigma ∧
    mdata <$> data_new = mdata <$> data_arr ∧
    mdata <$> sigma_new = mdata <$> sigma_arr ∧
    (∀ i c, data_arr !! i = Some c → mmask c = true →
       mmask <$> data_new !! i = Some true) ∧
    (∀ i c, sigma_arr !! i = Some c → mmask c = true →
       mmask <$> sigma_new !! i = Some true) ∧
    ma_count data_new ≤ ma_count data_arr ∧
    ma_count sigma_new ≤ ma_count sigma_arr ∧
    (mmask <$> sigma_arr = mmask <$> data_arr →
     mmask <$> sigma_new = mmask <$> data_new).
Proof.
  intros Hs Hd Hlen.
  destruct (define_delete_out_spec st sigma data sigma_arr data_arr Hs Hd Hlen)
    as (data' & sigma' & Hrun & Hfs & Hfd & Hne).
  pose proof (outlier_flags_length data_arr) as Hfl.
  eexists data', sigma', _, _.
  exists (or_mask data_arr (outlier_flags data_arr).*1),
         (or_mask sigma_arr (outlier_flags data_arr).*1).
  split; [exact Hrun|].
  cbn [heap].
  assert (data' ≠ data) by (intros ->; congruence).
  assert (data' ≠ sigma) by (intros ->; congruence).
  assert (sigma' ≠ data) by (intros ->; congruence).
  assert (sigma' ≠ sigma) by (intros ->; congruence).
  split_and!; try done.
  all: try (by rewrite lookup_insert_eq).
  all: try (by rewrite lookup_insert_ne, lookup_insert_eq).
  all: try (by rewrite !lookup_insert_ne).
  all: try apply or_mask_count.
  all: try (apply or_mask_mdata; lia).
  all: try (intros i c Hi Hm; eapply or_mask_keeps_masked; [lia|done..]).
  intros Hmask. rewrite !or_mask_mmask. by rewrite Hmask.
Qed.

Lemma rejection_only_adds_masks_witness :
  ∃ data' sigma' outliers st' data_new,
    define_delete_out 0 1 (store_of (fin_cells eleven_counts) (fin_cells eleven_counts))
      = Some ((data', sigma', outliers), st') ∧
    heap st' !! data' = Some data_new ∧
    heap st' !! 1 = Some (fin_cells eleven_counts) ∧
    mdata <$> data_new = mdata <$> fin_cells eleven_counts.
Proof.
  destruct (rejection_only_adds_masks
              (store_of (fin_cells eleven_counts) (fin_cells eleven_counts)) 0 1
              (fin_cells eleven_counts) (fin_cells eleven_counts))
    as (data' & sigma' & outliers & st' & data_new & sigma_new
        & Hrun & Hd & _ & Hold & _ & _ & _ & _ & _ & Hdata & _).
  - reflexivity.
  - reflexivity.
  - reflexivity.
  - exists data', sigma', outliers, st', data_new.
    split; [exact Hrun|]. split; [exact Hd|]. split; [exact Hold|exact Hdata].
Defined.

(** ** Sums, means and variances of real numbers *)

Lemma Rsum_squares_nonneg (m : R) (l : list R) :
  (0 <= Rsum ((λ x, (x - m) ^ 2) <$> l))%R.
Proof.
  induction l as [|x l IH]; [cbn; lra|].
  rewrite fmap_cons, Rsum_cons. pose proof (pow2_ge_0 (x - m)). lra.
Qed.

Lemma Rsum_deviations (m : R) (l : list R) :
  Rsum ((λ x, x - m)%R <$> l) = (Rsum l - INR (length l) * m)%R.
Proof.
  induction l as [|x l IH]; [cbn; lra|].
  rewrite fmap_cons, !Rsum_cons, IH. cbn [length]. rewrite S_INR. lra.
Qed.

Lemma Rsum_shifted_squares (a : R) (l : list R) :
  (Rsum ((λ d, (d - a) ^ 2) <$> l)
   = Rsum ((λ d, d ^ 2) <$> l) - 2 * a * Rsum l + INR (length l) * a ^ 2)%R.
Proof.
  induction l as [|x l IH]; [cbn; lra|].
  rewrite !fmap_cons, !Rsum_cons, IH. cbn [length]. rewrite S_INR. lra.
Qed.

(** The square of a sum is at most the number of terms times the sum of
    the squares. *)
Lemma Rsum_square_bound (l : list R) :
  (Rsum l ^ 2 <= INR (length l) * Rsum ((λ d, d ^ 2) <$> l))%R.
Proof.
  induction l as [|a l IH]; [cbn; lra|].
  rewrite fmap_cons, !Rsum_cons. cbn [length]. rewrite S_INR.
  pose proof (Rsum_squares_nonneg a l) as Hsq.
  rewrite Rsum_shifted_squares in Hsq.
  nra.
Qed.

Lemma Rsum_above (A : R) (f : R → R) (l : list R) :
  Forall (λ x, A < f x)%R l → l ≠ [] →
  (INR (length l) * A < Rsum (f <$> l))%R.
Proof.
  induction 1 as [|x l Hx Hl IH]; [done|]. intros _.
  rewrite fmap_cons, Rsum_cons. cbn [length]. rewrite S_INR.
  destruct l as [|y l]; [cbn; lra|].
  specialize (IH ltac:(done)). lra.
Qed.

(** Some value deviates from [m] by no more than the mean squared
    deviation. *)
Lemma exists_small_deviation (m : R) (l : list R) :
  l ≠ [] →
  ∃ x, x ∈ l ∧
       ((x - m) ^ 2 <= Rsum ((λ x, (x - m) ^ 2) <$> l) / INR (length l))%R.
Proof.
  intros Hl.
  set (A := (Rsum ((λ x, (x - m) ^ 2) <$> l) / INR (length l))%R).
  assert (Hn : (0 < INR (length l))%R).
  { apply lt_0_INR. destruct l; [done|cbn; lia]. }
  destruct (Forall_Exists_dec (λ x, A < (x - m) ^ 2)%R (λ x, ¬ (A < (x - m) ^ 2)%R)
              (λ x, Rlt_dec A ((x - m) ^ 2)) l) as [Hall|Hex].
  - pose proof (Rsum_above A (λ x, (x - m) ^ 2)%R l Hall Hl) as Habove.
    exfalso. unfold A in Habove at 1.
    replace (INR (length l) * (Rsum ((λ x, (x - m) ^ 2) <$> l) / INR (length l)))%R
      with (Rsum ((λ x, (x - m) ^ 2)%R <$> l)) in Habove by (field; lra).
    lra.
  - apply Exists_exists in Hex as (x & Hx & Hnot). exists x. split; [done|].
    by apply Rnot_lt_le.
Qed.

Lemma variance_of_nonneg (xs : list R) : (0 <= variance_of xs)%R.
Proof.
  unfold variance_of. pose proof (Rsum_squares_nonneg (mean_of xs) xs).
  destruct xs as [|x xs].
  - cbn. rewrite Rdiv_0_r. lra.
  - assert (0 < INR (length (x :: xs)))%R by (apply lt_0_INR; cbn; lia).
    unfold Rdiv. apply Rmult_le_pos; [done|].
    left. by apply Rinv_0_lt_compat.
Qed.

(** No value deviates from the mean by more than [sqrt (n - 1)]
    standard deviations. *)
Lemma deviation_bound (xs : list R) (x : R) :
  x ∈ xs →
  ((x - mean_of xs) ^ 2 <= (INR (length xs) - 1) * variance_of xs)%R.
Proof.
  intros Hx. apply elem_of_Permutation in Hx as [rest Hperm].
  unfold variance_of.
  set (m := mean_of xs).
  assert (Hm : (INR (length xs) * m = Rsum xs)%R).
  { unfold m, mean_of. field. apply not_0_INR. rewrite Hperm. done. }
  rewrite (Rsum_Permutation _ _ (fmap_Permutation _ _ _ Hperm)).
  rewrite (Rsum_Permutation _ _ Hperm) in Hm.
  rewrite Hperm in Hm |- *.
  rewrite fmap_cons, !Rsum_cons. rewrite Rsum_cons in Hm.
  cbn [length] in Hm |- *. rewrite S_INR in Hm |- *.
  set (n := INR (length rest)) in *.
  assert (Hn : (0 <= n)%R) by apply pos_INR.
  pose proof (Rsum_square_bound ((λ y, y - m)%R <$> rest)) as Hcs.
  rewrite <- list_fmap_compose, length_fmap, Rsum_deviations in Hcs.
  fold n in Hcs.
  change ((λ d : R, (d ^ 2)%R) ∘ (λ y : R, (y - m)%R)) with (λ y : R, ((y - m) ^ 2)%R)
    in Hcs.
  set (q := Rsum ((λ y, (y - m) ^ 2)%R <$> rest)) in *.
  set (s := Rsum rest) in *.
  replace (n + 1 - 1)%R with n by lra.
  assert (Hd : ((x - m) ^ 2 <= n * q)%R).
  { replace (x - m)%R with (- (s - n * m))%R by lra.
    replace ((- (s - n * m)) ^ 2)%R with ((s - n * m) ^ 2)%R by ring. done. }
  apply (Rmult_le_reg_r (n + 1)); [lra|].
  replace (n * (((x - m) ^ 2 + q) / (n + 1)) * (n + 1))%R
    with (n * ((x - m) ^ 2 + q))%R by (field; lra).
  nra.
Qed.

Lemma sqrt_9 : sqrt 9 = 3%R.
Proof. replace 9%R with (3 * 3)%R by lra. apply sqrt_square. lra. Qed.

Lemma within_three_sigma (d v : R) :
  (0 <= v)%R → (d ^ 2 <= 9 * v)%R → ¬ (Rabs d > 3 * sqrt v)%R.
Proof.
  intros Hv Hd.
  assert (Rabs d <= 3 * sqrt v)%R; [|lra].
  rewrite <- sqrt_9, <- sqrt_mult by lra.
  rewrite <- sqrt_Rsqr_abs. apply sqrt_le_1_alt. unfold Rsqr. lra.
Qed.


(** ** Mean and standard deviation of a masked array *)

Lemma unmasked_values_cons (c : mcell) (a : marray) :
  unmasked_values (c :: a)
  = if mmask c then unmasked_values a else to_R (mdata c) :: unmasked_values a.
Proof.
  unfold unmasked_values. rewrite filter_cons.
  destruct (mmask c); [by rewrite decide_False|by rewrite decide_True].
Qed.

Lemma ma_count_cons (c : mcell) (a : marray) :
  ma_count (c :: a) = if mmask c then ma_count a else S (ma_count a).
Proof.
  unfold ma_count. rewrite filter_cons.
  destruct (mmask c); [by rewrite decide_False|by rewrite decide_True].
Qed.

Lemma ma_count_unmasked_values (a : marray) :
  ma_count a = length (unmasked_values a).
Proof. unfold ma_count, unmasked_values. by rewrite length_fmap. Qed.

Lemma forallb_mmask_count (a : marray) :
  forallb mmask a = true ↔ ma_count a = 0.
Proof.
  induction a as [|c a IH]; [done|].
  rewrite ma_count_cons. cbn [forallb]. destruct (mmask c); cbn; [done|].
  split; [done|lia].
Qed.

Lemma finite_unmasked_cons (c : mcell) (a : marray) :
  finite_unmasked (c :: a) →
  (mmask c = false → isfinite (mdata c) = true) ∧ finite_unmasked a.
Proof.
  intros H. split.
  - intros Hm. by apply (H 0 c).
  - intros i c' Hi. by apply (H (S i) c').
Qed.

(** The sum of a function of the values that count. *)
Lemma Rsum_unmasked (f : R → R) (a : marray) :
  foldr Rplus 0%R ((λ c, if mmask c then 0 else f (to_R (mdata c)))%R <$> a)
  = Rsum (f <$> unmasked_values a).
Proof.
  induction a as [|c a IH]; [done|].
  rewrite fmap_cons, unmasked_values_cons. cbn [foldr]. rewrite IH.
  destruct (mmask c); [lra|]. by rewrite fmap_cons, Rsum_cons.
Qed.

Lemma ma_sum_population (a : marray) :
  finite_unmasked a →
  mdata (ma_sum a) = Fin (Rsum (unmasked_values a)).
Proof.
  intros Hfin. rewrite ma_sum_cell_values by done. f_equal.
  rewrite <- (list_fmap_id (unmasked_values a)).
  rewrite <- (Rsum_unmasked (λ x, x)). reflexivity.
Qed.

Lemma of_nat_count_neq_0 (a : marray) :
  ma_count a ≠ 0 → INR (ma_count a) ≠ 0%R.
Proof. intros H. by apply not_0_INR. Qed.

(** [np.mean] of a masked array is the arithmetic mean of the entries
    that are not masked. *)
Lemma ma_mean_population (a : marray) :
  finite_unmasked a → ma_count a ≠ 0 →
  ma_mean a = unmasked (Fin (mean_of (unmasked_values a))).
Proof.
  intros Hfin Hcnt. unfold ma_mean. rewrite decide_False by done.
  rewrite ma_sum_population by done. cbn [fmul]. unfold of_nat.
  rewrite fdiv_fin by (by apply of_nat_count_neq_0).
  unfold mean_of. rewrite <- ma_count_unmasked_values.
  do 2 f_equal. field. by apply of_nat_count_neq_0.
Qed.

(** [a.var()] is the mean squared deviation of these entries from their
    mean. *)
Lemma ma_var_population (a : marray) :
  finite_unmasked a → ma_count a ≠ 0 →
  ma_var a = unmasked (Fin (variance_of (unmasked_values a))).
Proof.
  intros Hfin Hcnt. unfold ma_var.
  rewrite (ma_mean_population a Hfin Hcnt).
  set (m := mean_of (unmasked_values a)).
  rewrite <- list_fmap_compose.
  assert (Hcells : Forall (λ c : mcell,
            if mmask c
            then mmask (ma_power2 (ma_binop fsub c (unmasked (Fin m)))) = true
            else ma_power2 (ma_binop fsub c (unmasked (Fin m)))
                 = MCell (Fin ((to_R (mdata c) - m) * (to_R (mdata c) - m))) false) a).
  { apply Forall_lookup. intros i c Hi.
    destruct (mmask c) eqn:Hm.
    - rewrite ma_binop_masked_l by done. by apply ma_power2_masked.
    - pose proof (Hfin i c Hi Hm) as Hf. destruct c as [[x| | |] mk]; try done.
      cbn [mmask] in Hm. subst mk. unfold unmasked.
      rewrite ma_binop_fin. cbn [fsub]. by rewrite ma_power2_fin. }
  erewrite (ma_sum_reals _
              ((λ c, if mmask c then 0
                     else (λ x, (x - m) * (x - m)) (to_R (mdata c)))%R <$> a)).
  - rewrite (Rsum_unmasked (λ x, (x - m) * (x - m))%R).
    assert (Hmask : forallb mmask
              ((ma_power2 ∘ (λ c, ma_binop fsub c (unmasked (Fin m)))) <$> a) = false).
    { apply not_true_is_false. intros Hall. apply Hcnt.
      apply forallb_mmask_count.
      rewrite <- Hall. symmetry. apply forallb_fmap_ext.
      eapply Forall_impl; [exact Hcells|]. intros c Hc. cbn beta in Hc.
      unfold compose. destruct (mmask c); [done|]. by rewrite Hc. }
    rewrite Hmask. unfold ma_true_divide_scalar, unmasked, of_nat.
    rewrite ma_true_divide_fin by (by apply of_nat_count_neq_0).
    cbn [mmask]. unfold variance_of. rewrite <- ma_count_unmasked_values.
    assert (Heq : (λ x, (x - m) * (x - m))%R <$> unmasked_values a
                  = (λ x, (x - m) ^ 2)%R <$> unmasked_values a).
    { apply list_fmap_ext. intros i x _. ring. }
    rewrite Heq. reflexivity.
  - apply Forall2_fmap, Forall_Forall2_diag.
    eapply Forall_impl; [exact Hcells|]. intros c Hc. cbn beta in Hc.
    unfold compose. destruct (mmask c); [by rewrite Hc|]. by rewrite Hc.
Qed.

(** [np.std] is the square root of this variance. *)
Lemma ma_std_population (a : marray) :
  finite_unmasked a → ma_count a ≠ 0 →
  ma_std a = unmasked (Fin (sqrt (variance_of (unmasked_values a)))).
Proof.
  intros Hfin Hcnt. unfold ma_std. rewrite (ma_var_population a Hfin Hcnt).
  cbn [mmask mdata unmasked].
  rewrite fsqrt_fin by apply variance_of_nonneg. done.
Qed.

Lemma unmasked_cell_counts (a : marray) (i : nat) (c : mcell) :
  a !! i = Some c → mmask c = false → ma_count a ≠ 0.
Proof.
  intros Hi Hm Hcnt. apply forallb_mmask_count in Hcnt.
  rewrite forallb_forall in Hcnt.
  assert (Hin : In c a) by (apply list_elem_of_In; by eapply list_elem_of_lookup_2).
  specialize (Hcnt c Hin). congruence.
Qed.

Lemma unmasked_value_elem (a : marray) (i : nat) (x : R) :
  a !! i = Some (MCell (Fin x) false) → x ∈ unmasked_values a.
Proof.
  intros Hi. unfold unmasked_values.
  apply (list_elem_of_fmap_2' (λ c, to_R (mdata c)) _ (MCell (Fin x) false)); [|done].
  apply list_elem_of_filter. split; [done|]. by eapply list_elem_of_lookup_2.
Qed.

(** The flag of a non-masked entry, from the population. *)
Lemma outlier_flag_population (data_arr : marray) (i : nat) (x : R) :
  finite_unmasked data_arr →
  data_arr !! i = Some (MCell (Fin x) false) →
  let values := unmasked_values data_arr in
  outlier_flags data_arr !! i
  = Some (bool_decide (Rabs (x - mean_of values) > 3 * sqrt (variance_of values))%R,
          false).
Proof.
  intros Hfin Hi values.
  assert (Hcnt : ma_count data_arr ≠ 0) by (by eapply unmasked_cell_counts).
  apply outlier_flag_fin; [done|..].
  - by apply ma_mean_population.
  - by apply ma_std_population.
Qed.

Lemma finite_unmasked_fin_cells (xs : list R) : finite_unmasked (fin_cells xs).
Proof.
  intros i c Hi _. unfold fin_cells in Hi. rewrite list_lookup_fmap in Hi.
  destruct (xs !! i); [|done]. by injection Hi as <-.
Qed.

Lemma or_mask_lookup (x : marray) (m : list bool) (i : nat) (c : mcell) (b : bool) :
  x !! i = Some c → m !! i = Some b →
  or_mask x m !! i = Some (MCell (mdata c) (b || mmask c)).
Proof. intros Hx Hm. by rewrite lookup_zip_with, Hx, Hm. Qed.

(** X8.  The threshold of the rejection pass comes from the entries of
    the data that are not masked, and from them only: a non-masked
    datum [x] is marked exactly when it lies more than three times the
    population standard deviation (the square root of the mean squared
    deviation, numpy's [ddof = 0]) away from the arithmetic mean of the
    non-masked data. *)
Theorem rejection_threshold_from_unmasked_population
    (st : pystate) (sigma data : nat) (sigma_arr data_arr : marray)
    (i : nat) (x : R) :
  heap st !! sigma = Some sigma_arr →
  heap st !! data = Some data_arr →
  length sigma_arr = length data_arr →
  finite_unmasked data_arr →
  data_arr !! i = Some (MCell (Fin x) false) →
  let values := unmasked_values data_arr in
  let marked :=
    bool_decide (Rabs (x - mean_of values) > 3 * sqrt (variance_of values))%R in
  ∃ data' sigma' outliers st' data_new,
    define_delete_out sigma data st = Some ((data', sigma', outliers), st') ∧
    heap st' !! data' = Some data_new ∧
    outliers !! i = Some (marked, false) ∧
    data_new !! i = Some (MCell (Fin x) marked).
Proof.
  intros Hs Hd Hlen Hfin Hi values marked.
  destruct (define_delete_out_spec st sigma data sigma_arr data_arr Hs Hd Hlen)
    as (data' & sigma' & Hrun & Hfs & Hfd & Hne).
  pose proof (outlier_flag_population data_arr i x Hfin Hi) as Hflag.
  cbn zeta in Hflag. fold values in Hflag. fold marked in Hflag.
  eexists data', sigma', _, _.
  exists (or_mask data_arr (outlier_flags data_arr).*1).
  split; [exact Hrun|]. cbn [heap]. split_and!.
  - by rewrite lookup_insert_eq.
  - done.
  - erewrite or_mask_lookup; [|done|].
    + cbn [mdata mmask]. by rewrite orb_false_r.
    + by rewrite list_lookup_fmap, Hflag.
Qed.

Lemma rejection_threshold_witness :
  ∃ data' sigma' outliers st',
    define_delete_out 0 1 (store_of (fin_cells eleven_counts) (fin_cells eleven_counts))
      = Some ((data', sigma', outliers), st') ∧
    outliers !! 0
    = Some (bool_decide (Rabs (11 - mean_of (unmasked_values (fin_cells eleven_counts)))
                         > 3 * sqrt (variance_of
                                       (unmasked_values (fin_cells eleven_counts))))%R,
            false).
Proof.
  destruct (rejection_threshold_from_unmasked_population
              (store_of (fin_cells eleven_counts) (fin_cells eleven_counts)) 0 1
              (fin_cells eleven_counts) (fin_cells eleven_counts) 0 11)
    as (data' & sigma' & outliers & st' & data_new & Hrun & _ & Hflag & _).
  - reflexivity.
  - reflexivity.
  - reflexivity.
  - apply finite_unmasked_fin_cells.
  - reflexivity.
  - exists data', sigma', outliers, st'. split; [exact Hrun|exact Hflag].
Defined.

Lemma unmasked_value_inv (a : marray) (x : R) :
  finite_unmasked a → x ∈ unmasked_values a →
  ∃ i, a !! i = Some (MCell (Fin x) false).
Proof.
  intros Hfin Hx. unfold unmasked_values in Hx.
  apply list_elem_of_fmap in Hx as (c & -> & Hc).
  apply list_elem_of_filter in Hc as [Hm Hc].
  apply list_elem_of_lookup in Hc as [i Hi]. exists i.
  pose proof (Hfin i c Hi Hm) as Hf.
  destruct c as [[r| | |] mk]; try done. cbn in Hm. by subst mk.
Qed.

(** X9.  The rejection pass never rejects every pixel: when the data
    hold at least one non-masked entry, so does the data array
    returned. *)
Theorem rejection_keeps_a_pixel
    (st : pystate) (sigma data : nat) (sigma_arr data_arr : marray) :
  heap st !! sigma = Some sigma_arr →
  heap st !! data = Some data_arr →
  length sigma_arr = length data_arr →
  finite_unmasked data_arr →
  ma_count data_arr ≠ 0 →
  ∃ data' sigma' outliers st' data_new,
    define_delete_out sigma data st = Some ((data', sigma', outliers), st') ∧
    heap st' !! data' = Some data_new ∧
    ma_count data_new ≠ 0.
Proof.
  intros Hs Hd Hlen Hfin Hcnt.
  assert (Hne : unmasked_values data_arr ≠ []).
  { intros Hnil. rewrite ma_count_unmasked_values, Hnil in Hcnt. done. }
  destruct (exists_small_deviation (mean_of (unmasked_values data_arr)) _ Hne)
    as (x & Hx & Hdev).
  destruct (unmasked_value_inv _ _ Hfin Hx) as [i Hi].
  destruct (define_delete_out_spec st sigma data sigma_arr data_arr Hs Hd Hlen)
    as (data' & sigma' & Hrun & Hfs & Hfd & Hneq).
  pose proof (outlier_flag_population data_arr i x Hfin Hi) as Hflag.
  eexists data', sigma', _, _.
  exists (or_mask data_arr (outlier_flags data_arr).*1).
  split; [exact Hrun|]. cbn [heap]. split; [by rewrite lookup_insert_eq|].
  eapply (unmasked_cell_counts _ i).
  { erewrite or_mask_lookup; [reflexivity|exact Hi|].
    by rewrite list_lookup_fmap, Hflag. }
  cbn [mmask fst]. rewrite orb_false_r.
  apply bool_decide_eq_false_2. apply within_three_sigma.
  - apply variance_of_nonneg.
  - pose proof (variance_of_nonneg (unmasked_values data_arr)).
    fold (variance_of (unmasked_values data_arr)) in Hdev. lra.
Qed.

Lemma rejection_keeps_a_pixel_witness :
  ∃ data' sigma' outliers st' data_new,
    define_delete_out 0 1 (store_of (fin_cells eleven_counts) (fin_cells eleven_counts))
      = Some ((data', sigma', outliers), st') ∧
    heap st' !! data' = Some data_new ∧
    ma_count data_new ≠ 0.
Proof.
  apply (rejection_keeps_a_pixel
           (store_of (fin_cells eleven_counts) (fin_cells eleven_counts)) 0 1
           (fin_cells eleven_counts) (fin_cells eleven_counts)).
  - reflexivity.
  - reflexivity.
  - reflexivity.
  - apply finite_unmasked_fin_cells.
  - rewrite ma_count_fin. discriminate.
Defined.

(** X10.  With ten non-masked entries or fewer, the rejection pass
    rejects nothing: no value of [n] numbers lies more than
    [sqrt (n - 1)] standard deviations from their mean.  The mask of the
    data returned is the mask of the data given, and so is that of the
    uncertainties when both arrays came with the same mask. *)
Theorem rejection_needs_eleven_pixels
    (st : pystate) (sigma data : nat) (sigma_arr data_arr : marray) :
  heap st !! sigma = Some sigma_arr →
  heap st !! data = Some data_arr →
  length sigma_arr = length data_arr →
  finite_unmasked data_arr →
  ma_count data_arr ≤ 10 →
  ∃ data' sigma' outliers st' data_new sigma_new,
    define_delete_out sigma data st = Some ((data', sigma', outliers), st') ∧
    heap st' !! data' = Some data_new ∧ heap st' !! sigma' = Some sigma_new ∧
    mmask <$> data_new = mmask <$> data_arr ∧
    (mmask <$> sigma_arr = mmask <$> data_arr →
     mmask <$> sigma_new = mmask <$> sigma_arr).
Proof.
  intros Hs Hd Hlen Hfin Hcnt.
  destruct (define_delete_out_spec st sigma data sigma_arr data_arr Hs Hd Hlen)
    as (data' & sigma' & Hrun & Hfs & Hfd & Hne).
  pose proof (outlier_flags_length data_arr) as Hfl.
  assert (Hmask : zip_with orb (outlier_flags data_arr).*1 (mmask <$> data_arr)
                  = mmask <$> data_arr).
  { apply list_eq. intros i. rewrite lookup_zip_with, !list_lookup_fmap.
    destruct (data_arr !! i) as [c|] eqn:Hi; cbn.
    - destruct (lookup_lt_is_Some_2 (outlier_flags data_arr) i) as [[b mk] Hb].
      { rewrite <- (length_fmap fst), Hfl. by eapply lookup_lt_Some. }
      rewrite Hb. cbn. f_equal.
      destruct (mmask c) eqn:Hm; [apply orb_true_r|]. rewrite orb_false_r.
      pose proof (Hfin i c Hi Hm) as Hf.
      destruct c as [[x| | |] mk']; try done. cbn in Hm. subst mk'.
      rewrite (outlier_flag_population data_arr i x Hfin Hi) in Hb.
      injection Hb as <- _. apply bool_decide_eq_false_2.
      pose proof (variance_of_nonneg (unmasked_values data_arr)) as Hv.
      apply within_three_sigma; [done|].
      pose proof (deviation_bound _ _ (unmasked_value_elem _ _ _ Hi)) as Hdev.
      rewrite <- ma_count_unmasked_values in Hdev.
      assert (INR (ma_count data_arr) <= 10)%R.
      { replace 10%R with (INR 10) by (cbn; lra). by apply le_INR. }
      nra.
    - by destruct (outlier_flags data_arr !! i). }
  eexists data', sigma', _, _.
  exists (or_mask data_arr (outlier_flags data_arr).*1),
         (or_mask sigma_arr (outlier_flags data_arr).*1).
  split; [exact Hrun|]. cbn [heap]. split_and!.
  - by rewrite lookup_insert_eq.
  - rewrite lookup_insert_ne by done. by rewrite lookup_insert_eq.
  - by rewrite or_mask_mmask.
  - intros Hsame. rewrite or_mask_mmask, Hsame. done.
Qed.

Lemma rejection_needs_eleven_pixels_witness :
  ∃ data' sigma' outliers st' data_new,
    define_delete_out 0 1 (store_of (fin_cells ten_counts) (fin_cells ten_counts))
      = Some ((data', sigma', outliers), st') ∧
    heap st' !! data' = Some data_new ∧
    mmask <$> data_new = mmask <$> fin_cells ten_counts.
Proof.
  destruct (rejection_needs_eleven_pixels
              (store_of (fin_cells ten_counts) (fin_cells ten_counts)) 0 1
              (fin_cells ten_counts) (fin_cells ten_counts))
    as (data' & sigma' & outliers & st' & data_new & sigma_new
        & Hrun & Hnew & _ & Hmask & _).
  - reflexivity.
  - reflexivity.
  - reflexivity.
  - apply finite_unmasked_fin_cells.
  - rewrite ma_count_fin. cbn. lia.
  - exists data', sigma', outliers, st', data_new.
    split; [exact Hrun|]. split; [exact Hnew|exact Hmask].
Defined.


(** ** The objectives never return [nan] *)

Lemma ma_sum_finite_or_masked (a : marray) :
  finite_unmasked a →
  ma_sum a = masked ∨ ∃ x, ma_sum a = unmasked (Fin x).
Proof.
  intros Hfin. pose proof (ma_sum_cell_values a Hfin) as Hsum.
  unfold ma_sum in *. destruct (forallb mmask a); [by left|right].
  cbn [mdata unmasked] in Hsum. eexists. unfold unmasked. by rewrite Hsum.
Qed.

Lemma LS_variance_cell_unmasked (v : float64) (n s : mcell) (f : float64) :
  mmask (LS_variance_cell v n s f) = false →
  ∃ y, LS_variance_cell v n s f = MCell (Fin y) false.
Proof.
  unfold LS_variance_cell.
  set (variance := ma_binop fadd (ma_power2 s) (unmasked v)).
  set (A := ma_true_divide (ma_power2 (ma_binop fsub n (unmasked f))) variance).
  set (B := ma_true_divide (ma_power2 s) variance).
  intros Hm. unfold ma_binop in Hm |- *. cbn [mmask] in Hm.
  rewrite Hm. apply orb_false_iff in Hm as [HA HL].
  destruct (ma_true_divide_unmasked _ _ HA) as [a Ha]. fold A in Ha.
  unfold np_log_ma in HL |- *. cbn [mmask mdata] in HL |- *.
  apply orb_false_iff in HL as [HB Hle]. rewrite Hle.
  destruct (ma_true_divide_unmasked _ _ HB) as [b Hb]. fold B in Hb.
  rewrite Ha, Hb in *. cbn [mdata unmasked] in *.
  unfold fzero in Hle. rewrite fle_fin in Hle. apply bool_decide_eq_false in Hle.
  rewrite flog_fin by lra. cbn [fsub]. by eexists.
Qed.

(** X11.  Whatever the data, the uncertainties and the model values
    (zeros, infinities and [nan] included), [LSQ], [LS_variance] and
    [LSQ_wrap_var] return either the masked constant or a finite number,
    never [nan] or an infinity: the masked-array operations mask every
    pixel whose term is not finite, and the sum skips it. *)
Theorem objectives_are_finite_or_masked
    (camera : CameraGeometry)
    (Gaussian_pdf : float64 → float64 → float64 → float64 → float64 → float64 → float64)
    (n_pe sigma : marray) (a0 a1 a2 a3 v_int : float64) :
  let finite_or_masked (r : mcell) := r = masked ∨ ∃ x, r = unmasked (Fin x) in
  finite_or_masked (LSQ camera Gaussian_pdf n_pe sigma a0 a1 a2 a3) ∧
  finite_or_masked (LS_variance camera Gaussian_pdf n_pe sigma a0 a1 a2 a3 v_int) ∧
  ∃ r, LSQ_wrap_var camera Gaussian_pdf n_pe sigma [a0; a1; a2; a3; v_int] = Some r ∧
       finite_or_masked r.
Proof.
  intros finite_or_masked.
  assert (HV : finite_or_masked
                 (LS_variance camera Gaussian_pdf n_pe sigma a0 a1 a2 a3 v_int)).
  { rewrite LS_variance_cells. apply ma_sum_finite_or_masked.
    intros i c Hi Hm. rewrite list_lookup_fmap in Hi.
    destruct (zip (zip n_pe sigma) _ !! i) as [[[cn cs] f]|]; [|done].
    injection Hi as <-. cbn [fst snd] in *.
    destruct (LS_variance_cell_unmasked _ _ _ _ Hm) as [y ->]. done. }
  split_and!.
  - rewrite LSQ_cells. apply ma_sum_finite_or_masked.
    intros i c Hi Hm. rewrite list_lookup_fmap in Hi.
    destruct (zip (zip n_pe sigma) _ !! i) as [[[cn cs] f]|]; [|done].
    injection Hi as <-. cbn [fst snd] in *.
    destruct (ma_true_divide_unmasked _ _ Hm) as [y Hy].
    unfold LSQ_cell. by rewrite Hy.
  - done.
  - eexists. split; [apply LSQ_wrap_var_LS_variance|done].
Qed.

(** ** Data under a mask do not reach the objectives *)

(** Two masked arrays that differ only in the data stored under masked
    entries. *)
Lemma ma_sum_ext (a b : marray) :
  Forall2 (λ c c', mmask c = mmask c' ∧ (mmask c = false → mdata c = mdata c')) a b →
  ma_sum a = ma_sum b.
Proof.
  intros H. unfold ma_sum.
  assert (Hall : forallb mmask a = forallb mmask b).
  { induction H as [|c c' a b [Hm _] _ IH]; [done|]. cbn. by rewrite Hm, IH. }
  assert (Hfill : ma_filled0 a = ma_filled0 b).
  { clear Hall. unfold ma_filled0. induction H as [|c c' a b [Hm Hd] _ IH]; [done|].
    rewrite !fmap_cons, IH, <- Hm. destruct (mmask c); [done|]. by rewrite Hd. }
  by rewrite Hall, Hfill.
Qed.

Lemma same_unmasked_lookup (a b : marray) (i : nat) (c c' : mcell) :
  Forall2 (λ c c', mmask c = mmask c' ∧ (mmask c = false → c = c')) a b →
  a !! i = Some c → b !! i = Some c' →
  mmask c = mmask c' ∧ (mmask c = false → c = c').
Proof.
  intros H Ha Hb. pose proof (Forall2_lookup_lr _ _ _ _ _ _ H Ha Hb) as HP.
  exact HP.
Qed.

(** X12.  The numbers stored under masked entries of [n_pe] and
    [sigma_masked] have no influence on the objectives: two pairs of
    arrays with the same masks and the same non-masked entries give the
    same [LSQ] and the same [LS_variance]. *)
Theorem objectives_ignore_masked_data
    (camera : CameraGeometry)
    (Gaussian_pdf : float64 → float64 → float64 → float64 → float64 → float64 → float64)
    (n_pe n_pe' sigma sigma' : marray) (a0 a1 a2 a3 v_int : float64) :
  Forall2 (λ c c', mmask c = mmask c' ∧ (mmask c = false → c = c')) n_pe n_pe' →
  Forall2 (λ c c', mmask c = mmask c' ∧ (mmask c = false → c = c')) sigma sigma' →
  LSQ camera Gaussian_pdf n_pe sigma a0 a1 a2 a3
    = LSQ camera Gaussian_pdf n_pe' sigma' a0 a1 a2 a3 ∧
  LS_variance camera Gaussian_pdf n_pe sigma a0 a1 a2 a3 v_int
    = LS_variance camera Gaussian_pdf n_pe' sigma' a0 a1 a2 a3 v_int.
Proof.
  intros Hn Hs.
  set (g := Gaussian_model camera Gaussian_pdf a0 a1 a2 a3 a3).
  assert (Hcells : ∀ cell : mcell → mcell → float64 → mcell,
            (∀ n s f, mmask n || mmask s = true → mmask (cell n s f) = true) →
            Forall2 (λ c c', mmask c = mmask c' ∧ (mmask c = false → mdata c = mdata c'))
              ((λ t : mcell * mcell * float64, cell t.1.1 t.1.2 t.2)
                 <$> zip (zip n_pe sigma) g)
              ((λ t : mcell * mcell * float64, cell t.1.1 t.1.2 t.2)
                 <$> zip (zip n_pe' sigma') g)).
  { intros cell Hcell. apply Forall2_fmap.
    apply Forall2_same_length_lookup. split.
    - rewrite !length_zip. by rewrite (Forall2_length _ _ _ Hn), (Forall2_length _ _ _ Hs).
    - intros i [[cn cs] f] [[cn' cs'] f'] Hi Hi'.
      apply lookup_zip_Some in Hi as [Hi Hf]. apply lookup_zip_Some in Hi as [Hcn Hcs].
      apply lookup_zip_Some in Hi' as [Hi' Hf']. apply lookup_zip_Some in Hi' as [Hcn' Hcs'].
      cbn [fst snd] in *. simplify_eq.
      destruct (same_unmasked_lookup _ _ _ _ _ Hn Hcn Hcn') as [Hmn Hdn].
      destruct (same_unmasked_lookup _ _ _ _ _ Hs Hcs Hcs') as [Hms Hds].
      destruct (mmask cn || mmask cs) eqn:Hm.
      + rewrite !Hcell; [done|by rewrite <- Hmn, <- Hms|done].
      + apply orb_false_iff in Hm as [Hm1 Hm2].
        by rewrite <- (Hdn Hm1), <- (Hds Hm2). }
  split.
  - rewrite !LSQ_cells. apply ma_sum_ext. apply Hcells. apply LSQ_cell_masked.
  - rewrite !LS_variance_cells. apply ma_sum_ext. apply Hcells.
    apply LS_variance_cell_masked.
Qed.

Lemma objectives_ignore_masked_data_witness :
  LSQ one_pixel_camera Gaussian2D_pdf [MCell (Fin 5) true] [MCell (Fin 0) true]
      (Fin 1000) (Fin 0) (Fin 0) (Fin 1.5)
  = LSQ one_pixel_camera Gaussian2D_pdf [MCell (Fin 7) true] [MCell NaN true]
        (Fin 1000) (Fin 0) (Fin 0) (Fin 1.5).
Proof.
  apply (objectives_ignore_masked_data one_pixel_camera Gaussian2D_pdf
           [MCell (Fin 5) true] [MCell (Fin 7) true]
           [MCell (Fin 0) true] [MCell NaN true]
           (Fin 1000) (Fin 0) (Fin 0) (Fin 1.5) (Fin 0)).
  - constructor; [|constructor]. split; [reflexivity|]. intros H. discriminate H.
  - constructor; [|constructor]. split; [reflexivity|]. intros H. discriminate H.
Defined.

(** ** The objectives as sums over the pixels that count *)

Lemma foldr_Rplus_nonneg (ts : list R) :
  Forall (λ t, 0 <= t)%R ts →
  (0 <= foldr Rplus 0 ts)%R ∧
  (foldr Rplus 0%R ts = 0%R ↔ Forall (λ t, t = 0%R) ts).
Proof.
  induction 1 as [|t ts Ht _ [IH1 IH2]]; cbn [foldr].
  - split; [lra|]. split; [constructor|done].
  - split; [lra|]. split.
    + intros Hsum. constructor; [lra|]. apply IH2. lra.
    + intros Hall. inversion Hall as [|? ? H0 Hrest]; subst.
      apply IH2 in Hrest. lra.
Qed.

Lemma foldr_Rplus_le (ts us : list R) :
  Forall2 Rle ts us → (foldr Rplus 0 ts <= foldr Rplus 0 us)%R.
Proof. induction 1; cbn [foldr]; lra. Qed.

Section sums_over_pixels.
Variables (n_pe sigma : marray) (g : ndarray).
Hypothesis Husable : usable n_pe sigma g.

(** Two terms that agree wherever the uncertainty is not zero give the
    same sum. *)
Lemma sum_over_unmasked_ext (term1 term2 : R → R → R → R) :
  (∀ n f s, s ≠ 0%R → term1 n f s = term2 n f s) →
  sum_over_unmasked term1 n_pe sigma g = sum_over_unmasked term2 n_pe sigma g.
Proof.
  intros Heq. unfold sum_over_unmasked. f_equal.
  apply Forall_fmap_ext_1. eapply Forall_impl; [exact (usable_triples _ _ _ Husable)|].
  intros [[cn cs] f] Ht. cbn [fst snd] in *.
  destruct (mmask cn || mmask cs); [done|].
  destruct (Ht eq_refl) as (n & s & m & [= -> -> ->] & Hs). cbn. by apply Heq.
Qed.

Lemma sum_over_unmasked_le (term1 term2 : R → R → R → R) :
  (∀ n f s, s ≠ 0%R → term1 n f s <= term2 n f s)%R →
  (sum_over_unmasked term1 n_pe sigma g <= sum_over_unmasked term2 n_pe sigma g)%R.
Proof.
  intros Hle. unfold sum_over_unmasked. apply foldr_Rplus_le.
  apply Forall2_fmap, Forall_Forall2_diag.
  eapply Forall_impl; [exact (usable_triples _ _ _ Husable)|].
  intros [[cn cs] f] Ht. cbn [fst snd] in *.
  destruct (mmask cn || mmask cs); [lra|].
  destruct (Ht eq_refl) as (n & s & m & [= -> -> ->] & Hs). cbn. by apply Hle.
Qed.

Lemma sum_over_unmasked_zero (term : R → R → R → R) :
  (∀ n f s, s ≠ 0%R → 0 <= term n f s)%R →
  (0 <= sum_over_unmasked term n_pe sigma g)%R ∧
  (sum_over_unmasked term n_pe sigma g = 0%R ↔
   ∀ i cn cs f, n_pe !! i = Some cn → sigma !! i = Some cs → g !! i = Some f →
     mmask cn = false → mmask cs = false →
     term (to_R (mdata cn)) (to_R f) (to_R (mdata cs)) = 0%R).
Proof.
  intros Hpos. unfold sum_over_unmasked.
  set (ts := _ <$> zip (zip n_pe sigma) g).
  assert (Hts : Forall (λ t, 0 <= t)%R ts).
  { apply Forall_fmap.
    eapply Forall_impl; [exact (usable_triples _ _ _ Husable)|].
    intros [[cn cs] f] Ht. cbn [fst snd compose] in *.
    destruct (mmask cn || mmask cs); [lra|].
    destruct (Ht eq_refl) as (n & s & m & [= -> -> ->] & Hs). cbn. by apply Hpos. }
  destruct (foldr_Rplus_nonneg ts Hts) as [H0 Hiff]. split; [done|].
  rewrite Hiff. unfold ts. rewrite Forall_fmap, Forall_lookup. split.
  - intros Hall i cn cs f Hn Hs Hf Hmn Hms.
    specialize (Hall i (cn, cs, f)). cbn [compose fst snd] in Hall.
    rewrite Hmn, Hms in Hall. apply Hall.
    apply lookup_zip_Some. split; [|done]. by apply lookup_zip_Some.
  - intros Hall i [[cn cs] f] Hi. cbn [compose fst snd].
    apply lookup_zip_Some in Hi as [Hi Hf]. apply lookup_zip_Some in Hi as [Hn Hs].
    cbn [fst snd] in *.
    destruct (mmask cn) eqn:Hmn; [done|]. destruct (mmask cs) eqn:Hms; [done|].
    cbn [orb]. by eapply Hall.
Qed.

Lemma sum_over_unmasked_plus (term1 term2 : R → R → R → R) :
  sum_over_unmasked (λ n f s, term1 n f s + term2 n f s)%R n_pe sigma g
  = (sum_over_unmasked term1 n_pe sigma g + sum_over_unmasked term2 n_pe sigma g)%R.
Proof.
  unfold sum_over_unmasked. induction (zip (zip n_pe sigma) g) as [|t l IH]; [cbn; lra|].
  rewrite !fmap_cons. cbn [foldr]. rewrite IH.
  destruct (mmask t.1.1 || mmask t.1.2); lra.
Qed.

End sums_over_pixels.

Lemma lsq_term_nonneg (n f s : R) : s ≠ 0%R → (0 <= lsq_term n f s)%R.
Proof.
  intros Hs. unfold lsq_term. unfold Rdiv. apply Rmult_le_pos; [apply pow2_ge_0|].
  left. apply Rinv_0_lt_compat. assert (s ^ 2 <> 0)%R by (by apply pow_nonzero).
  pose proof (pow2_ge_0 s). lra.
Qed.

Lemma lsq_term_zero (n f s : R) : s ≠ 0%R → lsq_term n f s = 0%R ↔ n = f.
Proof.
  intros Hs. unfold lsq_term.
  assert (Hs2 : (0 < s ^ 2)%R).
  { assert (s ^ 2 <> 0)%R by (by apply pow_nonzero). pose proof (pow2_ge_0 s). lra. }
  split.
  - intros H0. assert (Hsq : ((n - f) ^ 2 = 0)%R).
    { apply (Rmult_eq_reg_r (/ s ^ 2)); [|by apply Rinv_neq_0_compat; lra].
      unfold Rdiv in H0. lra. }
    assert (n - f = 0)%R; [|lra]. nra.
  - intros ->. unfold Rdiv. replace (f - f)%R with 0%R by lra. lra.
Qed.

(** X13.  On usable data (finite values and a non-zero uncertainty
    wherever a pixel is masked in neither array) [LSQ] is the sum of
    [(n_pe - f) ^ 2 / sigma ^ 2] over these pixels; it is never
    negative, and it is zero exactly when the model value equals the
    datum at every one of them. *)
Theorem LSQ_is_nonnegative_sum_of_squares
    (camera : CameraGeometry)
    (Gaussian_pdf : float64 → float64 → float64 → float64 → float64 → float64 → float64)
    (n_pe sigma : marray) (a0 a1 a2 a3 : float64) :
  let g := Gaussian_model camera Gaussian_pdf a0 a1 a2 a3 a3 in
  usable n_pe sigma g →
  ∃ s b,
    LSQ camera Gaussian_pdf n_pe sigma a0 a1 a2 a3 = MCell (Fin s) b ∧
    s = sum_over_unmasked lsq_term n_pe sigma g ∧
    (0 <= s)%R ∧
    (s = 0%R ↔
     ∀ i cn cs f, n_pe !! i = Some cn → sigma !! i = Some cs → g !! i = Some f →
       mmask cn = false → mmask cs = false → mdata cn = f).
Proof.
  intros g Hu. eexists _, _. split; [by apply LSQ_as_sum|]. split; [done|].
  fold g.
  destruct (sum_over_unmasked_zero n_pe sigma g Hu lsq_term) as [Hpos Hzero].
  { intros n f s Hs. by apply lsq_term_nonneg. }
  split; [done|]. rewrite Hzero. split.
  - intros Hall i cn cs f Hn Hs Hf Hmn Hms.
    destruct (Hu i cn cs f Hn Hs Hf Hmn Hms) as (n & s & m & Hdn & Hds & -> & Hs0).
    specialize (Hall i cn cs (Fin m) Hn Hs Hf Hmn Hms).
    rewrite Hdn, Hds in Hall. cbn [to_R] in Hall.
    apply lsq_term_zero in Hall; [|done]. by rewrite Hdn, Hall.
  - intros Hall i cn cs f Hn Hs Hf Hmn Hms.
    destruct (Hu i cn cs f Hn Hs Hf Hmn Hms) as (n & s & m & Hdn & Hds & -> & Hs0).
    specialize (Hall i cn cs (Fin m) Hn Hs Hf Hmn Hms).
    rewrite Hdn in Hall. injection Hall as ->.
    rewrite Hdn, Hds. cbn [to_R]. by apply lsq_term_zero.
Qed.

Lemma LSQ_is_nonnegative_witness :
  ∃ s b,
    LSQ one_pixel_camera Gaussian2D_pdf [MCell (Fin 1) false] [MCell (Fin 1) false]
        (Fin 0) (Fin 0) (Fin 0) (Fin 1.5) = MCell (Fin s) b ∧
    (0 <= s)%R.
Proof.
  destruct (LSQ_is_nonnegative_sum_of_squares one_pixel_camera Gaussian2D_pdf
              [MCell (Fin 1) false] [MCell (Fin 1) false]
              (Fin 0) (Fin 0) (Fin 0) (Fin 1.5))
    as (s & b & Hrun & _ & Hpos & _).
  - rewrite Gaussian_model_zero_amplitude by lra. apply usable_one_pixel. lra.
  - exists s, b. split; [exact Hrun|exact Hpos].
Defined.

(** ** The logarithm of the variance objective is a penalty *)

Lemma variance_term_split (v n f s : R) :
  (0 <= v)%R → s ≠ 0%R →
  variance_term_code v n f s
  = (variance_residual_term v n f s + variance_penalty_term v n f s)%R.
Proof.
  intros Hv Hs. unfold variance_term_code, variance_residual_term, variance_penalty_term.
  assert (Hs2 : (0 < s ^ 2)%R).
  { assert (s ^ 2 <> 0)%R by (by apply pow_nonzero). pose proof (pow2_ge_0 s). lra. }
  assert (Hpos : (0 < 1 + v / s ^ 2)%R).
  { assert (0 <= v / s ^ 2)%R; [|lra]. unfold Rdiv. apply Rmult_le_pos; [done|].
    left. by apply Rinv_0_lt_compat. }
  replace (s ^ 2 / (s ^ 2 + v))%R with (/ (1 + v / s ^ 2))%R by (field; lra).
  rewrite ln_Rinv by done. lra.
Qed.

Lemma variance_penalty_nonneg (v n f s : R) :
  (0 <= v)%R → s ≠ 0%R → (0 <= variance_penalty_term v n f s)%R.
Proof.
  intros Hv Hs. unfold variance_penalty_term.
  assert (Hs2 : (0 < s ^ 2)%R).
  { assert (s ^ 2 <> 0)%R by (by apply pow_nonzero). pose proof (pow2_ge_0 s). lra. }
  assert (Hx : (0 <= v / s ^ 2)%R).
  { unfold Rdiv. apply Rmult_le_pos; [done|]. left. by apply Rinv_0_lt_compat. }
  rewrite <- ln_1. destruct (Req_dec (v / s ^ 2) 0) as [->|Hne].
  - replace (1 + 0)%R with 1%R by lra. lra.
  - left. apply ln_increasing; lra.
Qed.

Lemma variance_residual_bounds (v n f s : R) :
  (0 <= v)%R → s ≠ 0%R →
  (0 <= variance_residual_term v n f s <= lsq_term n f s)%R.
Proof.
  intros Hv Hs. unfold variance_residual_term, lsq_term.
  assert (Hs2 : (0 < s ^ 2)%R).
  { assert (s ^ 2 <> 0)%R by (by apply pow_nonzero). pose proof (pow2_ge_0 s). lra. }
  pose proof (pow2_ge_0 (n - f)) as Hsq. unfold Rdiv. split.
  - apply Rmult_le_pos; [done|]. left. apply Rinv_0_lt_compat. lra.
  - apply Rmult_le_compat_l; [done|]. apply Rinv_le_contravar; lra.
Qed.

(** X14.  On usable data and for [v_int >= 0], [LS_variance] is the sum
    of two parts: the squared residuals over [sigma ^ 2 + v_int], which
    lie between 0 and the value of [LSQ]; and the logarithms, which the
    code subtracts and which amount to adding [ln (1 + v_int / sigma ^ 2)]
    per pixel, a penalty that is never negative and is 0 at
    [v_int = 0]. *)
Theorem variance_objective_adds_penalty
    (camera : CameraGeometry)
    (Gaussian_pdf : float64 → float64 → float64 → float64 → float64 → float64 → float64)
    (n_pe sigma : marray) (a0 a1 a2 a3 : float64) (v : R) :
  let g := Gaussian_model camera Gaussian_pdf a0 a1 a2 a3 a3 in
  (0 <= v)%R →
  usable n_pe sigma g →
  let residuals := sum_over_unmasked (variance_residual_term v) n_pe sigma g in
  let penalty := sum_over_unmasked (variance_penalty_term v) n_pe sigma g in
  ∃ b,
    LS_variance camera Gaussian_pdf n_pe sigma a0 a1 a2 a3 (Fin v)
      = MCell (Fin (residuals + penalty)) b ∧
    (0 <= residuals <= sum_over_unmasked lsq_term n_pe sigma g)%R ∧
    (0 <= penalty)%R ∧
    (v = 0%R → penalty = 0%R).
Proof.
  intros g Hv Hu residuals penalty.
  eexists. split_and!.
  - rewrite (LS_variance_as_sum camera Gaussian_pdf n_pe sigma a0 a1 a2 a3 v Hv Hu).
    fold g. do 2 f_equal.
    rewrite (sum_over_unmasked_ext n_pe sigma g Hu (variance_term_code v)
               (λ n f s, variance_residual_term v n f s
                         + variance_penalty_term v n f s)%R).
    + apply sum_over_unmasked_plus.
    + intros n f s Hs. by apply variance_term_split.
  - apply (sum_over_unmasked_zero n_pe sigma g Hu).
    intros n f s Hs. by apply variance_residual_bounds.
  - apply (sum_over_unmasked_le n_pe sigma g Hu).
    intros n f s Hs. by apply variance_residual_bounds.
  - apply (sum_over_unmasked_zero n_pe sigma g Hu).
    intros n f s Hs. by apply variance_penalty_nonneg.
  - intros ->. apply (sum_over_unmasked_zero n_pe sigma g Hu).
    { intros n f s Hs. apply variance_penalty_nonneg; [lra|done]. }
    intros i cn cs f _ _ _ _ _. unfold variance_penalty_term.
    unfold Rdiv. rewrite Rmult_0_l, Rplus_0_r. apply ln_1.
Qed.

Lemma variance_objective_adds_penalty_witness :
  ∃ b,
    LS_variance one_pixel_camera Gaussian2D_pdf [MCell (Fin 1) false] [MCell (Fin 1) false]
                (Fin 0) (Fin 0) (Fin 0) (Fin 1.5) (Fin 1)
    = MCell (Fin (sum_over_unmasked (variance_residual_term 1)
                    [MCell (Fin 1) false] [MCell (Fin 1) false]
                    (Gaussian_model one_pixel_camera Gaussian2D_pdf
                                    (Fin 0) (Fin 0) (Fin 0) (Fin 1.5) (Fin 1.5))
                  + sum_over_unmasked (variance_penalty_term 1)
                      [MCell (Fin 1) false] [MCell (Fin 1) false]
                      (Gaussian_model one_pixel_camera Gaussian2D_pdf
                                      (Fin 0) (Fin 0) (Fin 0) (Fin 1.5) (Fin 1.5)))) b.
Proof.
  destruct (variance_objective_adds_penalty one_pixel_camera Gaussian2D_pdf
              [MCell (Fin 1) false] [MCell (Fin 1) false]
              (Fin 0) (Fin 0) (Fin 0) (Fin 1.5) 1)
    as (b & Hrun & _).
  - lra.
  - rewrite Gaussian_model_zero_amplitude by lra. apply usable_one_pixel. lra.
  - exists b. exact Hrun.
Defined.


(** ** The bins of the rebinning *)

Lemma arange_lookup (a s : R) (n k : nat) :
  k < n →
  ((λ k : nat, Fin (a + INR k * s)) <$> seq 0 n) !! k = Some (Fin (a + INR k * s)).
Proof. intros Hk. by rewrite list_lookup_fmap, lookup_seq_lt. Qed.

Lemma rebin_by_theta_bins (theta y yerr centers ry rye : ndarray) :
  rebin_by_theta theta y yerr = Some (centers, ry, rye) →
  ∃ lo hi n,
    np_min theta = Some (Fin lo) ∧ np_max theta = Some (Fin hi) ∧
    n = Z.to_nat (Rceil ((hi + 0.1 - lo) / 0.1)) ∧
    np_arange (Fin lo) (Fin (hi + 0.1)) (Fin 0.1)
      = Some ((λ k : nat, Fin (lo + INR k * 0.1)) <$> seq 0 n) ∧
    length centers = n - 1 ∧ length ry = n - 1 ∧ length rye = n - 1 ∧
    centers = zip_with (λ a b, fmul (Fin 0.5) (fadd a b))
                (take (n - 1) ((λ k : nat, Fin (lo + INR k * 0.1)) <$> seq 0 n))
                (tail ((λ k : nat, Fin (lo + INR k * 0.1)) <$> seq 0 n)).
Proof.
  intros Hr.
  destruct (rebin_by_theta_spec _ _ _ _ _ _ Hr)
    as (lo & hi & bins & sum_y & sum_e & Hlo & Hhi & Hbins & _ & _ & L1 & L2 & _).
  destruct (np_arange_inv _ _ _ _ Hbins) as (a & b & s & -> & Hb & [= <-] & Hs & Hb').
  destruct hi as [h| | |]; try done. cbn [fadd] in Hb. injection Hb as <-.
  exists a, h, (Z.to_nat (Rceil ((h + 0.1 - a) / 0.1))).
  assert (Hlen : length bins = Z.to_nat (Rceil ((h + 0.1 - a) / 0.1))).
  { rewrite Hb'. by rewrite length_fmap, length_seq. }
  split_and!; try done.
  - cbn [fadd] in Hbins. by rewrite Hbins, Hb'.
  - unfold rebin_by_theta in Hr. rewrite Hlo, Hhi in Hr. cbn [mbind option_bind] in Hr.
    rewrite Hbins in Hr. cbn [mbind option_bind] in Hr.
    destruct (np_histogram_weights theta bins y); [|done].
    destruct (np_histogram_weights theta bins yerr); [|done].
    cbn [mbind option_bind] in Hr. destruct (np_histogram theta bins); [|done].
    cbn [mbind option_bind] in Hr. injection Hr as <- _ _.
    rewrite length_zip_with, length_take, length_tl. lia.
  - lia.
  - lia.
  - unfold rebin_by_theta in Hr. rewrite Hlo, Hhi in Hr. cbn [mbind option_bind] in Hr.
    rewrite Hbins in Hr. cbn [mbind option_bind] in Hr.
    destruct (np_histogram_weights theta bins y); [|done].
    destruct (np_histogram_weights theta bins yerr); [|done].
    cbn [mbind option_bind] in Hr. destruct (np_histogram theta bins); [|done].
    cbn [mbind option_bind] in Hr. injection Hr as <- _ _.
    by rewrite Hlen, Hb'.
Qed.

(** X16.  The three arrays the rebinning returns have the same length,
    the number of bins; the bins are 0.1 degree wide and start at the
    smallest angular distance [lo], so that the centre of bin [j] is
    [lo + 0.1 * j + 0.05]. *)
Theorem rebinned_arrays_are_aligned (theta y yerr centers ry rye : ndarray) :
  rebin_by_theta theta y yerr = Some (centers, ry, rye) →
  ∃ lo,
    np_min theta = Some (Fin lo) ∧
    length ry = length centers ∧ length rye = length centers ∧
    ∀ j, j < length centers → centers !! j = Some (Fin (lo + 0.1 * INR j + 0.05)).
Proof.
  intros Hr.
  destruct (rebin_by_theta_bins _ _ _ _ _ _ Hr)
    as (lo & hi & n & Hlo & Hhi & Hn & Hbins & Lc & Ly & Le & Hc).
  exists lo. split_and!; [done|lia|lia|].
  intros j Hj. rewrite Hc, lookup_zip_with.
  rewrite lookup_take_lt by lia. rewrite arange_lookup by lia. cbn [mbind option_bind].
  rewrite lookup_tail, arange_lookup by lia. cbn [mbind option_bind fadd fmul].
  do 2 f_equal. rewrite S_INR. lra.
Qed.

Lemma rebinned_arrays_are_aligned_witness :
  ∃ centers ry rye lo,
    rebin_by_theta [Fin 0; Fin (1 / 4)] [Fin 2; Fin 4] (fsqrt <$> [Fin 1; Fin 9])
      = Some (centers, ry, rye) ∧
    np_min [Fin 0; Fin (1 / 4)] = Some (Fin lo) ∧
    length ry = length centers ∧ length rye = length centers.
Proof.
  destruct two_pixel_rebin as [[[centers ry] rye] Hr].
  destruct (rebinned_arrays_are_aligned _ _ _ _ _ _ Hr) as (lo & Hlo & L1 & L2 & _).
  exists centers, ry, rye, lo.
  split; [exact Hr|]. split; [exact Hlo|]. split; [exact L1|exact L2].
Defined.

(** ** Every pixel falls into one bin *)

Lemma foldl_fmin_fin (x : float64) (a : ndarray) (lo : R) :
  foldl fmin x a = Fin lo →
  Forall (λ t, t ≠ NaN ∧ t ≠ NInf ∧ ∀ r, t = Fin r → (lo <= r)%R) (x :: a).
Proof.
  revert x. induction a as [|y a IH]; intros x Hx.
  - cbn in Hx. subst x. constructor; [|constructor].
    split_and!; [done..|]. intros r [= <-]. lra.
  - cbn [foldl] in Hx. apply IH in Hx.
    apply Forall_cons in Hx as [(Hnan & Hninf & Hle) Hrest].
    assert (Hxy : (x ≠ NaN ∧ x ≠ NInf ∧ ∀ r, x = Fin r → (lo <= r)%R) ∧
                  (y ≠ NaN ∧ y ≠ NInf ∧ ∀ r, y = Fin r → (lo <= r)%R)).
    { destruct x as [p| | |], y as [q| | |]; unfold fmin, flt in Hnan, Hninf, Hle;
        try done; repeat case_bool_decide; try done;
        split; (split_and!; try done); intros r Hr; simplify_eq;
        try (specialize (Hle _ eq_refl)); lra. }
    destruct Hxy as [Hx' Hy']. by repeat (constructor; [done|]).
Qed.

Lemma foldl_fmax_fin (x : float64) (a : ndarray) (hi : R) :
  foldl fmax x a = Fin hi →
  Forall (λ t, t ≠ NaN ∧ t ≠ PInf ∧ ∀ r, t = Fin r → (r <= hi)%R) (x :: a).
Proof.
  revert x. induction a as [|y a IH]; intros x Hx.
  - cbn in Hx. subst x. constructor; [|constructor].
    split_and!; [done..|]. intros r [= <-]. lra.
  - cbn [foldl] in Hx. apply IH in Hx.
    apply Forall_cons in Hx as [(Hnan & Hpinf & Hle) Hrest].
    assert (Hxy : (x ≠ NaN ∧ x ≠ PInf ∧ ∀ r, x = Fin r → (r <= hi)%R) ∧
                  (y ≠ NaN ∧ y ≠ PInf ∧ ∀ r, y = Fin r → (r <= hi)%R)).
    { destruct x as [p| | |], y as [q| | |]; unfold fmax, flt in Hnan, Hpinf, Hle;
        try done; repeat case_bool_decide; try done;
        split; (split_and!; try done); intros r Hr; simplify_eq;
        try (specialize (Hle _ eq_refl)); lra. }
    destruct Hxy as [Hx' Hy']. by repeat (constructor; [done|]).
Qed.

(** When the smallest and the largest element of an array are finite,
    all its elements are, and lie between the two. *)
Lemma np_min_max_fin (a : ndarray) (lo hi : R) :
  np_min a = Some (Fin lo) → np_max a = Some (Fin hi) →
  ∀ t, t ∈ a → ∃ x, t = Fin x ∧ (lo <= x <= hi)%R.
Proof.
  unfold np_min, np_max. destruct a as [|x a]; [done|].
  intros [= Hmin%foldl_fmin_fin] [= Hmax%foldl_fmax_fin] t Ht.
  rewrite Forall_forall in Hmin, Hmax.
  destruct (Hmin t Ht) as (H1 & H2 & H3). destruct (Hmax t Ht) as (H4 & H5 & H6).
  destruct t as [r| | |]; try done. exists r. split; [done|].
  split; [by apply H3|by apply H6].
Qed.

Lemma Rceil_bounds (r : R) : (r <= IZR (Rceil r) < r + 1)%R.
Proof.
  unfold Rceil. destruct (archimed (- r)) as [H1 H2].
  rewrite minus_IZR. lra.
Qed.

Lemma arange_bin_exists (lo w : R) (m : nat) (x : R) :
  (0 < w)%R → 0 < m → (lo <= x <= lo + INR m * w)%R →
  ∃ j, j < m ∧ in_arange_bin lo w m j x.
Proof.
  intros Hw Hm Hx.
  assert (Hsearch : ∀ k, k ≤ m → (lo + INR k * w <= x)%R ∨
                         ∃ j, j < k ∧ (lo + INR j * w <= x < lo + INR (S j) * w)%R).
  { induction k as [|k IH]; intros Hk.
    - left. cbn. lra.
    - destruct (IH ltac:(lia)) as [Hle|(j & Hj & Hin)].
      + destruct (Rle_dec (lo + INR (S k) * w) x) as [Hle'|Hgt]; [by left|].
        right. exists k. split; [lia|]. lra.
      + right. exists j. split; [lia|done]. }
  destruct (Hsearch m ltac:(lia)) as [Hle|(j & Hj & Hin)].
  - destruct m as [|m]; [lia|]. exists m. split; [lia|]. unfold in_arange_bin.
    rewrite decide_True by done. rewrite S_INR in *.
    assert (0 <= w)%R by lra. split; nra.
  - exists j. split; [done|]. unfold in_arange_bin. split; [lra|].
    case_decide; lra.
Qed.

Lemma arange_bin_unique (lo w : R) (m j j' : nat) (x : R) :
  (0 < w)%R → j < m → j' < m →
  in_arange_bin lo w m j x → in_arange_bin lo w m j' x → j = j'.
Proof.
  intros Hw Hj Hj' [H1 H2] [H1' H2'].
  destruct (Nat.lt_trichotomy j j') as [Hlt|[->|Hlt]]; [|done|].
  - rewrite decide_False in H2 by lia.
    assert (INR (S j) <= INR j')%R by (apply le_INR; lia). nra.
  - rewrite decide_False in H2' by lia.
    assert (INR (S j') <= INR j)%R by (apply le_INR; lia). nra.
Qed.

Lemma in_bin_arange (lo w : R) (n j : nat) (x : R) :
  in_bin ((λ k : nat, Fin (lo + INR k * w)) <$> seq 0 n) j (Fin x) = true ↔
  S j < n ∧ in_arange_bin lo w (n - 1) j x.
Proof.
  unfold in_bin, in_arange_bin. rewrite length_fmap, length_seq.
  destruct (decide (S j < n)) as [Hj|Hj].
  - rewrite !arange_lookup by lia. rewrite fle_fin.
    destruct (decide (S (S j) = n)) as [Hlast|Hlast].
    + rewrite decide_True by lia. rewrite fle_fin, andb_true_iff, !bool_decide_eq_true.
      tauto.
    + rewrite decide_False by lia. unfold flt.
      rewrite andb_true_iff, !bool_decide_eq_true. tauto.
  - rewrite list_lookup_fmap.
    destruct (decide (j < n)).
    + rewrite lookup_seq_lt by lia. cbn.
      rewrite list_lookup_fmap, lookup_seq_ge by lia. cbn. split; [done|]. tauto.
    + rewrite lookup_seq_ge by lia. cbn. split; [done|]. tauto.
Qed.

(** X17.  No pixel is lost by the rebinning: when the smallest
    angular distance [lo] is below the largest [hi], the bins
    [lo + 0.1 * k] reach [hi] and every pixel falls into exactly one of
    them, the last bin taking the pixels at [hi].  When all pixels are
    at the same distance there is no bin, and the rebinned arrays are
    empty. *)
Theorem rebinning_covers_every_pixel
    (theta y yerr centers ry rye : ndarray) (lo hi : R) :
  rebin_by_theta theta y yerr = Some (centers, ry, rye) →
  np_min theta = Some (Fin lo) →
  np_max theta = Some (Fin hi) →
  ∃ bins,
    np_arange (Fin lo) (Fin (hi + 0.1)) (Fin 0.1) = Some bins ∧
    length centers = length bins - 1 ∧
    (lo = hi → centers = [] ∧ ry = [] ∧ rye = []) ∧
    ((lo < hi)%R →
      ∀ t, t ∈ theta →
        ∃ j, j < length centers ∧ in_bin bins j t = true ∧
             ∀ j', in_bin bins j' t = true → j' = j).
Proof.
  intros Hr Hlo Hhi.
  destruct (rebin_by_theta_bins _ _ _ _ _ _ Hr)
    as (lo' & hi' & n & Hlo' & Hhi' & Hn & Hbins & Lc & Ly & Le & Hc).
  rewrite Hlo in Hlo'. rewrite Hhi in Hhi'. injection Hlo' as <-. injection Hhi' as <-.
  eexists. split; [exact Hbins|]. rewrite length_fmap, length_seq.
  split; [done|].
  pose proof (Rceil_bounds ((hi + 0.1 - lo) / 0.1)) as [Hc1 Hc2].
  set (c := Rceil ((hi + 0.1 - lo) / 0.1)) in *.
  split.
  - intros ->.
    replace ((hi + 0.1 - hi) / 0.1)%R with 1%R in * by (field; lra).
    assert (Hc' : c = 1%Z).
    { assert (0 < c)%Z by (apply lt_IZR; lra).
      assert (c < 2)%Z by (apply lt_IZR; lra). lia. }
    rewrite Hc' in Hn. change (Z.to_nat 1) with 1 in Hn. subst n.
    cbn in Lc, Ly, Le.
    by destruct centers, ry, rye.
  - intros Hlt t Ht.
    destruct (np_min_max_fin theta lo hi Hlo Hhi t Ht) as (x & -> & Hx).
    assert (Hz : (1 < (hi + 0.1 - lo) / 0.1)%R).
    { apply (Rmult_lt_reg_r 0.1); [lra|].
      replace ((hi + 0.1 - lo) / 0.1 * 0.1)%R with (hi + 0.1 - lo)%R by (field; lra).
      lra. }
    assert (Hc2' : (2 <= c)%Z).
    { assert (1 < c)%Z by (apply lt_IZR; lra). lia. }
    assert (Hn' : INR n = IZR c).
    { rewrite Hn, INR_IZR_INZ, Z2Nat.id by lia. done. }
    assert (Hn2 : 2 ≤ n) by (rewrite Hn; lia).
    assert (Hlast : (hi <= lo + INR (n - 1) * 0.1)%R).
    { rewrite minus_INR by lia. rewrite Hn'. cbn [INR].
      assert (hi + 0.1 - lo <= IZR c * 0.1)%R; [|lra].
      apply (Rmult_le_compat_r 0.1) in Hc1; [|lra].
      replace ((hi + 0.1 - lo) / 0.1 * 0.1)%R with (hi + 0.1 - lo)%R in Hc1
        by (field; lra).
      done. }
    destruct (arange_bin_exists lo 0.1 (n - 1) x) as (j & Hj & Hin); [lra|lia|lra|].
    exists j. split; [lia|]. split.
    + apply in_bin_arange. split; [lia|done].
    + intros j' [Hj' Hin']%in_bin_arange.
      eapply (arange_bin_unique lo 0.1 (n - 1)); [lra|lia|lia|done..].
Qed.

Lemma rebinning_covers_every_pixel_witness :
  ∃ centers ry rye bins,
    rebin_by_theta [Fin 0; Fin (1 / 4)] [Fin 2; Fin 4] (fsqrt <$> [Fin 1; Fin 9])
      = Some (centers, ry, rye) ∧
    np_arange (Fin 0) (Fin (1 / 4 + 0.1)) (Fin 0.1) = Some bins ∧
    length centers = length bins - 1.
Proof.
  destruct two_pixel_rebin as [[[centers ry] rye] Hr].
  destruct (rebinning_covers_every_pixel _ _ _ _ _ _ 0 (1 / 4) Hr)
    as (bins & Hbins & Hlen & _).
  - exact two_pixel_min.
  - exact two_pixel_max.
  - exists centers, ry, rye, bins.
    split; [exact Hr|]. split; [exact Hbins|exact Hlen].
Defined.


(** ** The pixel closest to the fitted peak *)

Lemma argmin_step_fin (i0 i : nat) (b v : R) :
  argmin_step (i0, Fin b) (i, Fin v)
  = if bool_decide (v < b)%R then (i, Fin v) else (i0, Fin b).
Proof. reflexivity. Qed.

(** The scan of [np.argmin] from the position [s], with the best
    element so far [b], found at [i0 < s]. *)
Lemma argmin_scan (l : list R) (i0 s : nat) (b : R) :
  i0 < s →
  ∃ k m,
    foldl argmin_step (i0, Fin b) (zip (seq s (length l)) (Fin <$> l)) = (k, Fin m) ∧
    (m <= b)%R ∧ (k = i0 → m = b) ∧
    (k ≠ i0 → (m < b)%R ∧ s ≤ k ∧ l !! (k - s) = Some m) ∧
    ∀ j v, l !! j = Some v → (m <= v)%R ∧ (s + j < k → (m < v)%R).
Proof.
  revert i0 s b. induction l as [|v0 l IH]; intros i0 s b Hi0.
  - exists i0, b. cbn. split_and!; try done; try lra.
  - cbn [length seq fmap list_fmap zip zip_with foldl]. rewrite argmin_step_fin.
    case_bool_decide as Hlt.
    + destruct (IH s (S s) v0 ltac:(lia)) as (k & m & Hrun & Hle & Heq & Hne & Hall).
      exists k, m. split; [exact Hrun|]. split; [lra|]. split.
      { intros ->. destruct (decide (i0 = s)) as [->|Hd]; [lia|].
        destruct (Hne Hd) as (_ & Hge & _). lia. }
      split.
      { intros _. destruct (decide (k = s)) as [->|Hd].
        - rewrite (Heq eq_refl). split; [done|]. split; [done|].
          by rewrite Nat.sub_diag.
        - destruct (Hne Hd) as (Hm & Hge & Hl). split; [lra|]. split; [lia|].
          replace (k - s) with (S (k - S s)) by lia. done. }
      intros [|j] v Hj.
      * injection Hj as <-. split; [done|]. intros Hk.
        destruct (Hne ltac:(lia)) as (Hm & _). done.
      * destruct (Hall j v Hj) as [H1 H2]. split; [done|]. intros Hk. apply H2. lia.
    + destruct (IH i0 (S s) b ltac:(lia)) as (k & m & Hrun & Hle & Heq & Hne & Hall).
      exists k, m. split; [exact Hrun|]. split; [done|]. split; [done|]. split.
      { intros Hd. destruct (Hne Hd) as (Hm & Hge & Hl). split; [done|]. split; [lia|].
        replace (k - s) with (S (k - S s)) by lia. done. }
      intros [|j] v Hj.
      * injection Hj as <-. split; [lra|]. intros Hk.
        destruct (Hne ltac:(lia)) as (Hm & _). lra.
      * destruct (Hall j v Hj) as [H1 H2]. split; [done|]. intros Hk. apply H2. lia.
Qed.

(** [np.argmin] of finite numbers: the first position of the minimum. *)
Lemma np_argmin_fin (l : list R) :
  l ≠ [] →
  ∃ k m,
    np_argmin (Fin <$> l) = Some k ∧ l !! k = Some m ∧
    ∀ j v, l !! j = Some v → (m <= v)%R ∧ (j < k → (m < v)%R).
Proof.
  destruct l as [|b l]; [done|]. intros _.
  destruct (argmin_scan l 0 1 b ltac:(lia)) as (k & m & Hrun & Hle & Heq & Hne & Hall).
  exists k, m. unfold np_argmin. rewrite fmap_cons, length_fmap, Hrun. cbn [fst].
  split; [done|]. split.
  - destruct (decide (k = 0)) as [->|Hd].
    + by rewrite (Heq eq_refl).
    + destruct (Hne Hd) as (_ & Hge & Hl).
      replace k with (S (k - 1)) by lia. done.
  - intros [|j] v Hj.
    + injection Hj as <-. split; [done|]. intros Hk.
      destruct (Hne ltac:(lia)) as (Hm & _). done.
    + destruct (Hall j v Hj) as [H1 H2]. split; [done|]. intros Hk. apply H2. lia.
Qed.

Lemma dist_squared_fin (xs ys : list R) (x0 y0 : R) :
  zip_with (λ px py, fadd (fsquare (fsub px (Fin x0))) (fsquare (fsub py (Fin y0))))
           (Fin <$> xs) (Fin <$> ys)
  = Fin <$> zip_with (λ px py, (px - x0) * (px - x0) + (py - y0) * (py - y0))%R xs ys.
Proof.
  revert ys. induction xs as [|x xs IH]; intros [|y ys]; try done.
  cbn [fmap list_fmap zip_with]. f_equal. apply IH.
Qed.

(** X18.  [characterize_peak] finds the pixel closest to the fitted
    centre, the first one when several are equally close, and returns
    the distance of that pixel, not of the fitted centre itself, from
    the origin of the camera frame.  The two agree when the fitted
    centre is a pixel position. *)
Theorem peak_distance_is_radius_of_closest_pixel
    (camera : CameraGeometry) (vals : list float64) (fit : ndarray)
    (xs ys : list R) (x0 y0 : R) :
  pix_x camera = Fin <$> xs → pix_y camera = Fin <$> ys →
  length xs = length ys → xs ≠ [] →
  vals !! 1 = Some (Fin x0) → vals !! 2 = Some (Fin y0) →
  ∃ k cx cy,
    xs !! k = Some cx ∧ ys !! k = Some cy ∧
    characterize_peak camera vals fit = Some (Fin (sqrt (cx * cx + cy * cy))) ∧
    (∀ j px py, xs !! j = Some px → ys !! j = Some py →
       ((cx - x0) ^ 2 + (cy - y0) ^ 2 <= (px - x0) ^ 2 + (py - y0) ^ 2)%R ∧
       (j < k → ((cx - x0) ^ 2 + (cy - y0) ^ 2 < (px - x0) ^ 2 + (py - y0) ^ 2)%R)) ∧
    (∀ j, xs !! j = Some x0 → ys !! j = Some y0 → cx = x0 ∧ cy = y0).
Proof.
  intros Hpx Hpy Hlen Hne Hx0 Hy0.
  set (d2 := zip_with (λ px py, (px - x0) * (px - x0) + (py - y0) * (py - y0))%R xs ys).
  assert (Hd2 : d2 ≠ []).
  { unfold d2. destruct xs, ys; try done. }
  destruct (np_argmin_fin d2 Hd2) as (k & m & Hk & Hm & Hmin).
  assert (Hlook : ∀ j v, d2 !! j = Some v ↔
            ∃ px py, xs !! j = Some px ∧ ys !! j = Some py ∧
                     v = ((px - x0) * (px - x0) + (py - y0) * (py - y0))%R).
  { intros j v. unfold d2. rewrite lookup_zip_with_Some. split.
    - intros (px & py & -> & H1 & H2). by exists px, py.
    - intros (px & py & H1 & H2 & ->). by exists px, py. }
  destruct (proj1 (Hlook k m) Hm) as (cx & cy & Hcx & Hcy & ->).
  exists k, cx, cy. split; [done|]. split; [done|].
  assert (Hall : ∀ j px py, xs !! j = Some px → ys !! j = Some py →
       ((cx - x0) ^ 2 + (cy - y0) ^ 2 <= (px - x0) ^ 2 + (py - y0) ^ 2)%R ∧
       (j < k → ((cx - x0) ^ 2 + (cy - y0) ^ 2 < (px - x0) ^ 2 + (py - y0) ^ 2)%R)).
  { intros j px py Hjx Hjy.
    destruct (Hmin j ((px - x0) * (px - x0) + (py - y0) * (py - y0))%R) as [H1 H2].
    { apply Hlook. by exists px, py. }
    split; [lra|]. intros Hj. specialize (H2 Hj). lra. }
  split_and!; [|done|].
  - unfold characterize_peak. rewrite Hx0, Hy0. cbn [mbind option_bind].
    rewrite Hpx, Hpy, dist_squared_fin. fold d2. rewrite Hk. cbn [mbind option_bind].
    rewrite !list_lookup_fmap, Hcx, Hcy. cbn [fmap option_fmap option_map mbind option_bind].
    cbn [fsquare fmul fadd]. rewrite fsqrt_fin by nra. done.
  - intros j Hjx Hjy. destruct (Hall j x0 y0 Hjx Hjy) as [Hle _].
    assert ((cx - x0) ^ 2 = 0 ∧ (cy - y0) ^ 2 = 0)%R as [H1 H2].
    { pose proof (pow2_ge_0 (cx - x0)). pose proof (pow2_ge_0 (cy - y0)).
      replace ((x0 - x0) ^ 2 + (y0 - y0) ^ 2)%R with 0%R in Hle by ring. lra. }
    split; nra.
Qed.

Lemma peak_distance_witness :
  ∃ k cx cy,
    [0; 1; 2]%R !! k = Some cx ∧ [0; 0; 0]%R !! k = Some cy ∧
    characterize_peak three_pixel_camera [Fin 1000; Fin 1.2; Fin 0; Fin 1.5] []
      = Some (Fin (sqrt (cx * cx + cy * cy))).
Proof.
  destruct (peak_distance_is_radius_of_closest_pixel three_pixel_camera
              [Fin 1000; Fin 1.2; Fin 0; Fin 1.5] [] [0; 1; 2]%R [0; 0; 0]%R 1.2 0)
    as (k & cx & cy & Hx & Hy & Hrun & _).
  - reflexivity.
  - reflexivity.
  - reflexivity.
  - discriminate.
  - reflexivity.
  - reflexivity.
  - exists k, cx, cy. split; [exact Hx|]. split; [exact Hy|exact Hrun].
Defined.


(** ** The raw-ratio coefficients, pixel by pixel *)

Lemma np_column0_lookup (a : ndarray2) (col : ndarray) (i : nat) (row : list float64) :
  np_column0 a = Some col → rows2 a !! i = Some row → col !! i = row !! 0.
Proof.
  unfold np_column0. intros Hcol%mapM_Some Hrow.
  destruct (Forall2_lookup_l _ _ _ _ _ Hcol Hrow) as (x & Hx & Hx'). by rewrite Hx.
Qed.

Lemma relative_signal_lookup (out : nat → float64)
    (charges : ndarray) (gains : ndarray2) (rs : marray)
    (i : nat) (q g : float64) (row : list float64) :
  relative_signal out charges gains = Some rs →
  charges !! i = Some q → rows2 gains !! i = Some row → row !! 0 = Some g →
  rs !! i = Some (np_divide_ma (out i) (unmasked q) (unmasked g)).
Proof.
  unfold relative_signal. intros Hrs Hq Hrow Hg.
  destruct (np_column0 gains) as [gains0|] eqn:Hcol; [|done].
  cbn [mbind option_bind] in Hrs. injection Hrs as <-.
  apply np_divide_ma_where_lookup; unfold ma_of; rewrite list_lookup_fmap.
  - by rewrite Hq.
  - by rewrite (np_column0_lookup _ _ _ _ Hcol Hrow), Hg.
Qed.

(** X19.  In the raw-ratio coefficients a pixel whose first high gain
    is zero is masked (its datum is the fill value 1); every other pixel
    gets its charge over its gain, divided by the mean of these ratios
    over the pixels of non-zero gain. *)
Theorem raw_ratio_masks_zero_gain
    (out : nat → float64) (charges : ndarray) (gains : ndarray2)
    (rs : marray) (m : R) :
  relative_signal out charges gains = Some rs →
  ma_mean rs = unmasked (Fin m) →
  m ≠ 0%R →
  ∃ eff,
    compute_ff_coefs out charges gains = Some eff ∧
    length eff = length rs ∧
    ∀ i q g row,
      charges !! i = Some (Fin q) → rows2 gains !! i = Some row →
      row !! 0 = Some (Fin g) →
      eff !! i = Some (if decide (g = 0%R) then MCell (Fin 1) true
                       else MCell (Fin (q / g / m)) false).
Proof.
  intros Hrs Hmean Hm. unfold compute_ff_coefs. rewrite Hrs. cbn [mbind option_bind].
  eexists. split; [reflexivity|]. split; [by rewrite length_fmap|].
  intros i q g row Hq Hrow Hg.
  rewrite list_lookup_fmap, (relative_signal_lookup _ _ _ _ _ _ _ _ Hrs Hq Hrow Hg), Hmean.
  cbn [fmap option_fmap option_map]. f_equal. case_decide as Hg0.
  - subst g. unfold unmasked at 1. rewrite np_divide_ma_zero by done.
    unfold ma_true_divide. cbn [mmask mdata]. by rewrite !orb_true_r.
  - rewrite np_divide_ma_fin by done. unfold unmasked.
    by rewrite ma_true_divide_fin.
Qed.

Lemma raw_ratio_masks_zero_gain_witness :
  ∃ eff,
    compute_ff_coefs (λ _, NaN) three_charges three_gains = Some eff ∧
    eff !! 0 = Some (MCell (Fin (2 / 1 / 3)) false) ∧
    eff !! 2 = Some (MCell (Fin 1) true).
Proof.
  destruct (raw_ratio_masks_zero_gain (λ _, NaN) three_charges three_gains _ 3
              (three_pixels_relative_signal _) three_pixels_mean)
    as (eff & Hrun & _ & Hcells).
  - lra.
  - exists eff. split; [exact Hrun|]. split.
    + rewrite (Hcells 0 2%R 1%R [Fin 1]) by reflexivity.
      rewrite decide_False by lra. reflexivity.
    + rewrite (Hcells 2 5%R 0%R [Fin 0]) by reflexivity.
      rewrite decide_True by reflexivity. reflexivity.
Defined.

(** ** The raw-ratio coefficients do not depend on the unit of charge *)

Lemma ratio_cell_cases (out : float64) (q g : R) :
  np_divide_ma out (unmasked (Fin q)) (unmasked (Fin g))
  = if decide (g = 0%R) then MCell (Fin 1) true else MCell (Fin (q / g)) false.
Proof.
  case_decide as Hg.
  - subst g. by apply np_divide_ma_zero.
  - by apply np_divide_ma_fin.
Qed.

(** On finite charges and gains the relative signal does not depend on
    what the output array held. *)
Lemma relative_signal_fin (out : nat → float64) (qs gs : list R) (gains : ndarray2) :
  np_column0 gains = Some (Fin <$> gs) →
  relative_signal out (Fin <$> qs) gains
  = Some (zip_with (λ q g, np_divide_ma NaN (unmasked (Fin q)) (unmasked (Fin g)))
                   qs gs).
Proof.
  intros Hcol. unfold relative_signal. rewrite Hcol. cbn [mbind option_bind]. f_equal.
  unfold np_divide_ma_where, ma_of. apply list_eq. intros i.
  rewrite list_lookup_imap, !lookup_zip_with, !list_lookup_fmap.
  destruct (qs !! i) as [q|]; [|done]. cbn [fmap option_fmap option_map mbind option_bind].
  destruct (gs !! i) as [g|]; [|done]. cbn [fmap option_fmap option_map mbind option_bind].
  cbn [fst snd]. by rewrite !ratio_cell_cases.
Qed.

Section scaled_charges.
Variables (qs gs : list R) (k : R).
Hypothesis Hk : k ≠ 0%R.

Local Abbreviation ratios :=
  (zip_with (λ q g, np_divide_ma NaN (unmasked (Fin q)) (unmasked (Fin g))) qs gs).
Local Abbreviation scaled_ratios :=
  (zip_with (λ q g, np_divide_ma NaN (unmasked (Fin (k * q))) (unmasked (Fin g))) qs gs).

Lemma ratios_finite : finite_unmasked ratios.
Proof.
  intros i c Hi _. apply lookup_zip_with_Some in Hi as (q & g & -> & _ & _).
  rewrite ratio_cell_cases. by case_decide.
Qed.

Lemma scaled_ratios_finite : finite_unmasked scaled_ratios.
Proof.
  intros i c Hi _. apply lookup_zip_with_Some in Hi as (q & g & -> & _ & _).
  rewrite ratio_cell_cases. by case_decide.
Qed.

Lemma scaled_ratios_values :
  unmasked_values scaled_ratios = (λ x, k * x)%R <$> unmasked_values ratios.
Proof.
  clear Hk. revert gs. induction qs as [|q qs' IH]; intros [|g gs']; try done.
  cbn [zip_with]. rewrite !unmasked_values_cons, !ratio_cell_cases.
  case_decide as Hg; cbn [mmask mdata to_R].
  - apply IH.
  - rewrite fmap_cons, IH. f_equal. field. done.
Qed.

Lemma Rsum_scaled (l : list R) : Rsum ((λ x, k * x)%R <$> l) = (k * Rsum l)%R.
Proof.
  induction l as [|x l IH]; [cbn; lra|]. rewrite fmap_cons, !Rsum_cons, IH. lra.
Qed.

Lemma scaled_ratios_mean (m : R) :
  ma_mean ratios = unmasked (Fin m) →
  ma_mean scaled_ratios = unmasked (Fin (k * m)).
Proof.
  intros Hmean.
  destruct (ma_mean_cell_values _ m ratios_finite Hmean) as [Hcnt _].
  rewrite (ma_mean_population _ ratios_finite Hcnt) in Hmean.
  injection Hmean as <-.
  assert (Hcnt' : ma_count scaled_ratios ≠ 0).
  { by rewrite ma_count_unmasked_values, scaled_ratios_values, length_fmap,
      <- ma_count_unmasked_values. }
  rewrite (ma_mean_population _ scaled_ratios_finite Hcnt').
  do 2 f_equal. unfold mean_of.
  rewrite scaled_ratios_values, Rsum_scaled, length_fmap. field.
  rewrite <- ma_count_unmasked_values. by apply not_0_INR.
Qed.

Lemma scaled_ratios_coefficients (m : R) :
  m ≠ 0%R →
  (λ c, ma_true_divide c (unmasked (Fin (k * m)))) <$> scaled_ratios
  = (λ c, ma_true_divide c (unmasked (Fin m))) <$> ratios.
Proof.
  intros Hm. revert gs. induction qs as [|q qs' IH]; intros [|g gs']; try done.
  cbn [zip_with]. rewrite !fmap_cons, IH. f_equal. rewrite !ratio_cell_cases.
  case_decide as Hg.
  - unfold ma_true_divide. cbn [mmask mdata]. by rewrite !orb_true_r.
  - unfold unmasked. rewrite !ma_true_divide_fin by nra. do 2 f_equal. field. done.
Qed.

End scaled_charges.

(** X20.  Multiplying every charge by the same non-zero factor leaves
    the raw-ratio coefficients as they are, masks and data: they are
    relative quantities.  (Finite charges and gains, and a mean relative
    signal different from zero.) *)
Theorem raw_ratio_is_scale_invariant
    (out out' : nat → float64)
    (qs gs : list R) (gains : ndarray2) (rs : marray) (m k : R) :
  np_column0 gains = Some (Fin <$> gs) →
  relative_signal out (Fin <$> qs) gains = Some rs →
  ma_mean rs = unmasked (Fin m) →
  m ≠ 0%R → k ≠ 0%R →
  compute_ff_coefs out' (Fin <$> ((λ q, k * q)%R <$> qs)) gains
  = compute_ff_coefs out (Fin <$> qs) gains.
Proof.
  intros Hcol Hrs Hmean Hm Hk.
  rewrite (relative_signal_fin out qs gs gains Hcol) in Hrs. injection Hrs as <-.
  unfold compute_ff_coefs. rewrite !(relative_signal_fin _ _ gs gains Hcol).
  cbn [mbind option_bind]. f_equal.
  rewrite zip_with_fmap_l.
  rewrite (scaled_ratios_mean qs gs k m Hmean), Hmean.
  by apply scaled_ratios_coefficients.
Qed.

Lemma raw_ratio_is_scale_invariant_witness :
  compute_ff_coefs (λ _, NaN) (Fin <$> ((λ q, 10 * q)%R <$> [2; 4; 5]%R)) three_gains
  = compute_ff_coefs (λ _, Fin 7) (Fin <$> [2; 4; 5]%R) three_gains.
Proof.
  apply (raw_ratio_is_scale_invariant (λ _, Fin 7) (λ _, NaN)
           [2; 4; 5]%R [1; 1; 0]%R three_gains
           [MCell (Fin (2 / 1)) false; MCell (Fin (4 / 1)) false; MCell (Fin 1) true]
           3 10).
  - reflexivity.
  - exact (three_pixels_relative_signal _).
  - exact three_pixels_mean.
  - lra.
  - lra.
Defined.

(** ** The model-based coefficients under a mask *)

(** X21.  The model-based coefficients at the pixels that do not
    count.  A pixel that is masked in the data, or whose model value is
    zero, is masked in the uncertainties of the coefficients.  In the
    coefficients, a pixel whose model value is zero is masked and set
    to the fill value 1, unless its datum is [nan]: then the cell is
    neither written nor filled, it holds what the output array held and
    carries the mask of the datum.  A pixel that is masked in the data,
    with a non-zero model value, stays masked and keeps the quotient of
    its datum and the model value under the mask.  A non-masked pixel
    whose datum equals its non-zero model value gets the coefficient
    1. *)
Theorem model_ratio_masks_unusable_pixels
    (out : nat → float64) (data : marray) (data_std model_ model_std : ndarray)
    (i : nat) (d : mcell) (ds m ms : float64) :
  data !! i = Some d → data_std !! i = Some ds →
  model_ !! i = Some m → model_std !! i = Some ms →
  let result := compute_ff_coefs_model out data data_std model_ model_std in
  (mmask d = true ∨ m = fzero → mmask <$> result.2 !! i = Some true) ∧
  (m = fzero → mdata d ≠ NaN → result.1 !! i = Some (MCell (Fin 1) true)) ∧
  (m = fzero → mdata d = NaN → result.1 !! i = Some (MCell (out i) (mmask d))) ∧
  (∀ x y, mmask d = true → mdata d = Fin x → m = Fin y → y ≠ 0%R →
     result.1 !! i = Some (MCell (Fin (x / y)) true)) ∧
  (∀ x, d = MCell (Fin x) false → m = Fin x → x ≠ 0%R →
     result.1 !! i = Some (MCell (Fin 1) false)).
Proof.
  intros Hd Hds Hm Hms result.
  assert (H1 : result.1 !! i = Some (np_divide_ma (out i) d (unmasked m))).
  { unfold result, compute_ff_coefs_model, ma_of. cbn [fst].
    apply np_divide_ma_where_lookup; [done|]. by rewrite list_lookup_fmap, Hm. }
  assert (H2 : result.2 !! i
               = Some (np_sqrt_ma
                         (ma_binop fadd (unmasked (fsquare (fdiv ds m)))
                            (ma_power2
                               (ma_true_divide (ma_binop fmul d (unmasked ms))
                                               (unmasked (fsquare m))))))).
  { unfold result, compute_ff_coefs_model, ma_of. cbn [snd].
    rewrite list_lookup_fmap, lookup_zip_with, !list_lookup_fmap, !lookup_zip_with.
    rewrite ?list_lookup_fmap, ?lookup_zip_with, ?list_lookup_fmap.
    by rewrite ?Hd, ?Hds, ?Hm, ?Hms. }
  split_and!.
  - intros Hcase. rewrite H2. cbn [fmap option_fmap option_map].
    assert (Hcond : mmask d || feq m fzero = true).
    { destruct Hcase as [->| ->]; [done|].
      unfold fzero. rewrite feq_fin, bool_decide_eq_true_2 by done. apply orb_true_r. }
    f_equal.
    assert (Hq : mmask (ma_true_divide (ma_binop fmul d (unmasked ms))
                                       (unmasked (fsquare m))) = true).
    { unfold ma_true_divide, ma_binop. cbn [mmask mdata unmasked].
      rewrite !orb_false_r.
      apply orb_true_iff in Hcond as [->|Hz]; [apply orb_true_r|].
      destruct m as [r| | |]; try done. unfold fzero in Hz. rewrite feq_fin in Hz.
      apply bool_decide_eq_true in Hz. subst r.
      unfold fsquare, fmul, fzero. rewrite feq_fin.
      rewrite (bool_decide_eq_true_2 (0 * 0 = 0)%R) by lra.
      by rewrite orb_true_r. }
    pose proof (ma_power2_masked _ Hq) as Hp.
    set (B := ma_power2 _) in *.
    unfold np_sqrt_ma, ma_binop. cbn [mmask mdata unmasked]. by rewrite Hp.
  - intros -> Hnan. rewrite H1. f_equal. destruct d as [x b]. cbn [mdata] in Hnan.
    by apply np_divide_ma_zero.
  - intros -> Hnan. rewrite H1. f_equal. destruct d as [x b]. cbn [mdata] in Hnan.
    subst x. unfold np_divide_ma, unmasked, fzero, fne, domain_safe_divide.
    cbn [mmask mdata]. rewrite feq_fin, bool_decide_eq_true_2 by done.
    cbn [negb]. by rewrite !orb_false_r.
  - intros x y Hmask Hx -> Hy. rewrite H1. f_equal. destruct d as [x' b].
    cbn [mdata mmask] in Hx, Hmask. subst x' b.
    unfold np_divide_ma, unmasked, fzero, fne, domain_safe_divide.
    cbn [mmask mdata orb].
    rewrite feq_fin, !bool_decide_eq_false_2 by done. cbn [negb].
    by rewrite fdiv_fin.
  - intros x -> -> Hx. rewrite H1. f_equal.
    change (MCell (Fin x) false) with (unmasked (Fin x)).
    rewrite np_divide_ma_fin by done.
    unfold unmasked. do 2 f_equal. by field.
Qed.

(** Three pixels against the model values 0, 0 and 2: a datum 3 over a
    zero model value is masked and filled with 1; a [nan] over a zero
    model value is left as the output array held it, here 7, and not
    masked; a masked datum 3 over the model value 2 keeps 3/2 under its
    mask. *)
Lemma model_ratio_masks_witness :
  (compute_ff_coefs_model (λ _, Fin 7)
     [MCell (Fin 3) false; MCell NaN false; MCell (Fin 3) true]
     [Fin 0.1; Fin 0.1; Fin 0.1] [Fin 0; Fin 0; Fin 2]
     [Fin 0.05; Fin 0.05; Fin 0.05]).1
  !! 0 = Some (MCell (Fin 1) true) ∧
  (compute_ff_coefs_model (λ _, Fin 7)
     [MCell (Fin 3) false; MCell NaN false; MCell (Fin 3) true]
     [Fin 0.1; Fin 0.1; Fin 0.1] [Fin 0; Fin 0; Fin 2]
     [Fin 0.05; Fin 0.05; Fin 0.05]).1
  !! 1 = Some (MCell (Fin 7) false) ∧
  (compute_ff_coefs_model (λ _, Fin 7)
     [MCell (Fin 3) false; MCell NaN false; MCell (Fin 3) true]
     [Fin 0.1; Fin 0.1; Fin 0.1] [Fin 0; Fin 0; Fin 2]
     [Fin 0.05; Fin 0.05; Fin 0.05]).1
  !! 2 = Some (MCell (Fin (3 / 2)) true).
Proof.
  split_and!.
  - destruct (model_ratio_masks_unusable_pixels (λ _, Fin 7)
                [MCell (Fin 3) false; MCell NaN false; MCell (Fin 3) true]
                [Fin 0.1; Fin 0.1; Fin 0.1] [Fin 0; Fin 0; Fin 2]
                [Fin 0.05; Fin 0.05; Fin 0.05]
                0 (MCell (Fin 3) false) (Fin 0.1) (Fin 0) (Fin 0.05))
      as (_ & Hzero & _); [reflexivity..|].
    apply Hzero; [reflexivity|done].
  - destruct (model_ratio_masks_unusable_pixels (λ _, Fin 7)
                [MCell (Fin 3) false; MCell NaN false; MCell (Fin 3) true]
                [Fin 0.1; Fin 0.1; Fin 0.1] [Fin 0; Fin 0; Fin 2]
                [Fin 0.05; Fin 0.05; Fin 0.05]
                1 (MCell NaN false) (Fin 0.1) (Fin 0) (Fin 0.05))
      as (_ & _ & Hnan & _); [reflexivity..|].
    apply Hnan; reflexivity.
  - destruct (model_ratio_masks_unusable_pixels (λ _, Fin 7)
                [MCell (Fin 3) false; MCell NaN false; MCell (Fin 3) true]
                [Fin 0.1; Fin 0.1; Fin 0.1] [Fin 0; Fin 0; Fin 2]
                [Fin 0.05; Fin 0.05; Fin 0.05]
                2 (MCell (Fin 3) true) (Fin 0.1) (Fin 2) (Fin 0.05))
      as (_ & _ & _ & Hkeep & _); [reflexivity..|].
    apply (Hkeep 3%R 2%R); [reflexivity..|lra].
Defined.


(** ** The tally after the fit with intrinsic variance *)

Lemma ma_masked_array_count (x y : marray) (m : list bool) :
  ma_masked_array x m = Some y → ma_count y ≤ ma_count x.
Proof.
  unfold ma_masked_array.
  assert (Hone : ∀ b, ma_count ((λ c, MCell (mdata c) (b || mmask c)) <$> x)
                      ≤ ma_count x).
  { intros b. induction x as [|c x IH]; [done|].
    rewrite fmap_cons, !ma_count_cons. cbn [mmask].
    destruct (mmask c); [rewrite orb_true_r|rewrite orb_false_r; destruct b]; lia. }
  destruct m as [|b [|b' m]].
  - case_decide; [|done]. intros [= <-]. apply or_mask_count.
  - intros [= <-]. apply Hone.
  - case_decide; [|done]. intros [= <-]. apply or_mask_count.
Qed.

Section main_script_runs.
Variable camera : CameraGeometry.
Variable Gaussian_pdf :
  float64 → float64 → float64 → float64 → float64 → float64 → float64.
Variable Minuit_migrad :
  (list float64 → option mcell) → list float64 → list nat → MinuitResult.
Variable jacobi_propagate :
  (list float64 → ndarray) → list float64 → list (list float64) →
  ndarray * list (list float64).
Variable empty_ff empty_ff_model : nat → float64.

(** What a run of the first part of the main script leaves behind. *)
Lemma main_first_fit_inv (c : GainContainer) (st st' : pystate) (first : FirstFit) :
  main_first_fit camera Gaussian_pdf Minuit_migrad jacobi_propagate c st
    = Some (first, st') →
  let pre := ff_pre first in
  pre_process_fits c = Some pre ∧
  heap st' !! ff_n_pe first = Some (pp_n_pe pre) ∧
  heap st' !! ff_sigma_masked first = Some (pp_sigma_masked pre) ∧
  error_propagation_compute camera Gaussian_pdf jacobi_propagate (ff_minuit_1 first) true
    = Some (ff_dict_errors first) ∧
  ∃ missing hg_zero,
    pp_dict_missing_pix pre !! "Missing pixels" = Some missing ∧
    pp_dict_missing_pix pre !! "high_gain = 0" = Some hg_zero ∧
    dict_missing_pix st'
    = <["rejected_outliers" :=
          (1855 - Z.of_nat (ma_count (pp_sigma_masked pre)) - missing - hg_zero)%Z]>
        (pp_dict_missing_pix pre).
Proof.
  intros Hrun pre. unfold main_first_fit in Hrun.
  apply bind_Some in Hrun as (pre' & st1 & [Hpre ->]%lift_Some & Hrun).
  apply bind_Some in Hrun as (sl & st1 & (E1 & F1 & L1)%ma_new_extends & Hrun).
  apply bind_Some in Hrun as (nl & st2 & (E2 & F2 & L2)%ma_new_extends & Hrun).
  apply bind_Some in Hrun as ([] & st3 & Hset & Hrun). injection Hset as <-.
  apply bind_Some in Hrun as ([[[d1 f1] m1] r1] & st4 & Hfit & Hrun).
  apply optimize_with_outlier_rejection_frame in Hfit
    as ([D4 E4] & F4 & data_arr & data_new & Hd & Ld & Hdn).
  cbn [heap dict_missing_pix] in *.
  apply bind_Some in Hrun as (dict_errors & st5 & [Hprop ->]%lift_Some & Hrun).
  apply bind_Some in Hrun as ([] & st6 & Htally & Hrun).
  injection Hrun as <- <-. cbn [ff_pre ff_n_pe ff_sigma_masked ff_minuit_1 ff_dict_errors] in *.
  subst pre.
  apply tally_rejected_outliers_inv in Htally
    as (sigma_arr & missing & hg_zero & Hs & Hm & Hh & ->).
  cbn [heap dict_missing_pix].
  assert (Hsl : heap st4 !! sl = Some (pp_sigma_masked pre')).
  { apply E4. destruct E2 as [_ E2]. by apply E2. }
  rewrite Hsl in Hs. injection Hs as <-.
  split_and!; [done|by apply E4|done|done|].
  rewrite D4 in Hm, Hh |- *. by exists missing, hg_zero.
Qed.

(** What a run of the fit with intrinsic variance leaves behind. *)
Lemma optimize_with_outlier_rejection_variance_inv
    (sigma data : nat) (start : list float64) (st st' : pystate)
    (n_pe : nat) (fit : ndarray) (minuit : MinuitResult) (residuals : marray) :
  optimize_with_outlier_rejection_variance camera Gaussian_pdf Minuit_migrad
      sigma data start st
    = Some ((n_pe, fit, minuit, residuals), st') →
  ∃ sigma_arr data_arr sigma_new missing hg_zero,
    heap st !! sigma = Some sigma_arr ∧ heap st !! data = Some data_arr ∧
    ma_masked_array sigma_arr (outlier_flags data_arr).*1 = Some sigma_new ∧
    dict_missing_pix st !! "Missing pixels" = Some missing ∧
    dict_missing_pix st !! "high_gain = 0" = Some hg_zero ∧
    dict_missing_pix st'
    = <["rejected_outliers" :=
          (1855 - Z.of_nat (ma_count sigma_new) - missing - hg_zero)%Z]>
        (dict_missing_pix st) ∧
    ∀ l a, heap st !! l = Some a → heap st' !! l = Some a.
Proof.
  unfold optimize_with_outlier_rejection_variance. intros H.
  apply bind_Some in H as ([[d' s'] o] & st1 & Hddo & H).
  apply define_delete_out_inv in Hddo
    as (sigma_arr & data_arr & sigma_new & data_new & Hs & Hd & -> & Hsn & Hdn
        & [D1 E1] & Fs & Fd & Ls & Ld).
  apply bind_Some in H as (n_pe_arr & st2 & [-> Hn]%ma_read_inv & H).
  apply bind_Some in H as (s_arr & st2 & [-> Hsr]%ma_read_inv & H).
  apply bind_Some in H as ([] & st3 & Htally & H).
  injection H as <- <- <- <- <-.
  apply tally_rejected_outliers_inv in Htally
    as (sigma_arr' & missing & hg_zero & Hs' & Hm & Hh & ->).
  rewrite Ls in Hs'. injection Hs' as <-.
  exists sigma_arr, data_arr, sigma_new, missing, hg_zero.
  cbn [heap dict_missing_pix]. rewrite D1 in Hm, Hh |- *.
  split_and!; try done.
Qed.

(** X22.  The main script, run to its end.  Without the second fit
    the dictionary keeps the tally of the first part, computed from the
    module-level [sigma_masked].  With the second fit
    ([add_variance = True]) the entry [rejected_outliers] is computed
    again, inside the fitter, from the fitter's own [sigma_masked], in
    which the three-sigma outliers of [n_pe] are masked as well: the
    tally now counts them, and is never below the first one.  In both
    cases the flat-field calculators receive the module-level arrays:
    the model-based coefficients are computed from [n_pe] without the
    outlier masks. *)
Theorem main_script_tally_and_coefficients
    (c : GainContainer) (add_variance : bool) (st st' : pystate)
    (first : FirstFit) (variance : option MinuitResult)
    (simple_ff_coefs : marray) (ff_model : marray * marray) :
  main_script camera Gaussian_pdf Minuit_migrad jacobi_propagate
              empty_ff empty_ff_model c add_variance st
    = Some ((first, variance, simple_ff_coefs, ff_model), st') →
  let pre := ff_pre first in
  ∃ missing hg_zero sigma_new,
    pre_process_fits c = Some pre ∧
    pp_dict_missing_pix pre !! "Missing pixels" = Some missing ∧
    pp_dict_missing_pix pre !! "high_gain = 0" = Some hg_zero ∧
    ma_masked_array (pp_sigma_masked pre) (outlier_flags (pp_n_pe pre)).*1
      = Some sigma_new ∧
    ma_count sigma_new ≤ ma_count (pp_sigma_masked pre) ∧
    dict_missing_pix st' !! "rejected_outliers"
      = Some (1855 - Z.of_nat (ma_count (if add_variance then sigma_new
                                         else pp_sigma_masked pre))
              - missing - hg_zero)%Z ∧
    dict_missing_pix st' !! "Missing pixels" = Some missing ∧
    dict_missing_pix st' !! "high_gain = 0" = Some hg_zero ∧
    (add_variance = false → variance = None) ∧
    compute_ff_coefs empty_ff (pp_charge pre) (pp_high_gain pre)
      = Some simple_ff_coefs ∧
    ff_model = compute_ff_coefs_model empty_ff_model (pp_n_pe pre) (pp_std_n_pe pre)
                 (model_values (ff_dict_errors first))
                 (model_errors (ff_dict_errors first)).
Proof.
  intros Hrun pre. unfold main_script in Hrun.
  apply bind_Some in Hrun as (first' & st1 & Hfirst & Hrun).
  pose proof Hfirst as Hfirst'.
  apply main_first_fit_inv in Hfirst
    as (Hpre & Hn & Hs & Hprop & missing & hg_zero & Hm & Hh & Hdict).
  apply bind_Some in Hrun as (variance' & st2 & Hvar & Hrun).
  apply bind_Some in Hrun as (eff & st3 & [Heff ->]%lift_Some & Hrun).
  apply bind_Some in Hrun as (n_pe_arr & st3 & [-> Hread]%ma_read_inv & Hrun).
  injection Hrun as <- <- <- <- <-. fold pre in Hpre, Hn, Hs, Hm, Hh, Hdict.
  (* the first fit succeeded, so the rejection pass can be replayed *)
  unfold main_first_fit in Hfirst'.
  apply bind_Some in Hfirst' as (pre' & s1 & [Hpre' ->]%lift_Some & Hfirst').
  apply bind_Some in Hfirst' as (sl & s1 & (E1 & F1 & L1)%ma_new_extends & Hfirst').
  apply bind_Some in Hfirst' as (nl & s2 & (E2 & F2 & L2)%ma_new_extends & Hfirst').
  apply bind_Some in Hfirst' as ([] & s3 & Hset & Hfirst'). injection Hset as <-.
  apply bind_Some in Hfirst' as ([[[d1 f1] m1] r1] & s4 & Hfit & Hfirst').
  unfold optimize_with_outlier_rejection in Hfit.
  apply bind_Some in Hfit as ([[d' s'] o] & s5 & Hddo & _).
  apply define_delete_out_inv in Hddo
    as (sigma_arr & data_arr & sigma_new & data_new & Hsa & Hda & -> & Hsn & _).
  cbn [heap] in Hsa, Hda.
  assert (sigma_arr = pp_sigma_masked pre') as ->.
  { destruct E2 as [_ E2]. apply E2 in L1. congruence. }
  assert (data_arr = pp_n_pe pre') as -> by congruence.
  assert (pre' = pre) as -> by congruence.
  clear Hfirst'.
  exists missing, hg_zero, sigma_new.
  split_and!; try done.
  - by eapply ma_masked_array_count.
  - destruct add_variance.
    + apply bind_Some in Hvar as ([[[dv fv] mv] rv] & s6 & Hfit2 & Hvar).
      apply optimize_with_outlier_rejection_variance_inv in Hfit2
        as (sa & da & sn & mi & hz & Hsa' & Hda' & Hsn' & Hmi & Hhz & Hd2 & _).
      apply bind_Some in Hvar as (pv & s7 & [_ ->]%lift_Some & Hvar).
      injection Hvar as <- <-.
      rewrite Hs in Hsa'. injection Hsa' as <-.
      rewrite Hn in Hda'. injection Hda' as <-.
      rewrite Hsn in Hsn'. injection Hsn' as <-.
      rewrite Hdict in Hmi, Hhz.
      rewrite lookup_insert_ne in Hmi by done. rewrite lookup_insert_ne in Hhz by done.
      rewrite Hd2, lookup_insert_eq. congruence.
    + injection Hvar as <- <-. by rewrite Hdict, lookup_insert_eq.
  - destruct add_variance.
    + apply bind_Some in Hvar as ([[[dv fv] mv] rv] & s6 & Hfit2 & Hvar).
      apply optimize_with_outlier_rejection_variance_inv in Hfit2
        as (sa & da & sn & mi & hz & _ & _ & _ & _ & _ & Hd2 & _).
      apply bind_Some in Hvar as (pv & s7 & [_ ->]%lift_Some & Hvar).
      injection Hvar as <- <-.
      rewrite Hd2, lookup_insert_ne by done. by rewrite Hdict, lookup_insert_ne.
    + injection Hvar as <- <-. by rewrite Hdict, lookup_insert_ne.
  - destruct add_variance.
    + apply bind_Some in Hvar as ([[[dv fv] mv] rv] & s6 & Hfit2 & Hvar).
      apply optimize_with_outlier_rejection_variance_inv in Hfit2
        as (sa & da & sn & mi & hz & _ & _ & _ & _ & _ & Hd2 & _).
      apply bind_Some in Hvar as (pv & s7 & [_ ->]%lift_Some & Hvar).
      injection Hvar as <- <-.
      rewrite Hd2, lookup_insert_ne by done. by rewrite Hdict, lookup_insert_ne.
    + injection Hvar as <- <-. by rewrite Hdict, lookup_insert_ne.
  - intros ->. by injection Hvar as <- <-.
  - f_equal. destruct add_variance.
    + apply bind_Some in Hvar as ([[[dv fv] mv] rv] & s6 & Hfit2 & Hvar).
      apply optimize_with_outlier_rejection_variance_inv in Hfit2
        as (sa & da & sn & mi & hz & _ & _ & _ & _ & _ & _ & Hext).
      apply bind_Some in Hvar as (pv & s7 & [_ ->]%lift_Some & Hvar).
      injection Hvar as <- <-.
      apply Hext in Hn. congruence.
    + injection Hvar as <- <-. congruence.
Qed.

(** ** The main script returns *)

Lemma first_fit_minuit (sigma data : nat) (st st' : pystate)
    (n_pe : nat) (fit : ndarray) (minuit : MinuitResult) (residuals : marray) :
  optimize_with_outlier_rejection camera Gaussian_pdf Minuit_migrad sigma data st
    = Some ((n_pe, fit, minuit, residuals), st') →
  ∃ fcn, minuit = Minuit_migrad fcn [Fin 1000; Fin 0; Fin 0; Fin 1.5] [].
Proof.
  unfold optimize_with_outlier_rejection. intros H.
  apply bind_Some in H as ([[d' s'] o] & st1 & _ & H).
  apply bind_Some in H as (n_pe_arr & st2 & _ & H).
  apply bind_Some in H as (s_arr & st3 & _ & H).
  injection H as <- <- <- <- <-. by eexists.
Qed.

Lemma main_first_fit_minuit (c : GainContainer) (st st' : pystate) (first : FirstFit) :
  main_first_fit camera Gaussian_pdf Minuit_migrad jacobi_propagate c st
    = Some (first, st') →
  ∃ fcn, ff_minuit_1 first = Minuit_migrad fcn [Fin 1000; Fin 0; Fin 0; Fin 1.5] [].
Proof.
  unfold main_first_fit. intros Hrun.
  apply bind_Some in Hrun as (pre' & st1 & _ & Hrun).
  apply bind_Some in Hrun as (sl & st2 & _ & Hrun).
  apply bind_Some in Hrun as (nl & st3 & _ & Hrun).
  apply bind_Some in Hrun as ([] & st4 & _ & Hrun).
  apply bind_Some in Hrun as ([[[d1 f1] m1] r1] & st5 & Hfit & Hrun).
  apply first_fit_minuit in Hfit as [fcn ->].
  apply bind_Some in Hrun as (dict_errors & st6 & _ & Hrun).
  apply bind_Some in Hrun as ([] & st7 & _ & Hrun).
  injection Hrun as <- <-. by exists fcn.
Qed.

Lemma optimize_with_outlier_rejection_variance_total
    (st : pystate) (sigma data : nat) (start : list float64)
    (sigma_arr data_arr : marray) (missing hg_zero : Z) :
  heap st !! sigma = Some sigma_arr → heap st !! data = Some data_arr →
  length sigma_arr = length data_arr →
  dict_missing_pix st !! "Missing pixels" = Some missing →
  dict_missing_pix st !! "high_gain = 0" = Some hg_zero →
  ∃ n_pe fit residuals st' fcn,
    optimize_with_outlier_rejection_variance camera Gaussian_pdf Minuit_migrad
        sigma data start st
      = Some ((n_pe, fit, Minuit_migrad fcn start [0; 3; 4], residuals), st').
Proof.
  intros Hs Hd Hlen Hm Hh.
  destruct (define_delete_out_total st sigma data _ _ Hs Hd Hlen)
    as [[[[d' s'] o] st1] Hddo].
  pose proof (define_delete_out_inv _ _ _ _ _ _ _ Hddo)
    as (sa & da & sn & dn & _ & _ & _ & _ & _ & [D1 _] & _ & _ & Ls & Ld).
  unfold optimize_with_outlier_rejection_variance.
  unfold mbind at 1, M_bind at 1. rewrite Hddo.
  unfold mbind at 1, M_bind at 1. rewrite (ma_read_spec _ _ _ Ld).
  unfold mbind at 1, M_bind at 1. rewrite (ma_read_spec _ _ _ Ls).
  unfold mbind at 1, M_bind at 1. unfold tally_rejected_outliers.
  unfold mbind at 1, M_bind at 1. rewrite (ma_read_spec _ _ _ Ls).
  unfold mbind at 1, M_bind at 1. unfold dict_get at 1. rewrite D1, Hm.
  unfold mbind at 1, M_bind at 1. unfold dict_get at 1. rewrite D1, Hh.
  by eexists _, _, _, _, _.
Qed.

(** On a sparse input the main script returns, provided the error
    propagation does on the results of the two fits. *)
Lemma main_script_total (c : GainContainer) (add_variance : bool) (st : pystate) :
  sparse_input c →
  (∀ fcn, is_Some (error_propagation_compute camera Gaussian_pdf jacobi_propagate
                     (Minuit_migrad fcn [Fin 1000; Fin 0; Fin 0; Fin 1.5] []) true)) →
  (∀ fcn fcn',
     let minuit_1 := Minuit_migrad fcn [Fin 1000; Fin 0; Fin 0; Fin 1.5] [] in
     is_Some (error_propagation_compute camera Gaussian_pdf jacobi_propagate
                (Minuit_migrad fcn'
                   [value_at minuit_1 0; value_at minuit_1 1; value_at minuit_1 2;
                    value_at minuit_1 3; Fin 0] [0; 3; 4]) true)) →
  is_Some (main_script camera Gaussian_pdf Minuit_migrad jacobi_propagate
                       empty_ff empty_ff_model c add_variance st).
Proof.
  intros Hc Hprop1 Hprop2.
  destruct (main_first_fit_total camera Gaussian_pdf Minuit_migrad jacobi_propagate
              c st Hc Hprop1) as [[first st1] Hfirst].
  pose proof (main_first_fit_minuit _ _ _ _ Hfirst) as [fcn Hminuit].
  pose proof (main_first_fit_inv _ _ _ _ Hfirst)
    as (Hpre & Hn & Hs & _ & missing & hg_zero & Hm & Hh & Hdict).
  destruct (pre_process_fits_spec c Hc)
    as (cd & pre & hg0 & _ & Hcol & Hpre' & _ & _ & Hslen & Hnlen & _ & Hhg & _ & _
        & Hsig & _).
  rewrite Hpre in Hpre'. injection Hpre' as <-.
  unfold main_script.
  unfold mbind at 1, M_bind at 1. rewrite Hfirst.
  assert (Hvar : ∃ variance st2,
            (if add_variance
             then '(data_variance, fit_variance, minuit_variance_result, residuals) ←
                    optimize_with_outlier_rejection_variance
                      camera Gaussian_pdf Minuit_migrad
                      (ff_sigma_masked first) (ff_n_pe first)
                      [value_at (ff_minuit_1 first) 0; value_at (ff_minuit_1 first) 1;
                       value_at (ff_minuit_1 first) 2; value_at (ff_minuit_1 first) 3;
                       Fin 0];
                  _ ← lift (error_propagation_compute camera Gaussian_pdf
                              jacobi_propagate minuit_variance_result true);
                  mret (Some minuit_variance_result)
             else mret None) st1 = Some (variance, st2) ∧
            heap st2 !! ff_n_pe first = Some (pp_n_pe (ff_pre first))).
  { destruct add_variance; [|by eexists _, _].
    destruct (optimize_with_outlier_rejection_variance_total st1
                (ff_sigma_masked first) (ff_n_pe first)
                [value_at (ff_minuit_1 first) 0; value_at (ff_minuit_1 first) 1;
                 value_at (ff_minuit_1 first) 2; value_at (ff_minuit_1 first) 3; Fin 0]
                _ _ missing hg_zero Hs Hn)
      as (nv & fv & rv & st2 & fcn' & Hfit2).
    { rewrite Hsig, length_fmap. lia. }
    { rewrite Hdict. by rewrite lookup_insert_ne. }
    { rewrite Hdict. by rewrite lookup_insert_ne. }
    pose proof (optimize_with_outlier_rejection_variance_inv _ _ _ _ _ _ _ _ _ Hfit2)
      as (_ & _ & _ & _ & _ & _ & _ & _ & _ & _ & _ & Hext).
    unfold mbind at 1, M_bind at 1. rewrite Hfit2.
    unfold mbind at 1, M_bind at 1.
    rewrite Hminuit. destruct (Hprop2 fcn fcn') as [pv ->]. cbn [lift].
    eexists _, _. split; [reflexivity|]. by apply Hext. }
  destruct Hvar as (variance & st2 & Hvar & Hn2).
  unfold mbind at 1, M_bind at 1. rewrite Hvar.
  unfold mbind at 1, M_bind at 1.
  unfold compute_ff_coefs, relative_signal. rewrite Hhg, Hcol.
  cbn [mbind option_bind lift].
  unfold mbind at 1, M_bind at 1. rewrite (ma_read_spec _ _ _ Hn2).
  done.
Qed.

End main_script_runs.

Lemma origin_propagation_variance (fcn fcn' : list float64 → option mcell) :
  let minuit_1 := seed_minuit fcn [Fin 1000; Fin 0; Fin 0; Fin 1.5] [] in
  is_Some (error_propagation_compute origin_camera Gaussian2D_pdf unit_propagate
             (seed_minuit fcn'
                [value_at minuit_1 0; value_at minuit_1 1; value_at minuit_1 2;
                 value_at minuit_1 3; Fin 0] [0; 3; 4]) true).
Proof.
  intros minuit_1.
  change [value_at minuit_1 0; value_at minuit_1 1; value_at minuit_1 2;
          value_at minuit_1 3; Fin 0]
    with [Fin 1000; Fin 0; Fin 0; Fin 1.5; Fin 0].
  set (y := model origin_camera Gaussian2D_pdf [Fin 1000; Fin 0; Fin 0; Fin 1.5; Fin 0]).
  apply (error_propagation_total _ _ _ _
           [Fin 1000; Fin 0; Fin 0; Fin 1.5] [Fin 1; Fin 1; Fin 1; Fin 1]
           y (replicate (length y) (replicate (length y) (Fin 1)))).
  - reflexivity.
  - reflexivity.
  - reflexivity.
  - destruct (origin_theta [Fin 1000; Fin 0; Fin 0; Fin 1.5] 0 0 eq_refl eq_refl)
      as [t ->].
    assert (Hy : length y = total_pixels).
    { unfold y, model, origin_camera. cbn [pix_x pix_y].
      by rewrite length_fmap, length_zip_with, !length_replicate, Nat.min_id. }
    rewrite Hy. clearbody y.
    destruct total_pixels_succ as [n Hn]. rewrite Hn in *.
    apply rebin_constant_theta; [done|].
    unfold np_diag. by rewrite length_fmap, length_imap, length_replicate.
Qed.

(** A run with the second fit on the one-pixel input. *)
Lemma main_script_tally_witness :
  ∃ first variance simple_ff_coefs ff_model st' missing hg_zero sigma_new,
    main_script origin_camera Gaussian2D_pdf seed_minuit unit_propagate
                (λ _, NaN) (λ _, NaN) (one_pixel 2 8 2) true (PyState ∅ ∅)
      = Some ((first, variance, simple_ff_coefs, ff_model), st') ∧
    ma_masked_array (pp_sigma_masked (ff_pre first))
                    (outlier_flags (pp_n_pe (ff_pre first))).*1 = Some sigma_new ∧
    dict_missing_pix st' !! "rejected_outliers"
      = Some (1855 - Z.of_nat (ma_count sigma_new) - missing - hg_zero)%Z.
Proof.
  destruct (main_script_total origin_camera Gaussian2D_pdf seed_minuit unit_propagate
              (λ _, NaN) (λ _, NaN) (one_pixel 2 8 2) true (PyState ∅ ∅) (one_pixel_sparse 2 8 2)
              origin_propagation origin_propagation_variance)
    as [[[[[first variance] simple_ff_coefs] ff_model] st'] Hrun].
  destruct (main_script_tally_and_coefficients
              origin_camera Gaussian2D_pdf seed_minuit unit_propagate
              (λ _, NaN) (λ _, NaN)
              (one_pixel 2 8 2) true (PyState ∅ ∅) st' first variance
              simple_ff_coefs ff_model Hrun)
    as (missing & hg_zero & sigma_new & _ & _ & _ & Hnew & _ & Htally & _).
  exists first, variance, simple_ff_coefs, ff_model, st', missing, hg_zero, sigma_new.
  split; [exact Hrun|]. split; [exact Hnew|exact Htally].
Defined.


(** ** A column shorter than the list of pixel ids *)

Lemma np_argsort_Permutation (keys : list nat) :
  np_argsort keys ≡ₚ seq 0 (length keys).
Proof.
  unfold np_argsort. rewrite merge_sort_Permutation.
  rewrite snd_zip; [done|]. by rewrite length_seq.
Qed.

Lemma np_take_out_of_range {A : Type} (col : list A) (idx : list nat) (i : nat) :
  i ∈ idx → length col ≤ i → np_take col idx = None.
Proof.
  intros Hi Hlen. unfold np_take.
  destruct (mapM (λ i, col !! i) idx) as [out|] eqn:Hout; [|done].
  assert (Hall : Forall (λ i, is_Some (col !! i)) idx).
  { apply mapM_is_Some_1. by rewrite Hout. }
  rewrite Forall_forall in Hall. apply Hall in Hi as [x Hx].
  apply lookup_lt_Some in Hx. lia.
Qed.

(** A column with fewer entries than there are ids cannot be indexed by
    the sorting permutation. *)
Lemma np_take_short_column {A : Type} (col pad : list A) (ids missing : list nat) :
  length pad = length missing → length col < length ids →
  np_take (col ++ pad) (np_argsort (ids ++ missing)) = None.
Proof.
  intros Hpad Hcol.
  apply (np_take_out_of_range _ _ (length (ids ++ missing) - 1)).
  - rewrite np_argsort_Permutation. apply elem_of_seq.
    rewrite length_app. lia.
  - rewrite !length_app. lia.
Qed.

(** X23.  The Normalizer raises ([IndexError]) when the [charge]
    column, or one of the two gain arrays, has fewer entries than the
    list of pixel ids. *)
Theorem normalizer_raises_on_short_column (c : GainContainer) :
  length (charge c) < length (pixels_id c) ∨
  length (rows2 (high_gain c)) < length (pixels_id c) ∨
  length (rows2 (low_gain c)) < length (pixels_id c) →
  pre_process_fits c = None.
Proof.
  intros Hshort.
  assert (Hmerge : merge_missing_pixels c = None).
  { unfold merge_missing_pixels.
    set (missing := np_setdiff1d_arange total_pixels (pixels_id c)).
    unfold np_concatenate2, np_zeros2, np_take2. cbn [shape1 rows2].
    rewrite !decide_True by done. cbn [mbind option_bind rows2 shape1].
    destruct (np_take (pixels_id c ++ missing) _) as [ids|];
      cbn [mbind option_bind]; [|done].
    destruct Hshort as [H|[H|H]].
    - destruct (np_take (rows2 (high_gain c) ++ _) _);
        cbn [fmap option_fmap option_map mbind option_bind]; [|done].
      destruct (np_take (rows2 (low_gain c) ++ _) _);
        cbn [fmap option_fmap option_map mbind option_bind]; [|done].
      rewrite (np_take_short_column (charge c));
        [reflexivity|by rewrite length_replicate|done].
    - rewrite (np_take_short_column (rows2 (high_gain c)));
        [reflexivity|by rewrite length_replicate|done].
    - destruct (np_take (rows2 (high_gain c) ++ _) _);
        cbn [fmap option_fmap option_map mbind option_bind]; [|done].
      rewrite (np_take_short_column (rows2 (low_gain c)));
        [reflexivity|by rewrite length_replicate|done]. }
  unfold pre_process_fits. by rewrite Hmerge.
Qed.

Lemma normalizer_raises_witness : pre_process_fits short_charge_input = None.
Proof.
  apply normalizer_raises_on_short_column. left. cbn. lia.
Defined.

(** ** The fitted model and the propagated model *)

Lemma error_propagation_model_values
    (camera : CameraGeometry)
    (Gaussian_pdf : float64 → float64 → float64 → float64 → float64 → float64 → float64)
    (jacobi_propagate :
       (list float64 → ndarray) → list float64 → list (list float64) →
       ndarray * list (list float64))
    (m : MinuitResult) (rebin : bool) (p : Propagated) :
  error_propagation_compute camera Gaussian_pdf jacobi_propagate m rebin = Some p →
  model_values p
  = (jacobi_propagate (model camera Gaussian_pdf) (values m) (covariance m)).1.
Proof.
  unfold error_propagation_compute. intros H.
  destruct (mapM (λ i, values m !! i) (seq 0 4)) as [vals|];
    cbn [mbind option_bind] in H; [|done].
  destruct (mapM (λ i, errors m !! i) (seq 0 4)) as [errs|];
    cbn [mbind option_bind] in H; [|done].
  destruct (jacobi_propagate _ _ _) as [y ycov]. cbn [fst].
  destruct rebin.
  - destruct (rebin_by_theta _ _ _); cbn [mbind option_bind] in H; [|done].
    by injection H as <-.
  - by injection H as <-.
Qed.

Section fitted_model.
Variable camera : CameraGeometry.
Variable Gaussian_pdf :
  float64 → float64 → float64 → float64 → float64 → float64 → float64.
Variable Minuit_migrad :
  (list float64 → option mcell) → list float64 → list nat → MinuitResult.

Lemma model_Gaussian_model (m : MinuitResult) :
  Gaussian_model camera Gaussian_pdf (value_at m 0) (value_at m 1) (value_at m 2)
                 (value_at m 3) (value_at m 3)
  = model camera Gaussian_pdf (values m).
Proof. reflexivity. Qed.

Variable jacobi_propagate :
  (list float64 → ndarray) → list float64 → list (list float64) →
  ndarray * list (list float64).

(** jacobi's [propagate(fn, x, cov)] returns, as its first component,
    the value [fn(x)]. *)
Hypothesis propagate_value :
  ∀ fn x cov, (jacobi_propagate fn x cov).1 = fn x.

(** X24.  The model values the main script takes from the Error
    Propagator ([y_1], written to the output table and used for the
    model-based coefficients) are the model array the first fitter
    returned ([fit_1], shown in the plots): [Gaussian_model] with equal
    widths and [model] compute the same array, and jacobi evaluates
    [model] at the values of the fit. *)
Theorem propagated_model_is_fitted_model
    (c : GainContainer) (st st' : pystate) (first : FirstFit) :
  main_first_fit camera Gaussian_pdf Minuit_migrad jacobi_propagate c st
    = Some (first, st') →
  model_values (ff_dict_errors first) = ff_fit_1 first ∧
  ff_fit_1 first = model camera Gaussian_pdf (values (ff_minuit_1 first)).
Proof.
  intros Hrun.
  pose proof (main_first_fit_inv _ _ _ _ _ _ _ _ Hrun) as (_ & _ & _ & Hprop & _).
  assert (Hfit : ff_fit_1 first = model camera Gaussian_pdf (values (ff_minuit_1 first))).
  { unfold main_first_fit in Hrun.
    apply bind_Some in Hrun as (pre' & st1 & _ & Hrun).
    apply bind_Some in Hrun as (sl & st2 & _ & Hrun).
    apply bind_Some in Hrun as (nl & st3 & _ & Hrun).
    apply bind_Some in Hrun as ([] & st4 & _ & Hrun).
    apply bind_Some in Hrun as ([[[d1 f1] m1] r1] & st5 & Hfit & Hrun).
    apply bind_Some in Hrun as (dict_errors & st6 & _ & Hrun).
    apply bind_Some in Hrun as ([] & st7 & _ & Hrun).
    injection Hrun as <- <-. cbn [ff_fit_1 ff_minuit_1].
    unfold optimize_with_outlier_rejection in Hfit.
    apply bind_Some in Hfit as ([[d' s'] o] & s1 & _ & Hfit).
    apply bind_Some in Hfit as (n_pe_arr & s2 & _ & Hfit).
    apply bind_Some in Hfit as (s_arr & s3 & _ & Hfit).
    injection Hfit as <- <- <- <- <-. apply model_Gaussian_model. }
  split; [|done]. rewrite Hfit.
  by rewrite (error_propagation_model_values _ _ _ _ _ _ Hprop), propagate_value.
Qed.

End fitted_model.

Lemma propagated_model_witness :
  ∃ first st',
    main_first_fit origin_camera Gaussian2D_pdf seed_minuit unit_propagate
                   (one_pixel 2 8 2) (PyState ∅ ∅) = Some (first, st') ∧
    model_values (ff_dict_errors first) = ff_fit_1 first.
Proof.
  destruct (main_first_fit_total origin_camera Gaussian2D_pdf seed_minuit unit_propagate
              (one_pixel 2 8 2) (PyState ∅ ∅) (one_pixel_sparse 2 8 2)
              origin_propagation) as [[first st'] Hrun].
  destruct (propagated_model_is_fitted_model origin_camera Gaussian2D_pdf seed_minuit
              unit_propagate (λ fn x cov, eq_refl)
              (one_pixel 2 8 2) (PyState ∅ ∅) st' first Hrun) as [Hvalues _].
  exists first, st'. split; [exact Hrun|exact Hvalues].
Defined.


(** ** The tally of the first part is never positive *)

Lemma filter_length_le {A B : Type} (P : A → Prop) (Q : B → Prop)
    `{∀ x, Decision (P x)} `{∀ y, Decision (Q y)} (a : list A) (b : list B) :
  Forall2 (λ x y, P x → Q y) a b →
  length (filter P a) ≤ length (filter Q b).
Proof.
  induction 1 as [|x y a b Hxy _ IH]; [done|].
  rewrite !filter_cons. destruct (decide (P x)) as [HP|HP].
  - rewrite decide_True by auto. cbn. lia.
  - destruct (decide (Q y)); cbn; lia.
Qed.

(** With finite gains and charges, an uncertainty of zero is found
    only at a pixel whose gain is zero or negative. *)
Lemma zero_std_needs_nonpositive_gain (g q : R) :
  let n := if fgt (Fin g) fzero then fdiv (Fin q) (Fin g) else fzero in
  let s := fsqrt (if fne (Fin g) fzero then fdiv (fmul (Fin q) n) (Fin q) else fzero) in
  feq s fzero = true → fle (Fin g) fzero = true.
Proof.
  intros n s. unfold fzero. rewrite fle_fin.
  destruct (Rle_dec g 0) as [Hle|Hgt]; [intros _; by apply bool_decide_eq_true_2|].
  assert (Hg : (0 < g)%R) by lra. intros Hs. exfalso.
  destruct (Rlt_dec 0 q) as [Hq|Hq].
  - assert (Hstd : s = Fin (sqrt (q / g))).
    { unfold s, n, fne, fzero. rewrite feq_fin, fgt_fin.
      rewrite bool_decide_eq_false_2 by lra. rewrite bool_decide_eq_true_2 by lra.
      cbn [negb]. rewrite (fdiv_fin q g) by lra. cbn [fmul].
      rewrite fdiv_fin by lra.
      replace (q * (q / g) / q)%R with (q / g)%R by (field; lra).
      apply fsqrt_fin. left. by apply Rdiv_lt_0_compat. }
    rewrite Hstd, feq_fin in Hs. apply bool_decide_eq_true in Hs.
    assert (0 < sqrt (q / g))%R by (apply sqrt_lt_R0; by apply Rdiv_lt_0_compat).
    lra.
  - assert (Hstd : s = NaN).
    { unfold s, n, fne, fzero. rewrite feq_fin, fgt_fin.
      rewrite bool_decide_eq_false_2 by lra. rewrite bool_decide_eq_true_2 by lra.
      cbn [negb]. rewrite (fdiv_fin q g) by lra. cbn [fmul].
      destruct (decide (q = 0%R)) as [->|Hq0].
      - unfold fdiv. rewrite !bool_decide_eq_true_2; [done|lra|done].
      - rewrite fdiv_fin by done.
        replace (q * (q / g) / q)%R with (q / g)%R by (field; lra).
        unfold fsqrt. rewrite bool_decide_eq_true_2; [done|].
        apply Rmult_neg_pos; [lra|]. by apply Rinv_0_lt_compat. }
    by rewrite Hstd in Hs.
Qed.

(** X25.  On a sparse input with finite gains and charges, the number
    the first part of the main script stores as [rejected_outliers] is
    never positive: an uncertainty of zero is only found at a missing
    pixel or at a pixel whose gain is zero or negative, and these are
    subtracted again. *)
Theorem first_tally_is_never_positive
    (camera : CameraGeometry)
    (Gaussian_pdf : float64 → float64 → float64 → float64 → float64 → float64 → float64)
    (Minuit_migrad :
       (list float64 → option mcell) → list float64 → list nat → MinuitResult)
    (jacobi_propagate :
       (list float64 → ndarray) → list float64 → list (list float64) →
       ndarray * list (list float64))
    (c : GainContainer) (st st' : pystate) (first : FirstFit) :
  sparse_input c →
  Forall (λ row, ∃ g, row !! 0 = Some (Fin g)) (rows2 (high_gain c)) →
  Forall (λ q, isfinite q = true) (charge c) →
  main_first_fit camera Gaussian_pdf Minuit_migrad jacobi_propagate c st
    = Some (first, st') →
  ∃ tally,
    dict_missing_pix st' !! "rejected_outliers" = Some tally ∧ (tally <= 0)%Z.
Proof.
  intros Hc Hgains Hcharges Hrun.
  pose proof (main_first_fit_inv _ _ _ _ _ _ _ _ Hrun)
    as (Hpre & _ & _ & _ & missing & hg_zero & Hm & Hh & Hdict).
  destruct (pre_process_fits_spec c Hc)
    as (cd & pre & hg0 & Hmerge & Hcol & Hpre' & Hlen & Hhg0 & Hslen & Hnlen & Hch & Hhg
        & Hlg & Hd & Hsig & Hpix).
  rewrite Hpre in Hpre'. injection Hpre' as <-.
  destruct (merge_missing_pixels_spec c Hc)
    as (cd' & Hmerge' & _ & _ & _ & Hl1 & _ & Hl3 & _ & _ & Hpres & Hmiss).
  rewrite Hmerge in Hmerge'. injection Hmerge' as <-.
  rewrite Hd in Hm, Hh.
  rewrite lookup_insert_ne in Hm by done. rewrite lookup_insert_eq in Hm.
  rewrite lookup_insert_eq in Hh. injection Hm as <-. injection Hh as <-.
  eexists. rewrite Hdict, lookup_insert_eq. split; [reflexivity|].
  assert (Hcount : length (filter (λ s, feq s fzero = true) (pp_std_n_pe (ff_pre first)))
                   ≤ length (filter (λ g, fle g fzero = true) hg0)).
  { apply filter_length_le. apply Forall2_same_length_lookup. split; [lia|].
    intros p s g Hs Hg.
    assert (Hp : p < total_pixels) by (rewrite <- Hlen; by eapply lookup_lt_Some).
    destruct (lookup_lt_is_Some_2 (charge cd) p) as [q Hq]; [lia|].
    destruct (Hpix p g q Hg Hq) as [Hs' _]. rewrite Hs in Hs'. injection Hs' as ->.
    destruct (lookup_lt_is_Some_2 (rows2 (high_gain cd)) p) as [row Hrow]; [lia|].
    pose proof (Hhg0 p row Hrow) as Hg0. rewrite Hg in Hg0.
    destruct (decide (p ∈ pixels_id c)) as [Hin|Hnotin].
    - apply list_elem_of_lookup in Hin as [i Hi].
      destruct (Hpres i p Hi) as (Hr & _ & Hc' & _).
      rewrite Hrow in Hr. rewrite Hq in Hc'.
      rewrite Forall_lookup in Hgains. destruct (Hgains i row (eq_sym Hr)) as [gr Hgr].
      rewrite Forall_lookup in Hcharges. pose proof (Hcharges i q (eq_sym Hc')) as Hfq.
      destruct q as [qr| | |]; try done.
      assert (g = Fin gr) as -> by congruence.
      apply zero_std_needs_nonpositive_gain.
    - destruct (Hmiss p Hp Hnotin) as (Hr & _ & Hc' & _).
      rewrite Hrow in Hr. injection Hr as ->. rewrite Hq in Hc'. injection Hc' as ->.
      destruct Hc as [_ _ _ _ _ _ _ _ Hw].
      destruct (shape1 (high_gain c)); [lia|]. cbn in Hg0. injection Hg0 as ->.
      intros _. unfold fzero. rewrite fle_fin. apply bool_decide_eq_true_2. lra. }
  rewrite Hsig.
  pose proof (count_of_sigma_masked (pp_std_n_pe (ff_pre first))) as Hcnt.
  rewrite Hslen, total_pixels_val in Hcnt. change (Z.of_nat 1855) with 1855%Z in Hcnt.
  lia.
Qed.

Lemma first_tally_witness :
  ∃ first st' tally,
    main_first_fit origin_camera Gaussian2D_pdf seed_minuit unit_propagate
                   (one_pixel 2 8 2) (PyState ∅ ∅) = Some (first, st') ∧
    dict_missing_pix st' !! "rejected_outliers" = Some tally ∧ (tally <= 0)%Z.
Proof.
  destruct (main_first_fit_total origin_camera Gaussian2D_pdf seed_minuit unit_propagate
              (one_pixel 2 8 2) (PyState ∅ ∅) (one_pixel_sparse 2 8 2)
              origin_propagation) as [[first st'] Hrun].
  destruct (first_tally_is_never_positive
              origin_camera Gaussian2D_pdf seed_minuit unit_propagate
              (one_pixel 2 8 2) (PyState ∅ ∅) st' first) as (tally & Ht & Hle).
  - apply one_pixel_sparse.
  - constructor; [|constructor]. by exists 2%R.
  - constructor; [|constructor]. reflexivity.
  - exact Hrun.
  - exists first, st', tally. split; [exact Hrun|]. split; [exact Ht|exact Hle].
Defined.


(** ** A [nan] in the rebinning *)

Lemma nan_weight_reaches_bin (theta w sums bins : ndarray) (i j : nat) (t x : R) :
  np_histogram_weights theta bins w = Some sums →
  Forall (λ e, isfinite e = true) bins →
  theta !! i = Some (Fin t) → w !! i = Some NaN →
  in_bin bins j (Fin x) = true → (t <= x)%R →
  sums !! j = Some NaN.
Proof.
  intros Hs Hfin Ht Hw Hbin Htx. unfold in_bin in Hbin.
  destruct (bins !! j) as [lo|] eqn:Hlo; [|done].
  destruct (bins !! S j) as [hi|] eqn:Hhi; [|done].
  rewrite Forall_lookup in Hfin.
  pose proof (Hfin _ _ Hhi) as Hh. destruct hi as [h| | |]; try done.
  apply andb_true_iff in Hbin as [_ Hup].
  apply (np_histogram_weights_nan _ _ _ _ j lo (Fin h) (Fin t) Hs Hlo Hhi).
  - apply (list_elem_of_lookup_2 _ i), lookup_zip_with_Some. by exists (Fin t), NaN.
  - destruct (decide (S (S j) = length bins)) as [Hl|Hl].
    + rewrite bool_decide_eq_true_2 by done. rewrite fle_fin in Hup.
      apply bool_decide_eq_true in Hup.
      unfold sort_le, sort_lt, flt. apply negb_true_iff, bool_decide_eq_false. lra.
    + rewrite bool_decide_eq_false_2 by done. unfold flt in Hup.
      apply bool_decide_eq_true in Hup.
      unfold sort_lt, flt. apply bool_decide_eq_true. lra.
Qed.

(** X26.  One [nan] is enough to lose the outer part of the rebinned
    profile: when the model value of a pixel at the angular distance
    [t] is [nan], the rebinned model value is [nan] in every bin that
    reaches to [t] or beyond, the pixel's own bin and all the bins
    farther out, whatever the other pixels hold; and the same for the
    uncertainties. *)
Theorem rebinning_spreads_nan
    (theta y yerr centers ry rye bins : ndarray) (lo hi : R) (i : nat) (t : R) :
  rebin_by_theta theta y yerr = Some (centers, ry, rye) →
  np_min theta = Some (Fin lo) →
  np_max theta = Some (Fin hi) →
  np_arange (Fin lo) (Fin (hi + 0.1)) (Fin 0.1) = Some bins →
  theta !! i = Some (Fin t) →
  (y !! i = Some NaN →
   ∀ j x, in_bin bins j (Fin x) = true → (t <= x)%R → ry !! j = Some NaN) ∧
  (yerr !! i = Some NaN →
   ∀ j x, in_bin bins j (Fin x) = true → (t <= x)%R → rye !! j = Some NaN).
Proof.
  intros Hr Hlo Hhi Hbins Ht.
  destruct (rebin_by_theta_spec _ _ _ _ _ _ Hr)
    as (lo' & hi' & bins' & sum_y & sum_e & Hlo' & Hhi' & Hbins' & Hy & He & _ & _ & Hj).
  rewrite Hlo in Hlo'. injection Hlo' as <-.
  rewrite Hhi in Hhi'. injection Hhi' as <-.
  cbn [fadd] in Hbins'. rewrite Hbins in Hbins'. injection Hbins' as <-.
  assert (Hfin : Forall (λ e, isfinite e = true) bins).
  { apply Forall_lookup. intros k e Hk.
    destruct (np_arange_edge _ _ _ _ k Hbins) as [r Hr'];
      [by apply lookup_lt_Some in Hk|].
    rewrite Hk in Hr'. by injection Hr' as ->. }
  assert (Hlt : ∀ j x, in_bin bins j (Fin x) = true → j < length bins - 1).
  { intros j x Hbin. unfold in_bin in Hbin.
    destruct (bins !! j); [|done].
    destruct (bins !! S j) eqn:Hs; [|done]. apply lookup_lt_Some in Hs. lia. }
  split.
  - intros Hnan j x Hbin Htx.
    destruct (Hj j (Hlt j x Hbin)) as (_ & _ & sy & se & Sy & _ & -> & _).
    rewrite (nan_weight_reaches_bin _ _ _ _ i j t x Hy Hfin Ht Hnan Hbin Htx) in Sy.
    injection Sy as <-. by destruct (decide _).
  - intros Hnan j x Hbin Htx.
    destruct (Hj j (Hlt j x Hbin)) as (_ & _ & sy & se & _ & Se & _ & ->).
    rewrite (nan_weight_reaches_bin _ _ _ _ i j t x He Hfin Ht Hnan Hbin Htx) in Se.
    injection Se as <-. by destruct (decide _).
Qed.

(** The two pixels at 0 and 0.25 degree with the uncertainties [nan]
    and 3: the uncertainty of the last bin, which holds the second pixel
    only, is [nan]. *)
Lemma rebinning_spreads_nan_witness :
  ∃ centers ry rye,
    rebin_by_theta [Fin 0; Fin (1 / 4)] [Fin 2; Fin 4] [NaN; Fin 3]
      = Some (centers, ry, rye) ∧
    rye !! 2 = Some NaN.
Proof.
  destruct (two_pixel_rebin_total [Fin 2; Fin 4] [NaN; Fin 3])
    as [[[centers ry] rye] Hr]; [reflexivity..|].
  exists centers, ry, rye. split; [exact Hr|].
  refine (proj2 (rebinning_spreads_nan _ _ _ _ _ _ two_pixel_bins 0 (1 / 4) 0 0
                   Hr two_pixel_min two_pixel_max two_pixel_arange eq_refl)
            eq_refl 2 (1 / 4)%R _ _).
  - rewrite two_pixel_in_bin. by real_decide.
  - lra.
Defined.
